(** * video-auto-converter: the batch processing core

    A shallow embedding of the Electron main process ([findPythonCommand],
    the ['process-video'] IPC handler) and of the renderer's queue
    handlers in [App] ([handleAddVideos], [handleApplyBulkCaption],
    [handleProcessAll], the [onProcessingProgress] subscriber), with the
    properties the specification states about them.

    Conventions of the embedding:
    - a JavaScript string is a [string]; its characters are 8-bit code
      units, so the white space code units above U+00FF are outside the
      alphabet;
    - a JavaScript number that carries a progress value is a [number]:
      the rational a finite double stands for, [Infinity] or [NaN];
      [parseFloat] rounds to the nearest double;
    - a child process is described by what it delivers ([ChildRun]): its
      data events and then ['close'], or, when the command cannot be
      launched, ['error'] and then ['close'], as Node emits them; the
      order in which the events of different children arrive is an
      input ([schedule]);
    - promises are modelled by the way they settle ([Settled]); through
      [ipcRenderer.invoke] the renderer receives what a handler of the
      main process resolves with, and a new [Error] without the
      properties of the rejection value when the handler rejects;
    - [Date.now()] and [Math.random()] are inputs ([Draw]). *)

From Stdlib Require Import List String Ascii Bool Arith ZArith QArith Lia.
From Stdlib Require Import DecimalString DecimalPos DecimalN DecimalZ FinFun.
From Stdlib Require Import SpecFloat.
From Equations Require Import Equations.
Import ListNotations.

Local Close Scope Q_scope.
Local Close Scope Z_scope.
Local Open Scope list_scope.
Local Open Scope string_scope.

(** ** JavaScript strings *)

Module JsString.

Definition LF : ascii := "010"%char.

(** The one-character string ["\n"]. *)
Definition nl : string := String LF EmptyString.

Definition isEmpty (s : string) : bool :=
  match s with EmptyString => true | String _ _ => false end.

(** [s.split('\n')]: the pieces between line feeds; never the empty
    list. *)
Fixpoint split_nl (s : string) : list string :=
  match s with
  | EmptyString => [EmptyString]
  | String c rest =>
      if Ascii.eqb c LF then EmptyString :: split_nl rest
      else match split_nl rest with
           | piece :: pieces => String c piece :: pieces
           | [] => [String c EmptyString]
           end
  end.

(** [Some tail] when [s] is [p ++ tail]. *)
Fixpoint strip_prefix (p s : string) : option string :=
  match p, s with
  | EmptyString, _ => Some s
  | String a p', String b s' =>
      if Ascii.eqb a b then strip_prefix p' s' else None
  | String _ _, EmptyString => None
  end.

Definition startsWith (p s : string) : bool :=
  match strip_prefix p s with Some _ => true | None => false end.

(** [s.includes(p)]. *)
Fixpoint includes (p s : string) : bool :=
  startsWith p s ||
  match s with
  | EmptyString => false
  | String _ rest => includes p rest
  end.

Fixpoint take_while (f : ascii -> bool) (s : string) : string :=
  match s with
  | EmptyString => EmptyString
  | String c rest => if f c then String c (take_while f rest) else EmptyString
  end.

Fixpoint drop_while (f : ascii -> bool) (s : string) : string :=
  match s with
  | EmptyString => EmptyString
  | String c rest => if f c then drop_while f rest else s
  end.

Fixpoint rev_onto (s acc : string) : string :=
  match s with
  | EmptyString => acc
  | String c rest => rev_onto rest (String c acc)
  end.

Definition rev (s : string) : string := rev_onto s EmptyString.

Fixpoint all_chars (f : ascii -> bool) (s : string) : bool :=
  match s with
  | EmptyString => true
  | String c rest => f c && all_chars f rest
  end.

(** White space and line terminators of ECMAScript among the 8-bit
    code units: TAB, LF, VT, FF, CR, SP, NBSP. *)
Definition isWhiteSpace (c : ascii) : bool :=
  let n := nat_of_ascii c in
  (Nat.leb 9 n && Nat.leb n 13) || Nat.eqb n 32 || Nat.eqb n 160.

(** [s.trim()]. *)
Definition trim (s : string) : string :=
  rev (drop_while isWhiteSpace (rev (drop_while isWhiteSpace s))).

(** [\d] of a regular expression: an ASCII digit. *)
Definition isDigit (c : ascii) : bool :=
  let n := nat_of_ascii c in Nat.leb 48 n && Nat.leb n 57.

Definition digitValue (c : ascii) : N := N.of_nat (nat_of_ascii c - 48).

End JsString.

Import JsString.

(** ** JavaScript numbers that carry a progress value *)

(** A number by its value: a finite double is the rational it stands
    for, in lowest terms. Negative numbers and the negative zero do not
    occur as progress values. *)
Inductive number : Type :=
| Num (q : Q)
| Infinity
| NaN.

(** The integer nearest to [p / d], for [d > 0]; of two that are as
    near, the even one. *)
Definition nearest_even (p d : Z) : Z :=
  let q := (p / d)%Z in
  match (2 * (p mod d) ?= d)%Z with
  | Lt => q
  | Gt => (q + 1)%Z
  | Eq => if Z.even q then q else (q + 1)%Z
  end.

(** [p / d] divided by [2 ^ e], as a fraction. *)
Definition scaled (p d e : Z) : Z * Z :=
  if (0 <=? e)%Z then (p, (d * 2 ^ e)%Z) else ((p * 2 ^ (- e))%Z, d).

(** The exponent of the double nearest to [p / d], for [p, d > 0]: the
    [e] with [2^52 <= (p / d) / 2^e < 2^53], and -1074 for the numbers
    below the normal range. *)
Definition binade (p d : Z) : Z :=
  let e := (Z.log2 p - Z.log2 d - 52)%Z in
  Z.max (-1074)
        (if (fst (scaled p d e) <? snd (scaled p d e) * 2 ^ 52)%Z
         then (e - 1)%Z else e).

(** The Number value for [p / d], with [p >= 0] and [d > 0]: the
    nearest double, a tie going to the even significand, and [Infinity]
    from [2^1024] on. *)
Definition toDouble (p d : Z) : number :=
  if (p =? 0)%Z then Num (Qmake 0 1)
  else
    let e := binade p d in
    let m := nearest_even (fst (scaled p d e)) (snd (scaled p d e)) in
    if (2 ^ 1024 <=? m * 2 ^ e)%Z then Infinity
    else if (0 <=? e)%Z then Num (Qmake (m * 2 ^ e) 1)
         else Num (Qred (Qmake m (Z.to_pos (2 ^ (- e))))).

(** The same quotient computed by the binary64 division of the
    Standard Library, for comparison. *)
Definition binary64_quotient (p d : positive) : number :=
  match SFdiv 53 1024 (S754_finite false p 0) (S754_finite false d 0) with
  | S754_zero _ => Num (Qmake 0 1)
  | S754_infinity _ => Infinity
  | S754_nan => NaN
  | S754_finite _ m e =>
      if (0 <=? e)%Z then Num (Qmake (Zpos m * 2 ^ e) 1)
      else Num (Qred (Qmake (Zpos m) (Z.to_pos (2 ^ (- e)))))
  end.

(** The value of a run of decimal digits, most significant first. *)
Fixpoint digitsValue (acc : N) (s : string) : N :=
  match s with
  | EmptyString => acc
  | String c rest => digitsValue (10 * acc + digitValue c) rest
  end.

(** [parseFloat] on a text made of digits and dots (the alphabet of the
    capture group below, where the sign, exponent and [Infinity]
    alternatives of a decimal literal cannot occur): the longest prefix
    of the form [digits], [digits.digits*] or [.digits+] is read and
    rounded to a double, and the result is [NaN] when there is none. *)
Definition parseFloat (s : string) : number :=
  let int_part := take_while isDigit s in
  let after := drop_while isDigit s in
  let frac_part :=
    match after with
    | String "."%char rest => take_while isDigit rest
    | _ => EmptyString
    end in
  if isEmpty int_part && isEmpty frac_part then NaN
  else
    let scale := (10 ^ N.of_nat (String.length frac_part))%N in
    let mant := (digitsValue 0 int_part * scale + digitsValue 0 frac_part)%N in
    toDouble (Z.of_N mant) (Z.of_N scale).

(** ** The progress parser of ['process-video'] *)

(** The payload of a ['processing-progress'] message. *)
Record ProgressData : Type := mkProgressData {
  path : string;
  progress_value : number
}.

Definition isDigitOrDot (c : ascii) : bool :=
  isDigit c || Ascii.eqb c "."%char.

(** [line.match(/PROGRESS: ([\d.]+)/)]: the capture group of the leftmost
    match, if there is a match. *)
Fixpoint match_progress (line : string) : option string :=
  match line with
  | EmptyString => None
  | String _ rest =>
      match strip_prefix "PROGRESS: " line with
      | Some tail =>
          let capture := take_while isDigitOrDot tail in
          if isEmpty capture then match_progress rest else Some capture
      | None => match_progress rest
      end
  end.

(** The body of the [for (const line of lines)] loop: the messages sent
    for one line. [mainWindow] tells whether the window still exists. *)
Definition line_events (mainWindow : bool) (inputPath line : string)
  : list ProgressData :=
  if includes "PROGRESS:" line then
    match match_progress line with
    | Some capture =>
        if mainWindow
        then [mkProgressData inputPath (parseFloat capture)]
        else []
    | None => []
    end
  else [].

(** The messages sent by one call of the [python.stdout.on('data')]
    handler: the chunk alone is split, nothing is carried over from the
    chunks before it. *)
Definition chunk_events (mainWindow : bool) (inputPath chunk : string)
  : list ProgressData :=
  flat_map (line_events mainWindow inputPath) (split_nl chunk).

(** The messages sent while a sequence of chunks is delivered. *)
Definition stdout_events (mainWindow : bool) (inputPath : string)
  (chunks : list string) : list ProgressData :=
  flat_map (chunk_events mainWindow inputPath) chunks.

(** A chunk that cannot cut a line: it is empty or ends with a line
    feed. *)
Fixpoint ends_line (chunk : string) : bool :=
  match chunk with
  | EmptyString => true
  | String c rest =>
      match rest with
      | EmptyString => Ascii.eqb c LF
      | String _ _ => ends_line rest
      end
  end.

(** A line that carries the marker followed by the first character of
    a number. *)
Definition has_marker (line : string) : Prop :=
  exists pre c rest,
    line = pre ++ "PROGRESS: " ++ String c rest /\ isDigitOrDot c = true.

(** The text a sequence of chunks carries. *)
Definition stream (chunks : list string) : string :=
  fold_right append "" chunks.

Definition example_stream : string :=
  "PROGRESS: 10" ++ nl ++ "noise" ++ nl ++ "PROGRESS: 55.5" ++ nl.

Definition example_split : list string :=
  ["PROGR"; "ESS: 10" ++ nl ++ "noise" ++ nl ++ "PROGRESS: 55.5" ++ nl].

(** ** Child processes and promises *)

Inductive ProcEvent : Type :=
| StdoutData (chunk : string)
| StderrData (chunk : string).

(** What a spawned child does. A child that was launched delivers its
    data events and then ['close'] with its exit code, [None] standing
    for the [null] code of a child ended by a signal. A command that
    cannot be launched delivers ['error'] and after it ['close'], whose
    code is the negative error number: Node emits both events. *)
Inductive ChildRun : Type :=
| Launched (output : list ProcEvent) (code : option Z)
| NotLaunched (message : string) (errno : positive).

(** The data events of a child, in the order of their delivery. *)
Definition events (child : ChildRun) : list ProcEvent :=
  match child with
  | Launched output _ => output
  | NotLaunched _ _ => []
  end.

(** An event that the handlers registered with [on('error', ...)] and
    [on('close', ...)] receive. *)
Inductive ProcEnd : Type :=
| ProcError (message : string)
| ProcClose (code : option Z).

(** The events that end a child: the first, and the ones after it. *)
Definition endings (child : ChildRun) : ProcEnd * list ProcEnd :=
  match child with
  | Launched _ code => (ProcClose code, [])
  | NotLaunched message errno =>
      (ProcError message, [ProcClose (Some (Z.neg errno))])
  end.

(** A record of [spawn(command, argv)]. *)
Definition Spawned : Type := (string * list string)%type.

(** The machine during one invocation of ['process-video']: how the
    child started by [spawn(command, argv)] behaves, the order in which
    the events of the version checks arrive, whether [mainWindow] is
    set, and the path of [processor.py] ([pythonScript], computed from
    the process environment). When [k] events of the version checks
    have been delivered, the check numbered [schedule k] among those
    with an event to come, the oldest being 0, delivers its next one; a
    number beyond them stands for the check started last. Nothing is
    assumed about the order of the events of different children. *)
Record Host : Type := mkHost {
  spawn : string -> list string -> ChildRun;
  schedule : nat -> nat;
  mainWindow : bool;
  pythonScript : string
}.

(** The way a promise settles. *)
Inductive Settled (A E : Type) : Type :=
| Resolved (value : A)
| Rejected (reason : E).

Arguments Resolved {A E} value.
Arguments Rejected {A E} reason.

(** A promise settles once: of the calls of [resolve] and [reject] the
    first decides and the later ones do nothing. *)
Definition settle_once {A E : Type}
  (calls : Settled A E * list (Settled A E)) : Settled A E :=
  fold_left (fun settled _ => settled) (snd calls) (fst calls).

(** [code === 0]. *)
Definition code_is_zero (code : option Z) : bool :=
  match code with
  | Some z => Z.eqb z 0
  | None => false
  end.

(** [`${code}`]. *)
Definition show_code (code : option Z) : string :=
  match code with
  | Some z => NilZero.string_of_int (Z.to_int z)
  | None => "null"
  end.

(** ** The command resolver: [findPythonCommand] *)

Definition python_not_found : string :=
  "Python not found. Please install Python and make sure it's in your PATH.".

Definition version_args : list string := ["--version"].

(** A version check with an event to come: its command, the event it
    delivers next and the ones after that. *)
Record Probe : Type := mkProbe {
  probe_cmd : string;
  next_event : ProcEnd;
  later_events : list ProcEnd
}.

(** [spawn(cmd, ['--version'])], with the two handlers registered. *)
Definition launch (h : Host) (cmd : string) : Probe :=
  let test := spawn h cmd version_args in
  mkProbe cmd (fst (endings test)) (snd (endings test)).

(** The check once its next event is delivered. *)
Definition advance (p : Probe) : list Probe :=
  match later_events p with
  | [] => []
  | e :: later => [mkProbe (probe_cmd p) e later]
  end.

(** The check numbered [k] of [first :: others] delivers its next event:
    that check, and the checks with an event to come afterwards. *)
Fixpoint choose (k : nat) (first : Probe) (others : list Probe)
  {struct others} : Probe * list Probe :=
  match others with
  | [] => (first, advance first)
  | p :: rest =>
      match k with
      | 0 => (first, (advance first ++ others)%list)
      | S k' => (fst (choose k' p rest), first :: snd (choose k' p rest))
      end
  end.

(** The handlers of a version check, run on its next event: [Some cmd]
    for [resolve(cmd)], which [test.on('close')] reaches with code 0,
    and [None] for [index++; tryNext()], which [test.on('error')] and
    [test.on('close')] with another code reach. *)
Definition handler (p : Probe) : option string :=
  match next_event p with
  | ProcError _ => None
  | ProcClose code => if code_is_zero code then Some (probe_cmd p) else None
  end.

(** The handlers once the promise is settled: [resolve] and [reject] do
    nothing any more, but [index++; tryNext()] still starts the check of
    the next candidate. The checks started, in order, and the checks
    left with an event to come when [fuel] events were delivered. *)
Fixpoint settled_tryNext (fuel : nat) (h : Host) (commands : list string)
  (index : nat) (running : list Probe) (step : nat)
  : list Spawned * list Probe :=
  match fuel, running with
  | S fuel', first :: others =>
      let now := choose (schedule h step) first others in
      match handler (fst now) with
      | Some _ => settled_tryNext fuel' h commands index (snd now) (S step)
      | None =>
          if Nat.leb (List.length commands) (S index)
          then settled_tryNext fuel' h commands (S index) (snd now) (S step)
          else
            let cmd := nth (S index) commands "" in
            let rest := settled_tryNext fuel' h commands (S index)
                          (snd now ++ [launch h cmd]) (S step) in
            ((cmd, version_args) :: fst rest, snd rest)
      end
  | _, _ => ([], running)
  end.

(** The events the checks have yet to deliver. *)
Definition events_left (running : list Probe) : nat :=
  fold_right (fun p n => S (List.length (later_events p)) + n) 0 running.

(** As many events as can still be delivered: those of the checks that
    run, and two for each candidate not yet tried. *)
Definition enough (commands : list string) (index : nat)
  (running : list Probe) : nat :=
  events_left running + 2 * (List.length commands - S index).

(** [tryNext], with [commands] and [index] made explicit; [running] are
    the checks started before that still have an event to come, and
    [step] counts the events delivered. The result is the way the
    promise settles, the version checks started until then and the ones
    started afterwards, each in order. *)
Equations? tryNext (h : Host) (commands : list string) (index : nat)
  (running : list Probe) (step : nat)
  : Settled string string * (list Spawned * list Spawned)
  by wf (List.length commands - index) lt :=
  tryNext h commands index running step
    with le_lt_dec (List.length commands) index := {
    | left _ =>
        (Rejected python_not_found,
         ([], fst (settled_tryNext (enough commands index running)
                                   h commands index running step)));
    | right _ =>
        let cmd := nth index commands "" in
        let now :=
          match running with
          | [] => choose (schedule h step) (launch h cmd) []
          | first :: others =>
              choose (schedule h step) first (others ++ [launch h cmd])
          end in
        match handler (fst now) with
        | Some found =>
            (Resolved found,
             ([(cmd, version_args)],
              fst (settled_tryNext (enough commands index (snd now))
                                   h commands index (snd now) (S step))))
        | None =>
            let next := tryNext h commands (S index) (snd now) (S step) in
            (fst next, ((cmd, version_args) :: fst (snd next), snd (snd next)))
        end }.
Proof. all: lia. Qed.

Definition commands : list string := ["python"; "python3"; "py"].

Definition findPythonCommand (h : Host)
  : Settled string string * (list Spawned * list Spawned) :=
  tryNext h commands 0 [] 0.

(** ** The encoder invoker: the ['process-video'] handler *)

Record Args : Type := mkArgs {
  inputPath : string;
  outputPath : string;
  caption_arg : string;
  font : string
}.

(** The object the handler settles with: [{ success, error }]. *)
Record Reply : Type := mkReply {
  success : bool;
  error_text : option string
}.

(** [a || b] on strings: the empty string is falsy. *)
Definition or_else (a b : string) : string :=
  if isEmpty a then b else a.

(** The arguments of the encoder child; it is spawned with
    [windowsHide], which has no counterpart here. *)
Definition encoder_argv (h : Host) (args : Args) : list string :=
  [pythonScript h; inputPath args; outputPath args;
   or_else (caption_arg args) ""; or_else (font args) "Impact"].

(** The variables of the handler's closure while the child runs, and the
    messages sent to the window so far. *)
Record Capture : Type := mkCapture {
  stdout : string;
  stderr : string;
  sent : list ProgressData
}.

Definition on_data (h : Host) (args : Args) (st : Capture) (e : ProcEvent)
  : Capture :=
  match e with
  | StdoutData chunk =>
      mkCapture (stdout st ++ chunk) (stderr st)
                (sent st ++ chunk_events (mainWindow h) (inputPath args) chunk)%list
  | StderrData chunk =>
      mkCapture (stdout st) (stderr st ++ chunk) (sent st)
  end.

Definition capture (h : Host) (args : Args) (child : ChildRun) : Capture :=
  fold_left (on_data h args) (events child) (mkCapture "" "" []).

(** The ['error'] and ['close'] handlers of the encoder child: the call
    of [resolve] or [reject] each makes. *)
Definition on_end (st : Capture) (e : ProcEnd) : Settled Reply Reply :=
  match e with
  | ProcError message => Rejected (mkReply false (Some message))
  | ProcClose code =>
      if code_is_zero code then Resolved (mkReply true None)
      else
        let errorMsg :=
          or_else (stderr st) ("Process exited with code " ++ show_code code) in
        Rejected (mkReply false (Some errorMsg))
  end.

(** One invocation: the way the promise settles, the progress messages
    sent to the window before that, and the children started in the main
    process ([spawned]), in the order of their start. *)
Record Invocation : Type := mkInvocation {
  outcome : Settled Reply Reply;
  messages : list ProgressData;
  spawned : list Spawned
}.

(** The handler in the main process. The encoder is started as soon as
    the command resolves; version checks may still be started after
    it. *)
Definition process_video (h : Host) (args : Args) : Invocation :=
  match findPythonCommand h with
  | (Rejected message, checks) =>
      mkInvocation (Resolved (mkReply false (Some message))) []
                   (fst checks ++ snd checks)%list
  | (Resolved pythonCmd, checks) =>
      let argv := encoder_argv h args in
      let python := spawn h pythonCmd argv in
      let st := capture h args python in
      mkInvocation
        (settle_once (on_end st (fst (endings python)),
                      map (on_end st) (snd (endings python))))
        (sent st)
        (fst checks ++ (pythonCmd, argv) :: snd checks)%list
  end.

(** ** The batch queue of the renderer: [App] *)

Inductive Status : Type := pending | processing | completed | error.

Definition Status_eqb (a b : Status) : bool :=
  match a, b with
  | pending, pending | processing, processing
  | completed, completed | error, error => true
  | _, _ => false
  end.

Record VideoItem : Type := mkVideoItem {
  id : string;
  filepath : string;
  filename : string;
  caption : string;
  status : Status;
  duration : number;
  width : number;
  height : number;
  progress : number;
  errorMsg : option string
}.

Inductive Theme : Type := dark | light.

Record Settings : Type := mkSettings {
  outputDir : string;
  selectedFont : string;
  theme : Theme
}.

(** The calls of [alert], by their text. *)
Inductive Alert : Type :=
| CaptionApplied          (* 'Caption applied to videos without captions!' *)
| NoVideosToProcess       (* 'No videos to process!' *)
| PythonNotFound (errorMsg : string)
                          (* 'Python Not Found' followed by [errorMsg] *)
| ProcessingComplete.     (* 'Processing complete!' *)

(** The state of the component, with the alerts shown so far. *)
Record App : Type := mkApp {
  videos : list VideoItem;
  settings : Settings;
  selectedVideo : option string;
  isProcessing : bool;
  bulkCaption : string;
  alerts : list Alert
}.

Definition setVideos (f : list VideoItem -> list VideoItem) (st : App) : App :=
  mkApp (f (videos st)) (settings st) (selectedVideo st) (isProcessing st)
        (bulkCaption st) (alerts st).

Definition setSelectedVideo (sel : option string) (st : App) : App :=
  mkApp (videos st) (settings st) sel (isProcessing st)
        (bulkCaption st) (alerts st).

Definition setIsProcessing (b : bool) (st : App) : App :=
  mkApp (videos st) (settings st) (selectedVideo st) b
        (bulkCaption st) (alerts st).

Definition alert (a : Alert) (st : App) : App :=
  mkApp (videos st) (settings st) (selectedVideo st) (isProcessing st)
        (bulkCaption st) (alerts st ++ [a])%list.

(** The object spreads of the handlers. *)

(** [{ ...v, caption }] *)
Definition with_caption (v : VideoItem) (c : string) : VideoItem :=
  mkVideoItem (id v) (filepath v) (filename v) c (status v)
              (duration v) (width v) (height v) (progress v) (errorMsg v).

(** [{ ...v, progress }] *)
Definition with_progress (v : VideoItem) (p : number) : VideoItem :=
  mkVideoItem (id v) (filepath v) (filename v) (caption v) (status v)
              (duration v) (width v) (height v) p (errorMsg v).

(** [{ ...v, status, progress }] *)
Definition with_status_progress (v : VideoItem) (s : Status) (p : number)
  : VideoItem :=
  mkVideoItem (id v) (filepath v) (filename v) (caption v) s
              (duration v) (width v) (height v) p (errorMsg v).

(** [{ ...v, status: 'error', errorMsg }] *)
Definition with_error (v : VideoItem) (msg : string) : VideoItem :=
  mkVideoItem (id v) (filepath v) (filename v) (caption v) error
              (duration v) (width v) (height v) (progress v) (Some msg).

(** *** Enqueue: [handleAddVideos] *)

Definition isSeparator (c : ascii) : bool :=
  Ascii.eqb c "/"%char || Ascii.eqb c "\"%char.

(** [filepath.split(/[\\/]/).pop() || '']: what follows the last
    separator. *)
Definition basename (filepath : string) : string :=
  rev (take_while (fun c => negb (isSeparator c)) (rev filepath)).

(** What [Date.now()] and [Math.random()] return for one new item: the
    clock in milliseconds, and the decimal text of the random double as
    a template literal prints it. *)
Record Draw : Type := mkDraw {
  now : N;
  random : string
}.

Definition show_N (n : N) : string := NilZero.string_of_uint (N.to_uint n).

(** [`${Date.now()}-${Math.random()}`] *)
Definition new_id (d : Draw) : string := show_N (now d) ++ "-" ++ random d.

Definition newVideo (d : Draw) (filepath : string) : VideoItem :=
  mkVideoItem (new_id d) filepath (basename filepath) "" pending
              (Num 0%Q) (Num 0%Q) (Num 0%Q) (Num 0%Q) None.

(** [files.map(...)], the [k]-th callback reading the draw [draw k]. *)
Definition newVideos (draw : nat -> Draw) (files : list string)
  : list VideoItem :=
  map (fun kf => newVideo (draw (fst kf)) (snd kf))
      (combine (seq 0 (List.length files)) files).

(** [files] is what the file picker returned. *)
Definition handleAddVideos (files : list string) (draw : nat -> Draw)
  (st : App) : App :=
  match files with
  | [] => st
  | _ :: _ => setVideos (fun prev => prev ++ newVideos draw files)%list st
  end.

(** *** Remove and caption edits *)

Definition removeVideo (i : string) (prev : list VideoItem) : list VideoItem :=
  filter (fun v => negb (String.eqb (id v) i)) prev.

Definition handleRemoveVideo (i : string) (st : App) : App :=
  let st1 := setVideos (removeVideo i) st in
  match selectedVideo st with
  | Some sel => if String.eqb sel i then setSelectedVideo None st1 else st1
  | None => st1
  end.

Definition handleUpdateCaption (i c : string) (st : App) : App :=
  setVideos (map (fun v => if String.eqb (id v) i then with_caption v c else v))
            st.

(** The updater of [handleApplyBulkCaption]. *)
Definition fill (text : string) (v : VideoItem) : VideoItem :=
  if String.eqb (trim (caption v)) "" then with_caption v text else v.

Definition fillEmptyCaptions (text : string) (prev : list VideoItem)
  : list VideoItem := map (fill text) prev.

Definition handleApplyBulkCaption (st : App) : App :=
  if isEmpty (trim (bulkCaption st)) then st
  else alert CaptionApplied (setVideos (fillEmptyCaptions (bulkCaption st)) st).

(** *** Progress messages: the [onProcessingProgress] subscriber *)

Definition route (data : ProgressData) (v : VideoItem) : VideoItem :=
  if String.eqb (filepath v) (path data)
  then with_progress v (progress_value data) else v.

Definition onProcessingProgress (data : ProgressData) (prev : list VideoItem)
  : list VideoItem := map (route data) prev.

(** *** The run: [handleProcessAll] *)

(** The filter of [handleProcessAll]: the jobs a run processes. *)
Definition eligible (vs : list VideoItem) : list VideoItem :=
  filter (fun v => Status_eqb (status v) pending || Status_eqb (status v) error)
         vs.

(** The three updates of [handleProcessAll], each a [prev.map] with
    the arrow function named here. *)
Definition to_processing (i : string) (v : VideoItem) : VideoItem :=
  if String.eqb (id v) i then with_status_progress v processing (Num 0%Q) else v.

Definition to_completed (i : string) (v : VideoItem) : VideoItem :=
  if String.eqb (id v) i then with_status_progress v completed (Num 100%Q) else v.

Definition to_error (i msg : string) (v : VideoItem) : VideoItem :=
  if String.eqb (id v) i then with_error v msg else v.

Definition mark_processing (i : string) (prev : list VideoItem)
  : list VideoItem := map (to_processing i) prev.

Definition mark_completed (i : string) (prev : list VideoItem)
  : list VideoItem := map (to_completed i) prev.

Definition mark_error (i msg : string) (prev : list VideoItem)
  : list VideoItem := map (to_error i msg) prev.

(** [name.replace(/\.[^/.]+$/, '')]: a final dot followed by one or more
    characters other than ['/'] and ['.'] is removed. *)
Definition strip_extension (name : string) : string :=
  let plain := fun c => negb (Ascii.eqb c "/"%char || Ascii.eqb c "."%char) in
  let r := rev name in
  match take_while plain r, drop_while plain r with
  | String _ _, String "."%char stem => rev stem
  | _, _ => name
  end.

Definition output_path (cfg : Settings) (video : VideoItem) : string :=
  outputDir cfg ++ "/" ++ strip_extension (filename video) ++ "_tiktok.mp4".

Definition args_of (cfg : Settings) (video : VideoItem) : Args :=
  mkArgs (filepath video) (output_path cfg video) (caption video)
         (selectedFont cfg).

(** [error.error || 'Processing failed'] *)
Definition error_message (e : Reply) : string :=
  match error_text e with
  | Some text => or_else text "Processing failed"
  | None => "Processing failed"
  end.

(** A run in progress: the component, and the invocations made so far
    with their arguments. *)
Record Run : Type := mkRun {
  component : App;
  calls : list (Args * Invocation)
}.

Definition deliver (msgs : list ProgressData) (prev : list VideoItem)
  : list VideoItem :=
  fold_left (fun vs data => onProcessingProgress data vs) msgs prev.

(** One turn of the [for (const video of pending)] loop; the boolean
    tells whether the turn ended in [break]. [api k] is the [k]-th call
    of [window.electronAPI.processVideo] of the run. *)
Definition process_one (api : nat -> Args -> Invocation) (cfg : Settings)
  (video : VideoItem) (r : Run) : Run * bool :=
  let st1 := setVideos (mark_processing (id video)) (component r) in
  let args := args_of cfg video in
  let inv := api (List.length (calls r)) args in
  let st2 := setVideos (deliver (messages inv)) st1 in
  let log := (calls r ++ [(args, inv)])%list in
  match outcome inv with
  | Resolved _ =>
      (mkRun (setVideos (mark_completed (id video)) st2) log, false)
  | Rejected e =>
      let errorMsg := error_message e in
      let st3 := setVideos (mark_error (id video) errorMsg) st2 in
      if includes "Python not found" errorMsg
      then (mkRun (alert (PythonNotFound errorMsg) st3) log, true)
      else (mkRun st3 log, false)
  end.

Fixpoint process_loop (api : nat -> Args -> Invocation) (cfg : Settings)
  (todo : list VideoItem) (r : Run) : Run :=
  match todo with
  | [] => r
  | video :: rest =>
      let (r', stop) := process_one api cfg video r in
      if stop then r' else process_loop api cfg rest r'
  end.

Definition handleProcessAll (api : nat -> Args -> Invocation) (st : App)
  : Run :=
  let todo := eligible (videos st) in
  match todo with
  | [] => mkRun (alert NoVideosToProcess st) []
  | _ :: _ =>
      let r := process_loop api (settings st) todo
                            (mkRun (setIsProcessing true st) []) in
      mkRun (alert ProcessingComplete (setIsProcessing false (component r)))
            (calls r)
  end.

(** ** The whole program *)

(** [ipcRenderer.invoke]: what the handler resolves with reaches the
    renderer as it is. When the handler rejects, the promise of the
    renderer is rejected with a new [Error] whose message names the
    channel; the value the handler rejected with is not handed over, so
    in the renderer [error.error] is [undefined]. *)
Definition invoke (o : Settled Reply Reply) : Settled Reply Reply :=
  match o with
  | Resolved reply => Resolved reply
  | Rejected _ => Rejected (mkReply false None)
  end.

(** [processVideo] of the preload script: one invocation as the
    renderer sees it. [world k] is the machine during the [k]-th
    invocation of a run. *)
Definition electronAPI (world : nat -> Host) : nat -> Args -> Invocation :=
  fun k args =>
    let inv := process_video (world k) args in
    mkInvocation (invoke (outcome inv)) (messages inv) (spawned inv).

Definition run (world : nat -> Host) (st : App) : Run :=
  handleProcessAll (electronAPI world) st.

(** The children a run started, invocation by invocation. *)
Definition children (r : Run) : list Spawned :=
  flat_map (fun c => spawned (snd c)) (calls r).

(** A child started by the version check of the resolver. *)
Definition is_probe (c : Spawned) : bool :=
  match snd c with
  | [a] => String.eqb a "--version"
  | _ => false
  end.

(** The version check of [cmd] exits with 0. *)
Definition probe_succeeds (h : Host) (cmd : string) : Prop :=
  exists output, spawn h cmd version_args = Launched output (Some 0%Z).

(** The version check of [cmd] cannot be launched, or does not exit
    with 0. *)
Definition probe_fails (h : Host) (cmd : string) : Prop :=
  match spawn h cmd version_args with
  | Launched _ code => code <> Some 0%Z
  | NotLaunched _ _ => True
  end.

(** The version check of [cmd] is launched and does not exit with 0. *)
Definition probe_exits_badly (h : Host) (cmd : string) : Prop :=
  match spawn h cmd version_args with
  | Launched _ code => code <> Some 0%Z
  | NotLaunched _ _ => False
  end.

(** The text the child wrote to its standard error. *)
Definition stderr_text (child : ChildRun) : string :=
  fold_left (fun acc e => match e with
                          | StderrData chunk => acc ++ chunk
                          | StdoutData _ => acc
                          end) (events child) "".

(** During this invocation the command resolves and the encoder child
    is launched and ends with [code], having written [text] to its
    standard error. *)
Definition encoder_exits (h : Host) (args : Args) (code : option Z)
  (text : string) : Prop :=
  exists cmd output,
    fst (findPythonCommand h) = Resolved cmd /\
    spawn h cmd (encoder_argv h args) = Launched output code /\
    stderr_text (spawn h cmd (encoder_argv h args)) = text.

(** The record of the version check of [cmd]. *)
Definition probe (cmd : string) : Spawned := (cmd, version_args).

(** The resolver in the words of the specification: the candidates are
    tried in list order and the first one whose version check exits with
    0 is returned. *)
Fixpoint first_usable (h : Host) (candidates : list string)
  : Settled string string * list Spawned :=
  match candidates with
  | [] => (Rejected python_not_found, [])
  | cmd :: rest =>
      match spawn h cmd version_args with
      | Launched _ (Some 0%Z) => (Resolved cmd, [probe cmd])
      | _ => (fst (first_usable h rest), probe cmd :: snd (first_usable h rest))
      end
  end.

(** A check whose events to come all ask for the next candidate. *)
Definition hopeless (p : Probe) : Prop :=
  Forall (fun e => match e with
                   | ProcError _ => True
                   | ProcClose code => code <> Some 0%Z
                   end)
         (next_event p :: later_events p).

(** A check of a candidate of [cs], with the events of that child on
    this machine that are still to come. *)
Definition from_host (h : Host) (cs : list string) (p : Probe) : Prop :=
  In (probe_cmd p) cs /\
  exists seen,
    (seen ++ next_event p :: later_events p)%list =
    fst (endings (spawn h (probe_cmd p) version_args)) ::
    snd (endings (spawn h (probe_cmd p) version_args)).

(** The schedule that follows [picks], and picks the oldest check
    afterwards. *)
Definition events_in_order (picks : list nat) : nat -> nat :=
  fun k => nth k picks 0.

(** ** Vocabulary of the statements *)

(** A caption that is empty or made of white space only. *)
Definition whitespace_only (s : string) : bool := all_chars isWhiteSpace s.

(** [v'] is [v] but for its caption. *)
Definition same_except_caption (v v' : VideoItem) : Prop :=
  id v' = id v /\ filepath v' = filepath v /\ filename v' = filename v /\
  status v' = status v /\ duration v' = duration v /\ width v' = width v /\
  height v' = height v /\ progress v' = progress v /\
  errorMsg v' = errorMsg v.

(** [v'] is [v] but for its progress. *)
Definition same_except_progress (v v' : VideoItem) : Prop :=
  id v' = id v /\ filepath v' = filepath v /\ filename v' = filename v /\
  caption v' = caption v /\ status v' = status v /\
  duration v' = duration v /\ width v' = width v /\ height v' = height v /\
  errorMsg v' = errorMsg v.

(** The job [v] under another id. *)
Definition with_id (rename : string -> string) (v : VideoItem) : VideoItem :=
  mkVideoItem (rename (id v)) (filepath v) (filename v) (caption v) (status v)
              (duration v) (width v) (height v) (progress v) (errorMsg v).

(** A sequence of uses of Add Videos: for each, the files picked and the
    draws of the clock and of the random generator. *)
Definition enqueue_all (picks : list (list string * (nat -> Draw))) (st : App)
  : App :=
  fold_left (fun acc pick => handleAddVideos (fst pick) (snd pick) acc) picks st.

(** The draws read while [files] are mapped. *)
Definition draws_of (pick : list string * (nat -> Draw)) : list Draw :=
  map (snd pick) (seq 0 (List.length (fst pick))).

Definition job (i p c : string) (s : Status) (x : number) : VideoItem :=
  mkVideoItem i p (basename p) c s (Num 0%Q) (Num 0%Q) (Num 0%Q) x None.

Definition empty_app : App :=
  mkApp [] (mkSettings "out" "Impact" dark) None false "" [].

Definition app_with (vs : list VideoItem) (bulk : string) : App :=
  mkApp vs (mkSettings "out" "Impact" dark) None false bulk [].


(** What one turn of the loop does to one job of the queue: the three
    updates of the turn, composed. *)
Definition routes (msgs : list ProgressData) (v : VideoItem) : VideoItem :=
  fold_left (fun u data => route data u) msgs v.

Definition settle (i : string) (o : Settled Reply Reply) (v : VideoItem)
  : VideoItem :=
  match o with
  | Resolved _ => to_completed i v
  | Rejected e => to_error i (error_message e) v
  end.

Definition turn (i : string) (inv : Invocation) (v : VideoItem) : VideoItem :=
  settle i (outcome inv) (routes (messages inv) (to_processing i v)).

(** The object a promise settled with, resolved or rejected. *)
Definition reply_of (o : Settled Reply Reply) : Reply :=
  match o with
  | Resolved r => r
  | Rejected r => r
  end.

(** What a run over [todo] may do to a job [v] of the queue: the id and
    the path stay; a job that is not in [todo] keeps everything but its
    progress, and its progress too when no message of the run names its
    path. *)
Definition kept (api : nat -> Args -> Invocation) (cfg : Settings)
  (todo : list VideoItem) (v v' : VideoItem) : Prop :=
  id v' = id v /\ filepath v' = filepath v /\
  (~ In (id v) (map id todo) ->
   same_except_progress v v' /\
   ((forall k u d, In u todo -> In d (messages (api k (args_of cfg u))) ->
                   path d <> filepath v) ->
    v' = v)).


(** The turn of this invocation ends in [break]. *)
Definition breaks (inv : Invocation) : bool :=
  match outcome inv with
  | Resolved _ => false
  | Rejected e => includes "Python not found" (error_message e)
  end.

(** The jobs whose id is among [ids], marked completed: what a run in
    which every invocation resolves without a progress message does to
    a job. *)
Definition finished (ids : list string) (v : VideoItem) : VideoItem :=
  if existsb (String.eqb (id v)) ids
  then with_status_progress v completed (Num 100%Q) else v.

(** A machine where python answers the version check, and an encoder
    that reports progress, writes [complaint] to its standard error and
    exits with [code]. *)
Definition python_installed (complaint : string) (code : option Z) : Host :=
  mkHost (fun cmd argv =>
            match argv with
            | [_] => Launched [] (Some 0%Z)
            | _ => Launched [StdoutData ("PROGRESS: 40" ++ nl);
                             StderrData complaint]
                            code
            end)
         (fun _ => 0) true "processor.py".

(** A machine where only python3 is installed: python and py cannot be
    launched. *)
Definition only_python3 (order : nat -> nat) : Host :=
  mkHost (fun cmd argv =>
            if String.eqb cmd "python3" then Launched [] (Some 0%Z)
            else NotLaunched ("spawn " ++ cmd ++ " ENOENT") 2)
         order true "processor.py".

(** A machine without Python. *)
Definition no_python (order : nat -> nat) : Host :=
  mkHost (fun cmd _ => NotLaunched ("spawn " ++ cmd ++ " ENOENT") 2)
         order true "processor.py".

(** A queue of three files, and a machine on which the encoder fails for
    the second invocation only. *)
Definition three_jobs : App :=
  app_with [job "1" "/v/a.mp4" "one" pending (Num 0%Q);
            job "2" "/v/b.mp4" "" pending (Num 0%Q);
            job "3" "/v/c.mp4" "" pending (Num 0%Q)] "".

Definition second_fails (k : nat) : Host :=
  python_installed "bad codec" (if Nat.eqb k 1 then Some 1%Z else Some 0%Z).

(** A queue after a first run: one job failed, one is completed, and
    both were made from the same file. *)
Definition after_first_run : App :=
  app_with [with_error (job "1" "/v/a.mp4" "" pending (Num 40%Q)) "bad codec";
            job "2" "/v/a.mp4" "" completed (Num 100%Q)] "".

(** The same with two different files. *)
Definition after_first_run_two_files : App :=
  app_with [with_error (job "1" "/v/a.mp4" "" pending (Num 40%Q)) "bad codec";
            job "2" "/v/b.mp4" "" completed (Num 100%Q)] "".

(** * More of the program *)

(** ** The settings store and the dialogs of the main process *)

(** [electron-store] as the handlers use it: a map from keys to values,
    read by [get] and [has], written by [set]. The application stores
    strings only (directories and a font). *)
Definition Store : Type := string -> option string.

Definition store_get (s : Store) (key : string) : option string := s key.

Definition store_has (s : Store) (key : string) : bool :=
  match s key with Some _ => true | None => false end.

Definition store_set (key value : string) (s : Store) : Store :=
  fun k => if String.eqb k key then Some value else s k.

(** What [dialog.showOpenDialog] resolves with. *)
Record OpenDialogResult : Type := mkOpenDialogResult {
  canceled : bool;
  filePaths : list string
}.

(** A value that is a string, or [undefined] or [null], where it is
    tested: [None] when it is falsy. *)
Definition truthy (v : option string) : option string :=
  match v with
  | Some text => if isEmpty text then None else Some text
  | None => None
  end.

(** [v || d] *)
Definition or_default (v : option string) (d : string) : string :=
  match truthy v with
  | Some text => text
  | None => d
  end.

(** The ['select-folder'] handler; [dialog] is the user in front of the
    dialog opened at [defaultPath]. *)
Definition select_folder (dialog : option string -> OpenDialogResult)
  (s : Store) : option string * Store :=
  let lastExportDir := store_get s "lastExportDir" in
  let result := dialog (truthy lastExportDir) in
  if negb (canceled result) && Nat.ltb 0 (List.length (filePaths result)) then
    let selectedPath := nth 0 (filePaths result) "" in
    (Some selectedPath, store_set "lastExportDir" selectedPath s)
  else (None, s).

(** The ['select-videos'] handler; [dirname] is [path.dirname]. *)
Definition select_videos (dirname : string -> string)
  (dialog : option string -> OpenDialogResult) (s : Store)
  : list string * Store :=
  let lastImportDir := store_get s "lastImportDir" in
  let result := dialog (truthy lastImportDir) in
  if negb (canceled result) && Nat.ltb 0 (List.length (filePaths result)) then
    let firstFile := nth 0 (filePaths result) "" in
    let folderPath := dirname firstFile in
    (filePaths result, store_set "lastImportDir" folderPath s)
  else ([], s).

(** The ['get-setting'] and ['set-setting'] handlers. *)
Definition get_setting (key : string) (s : Store) : option string :=
  store_get s key.

Definition set_setting (key value : string) (s : Store) : bool * Store :=
  (true, store_set key value s).

(** The callback of [app.whenReady()], as far as the store goes;
    [default_dir] is [path.join(os.homedir(), 'TikTok_Output')]. *)
Definition whenReady (default_dir : string) (s : Store) : Store :=
  if negb (store_has s "defaultOutputDir")
  then store_set "defaultOutputDir" default_dir s
  else s.

(** ** Settings in the renderer *)

Definition setSettings (cfg : Settings) (st : App) : App :=
  mkApp (videos st) cfg (selectedVideo st) (isProcessing st)
        (bulkCaption st) (alerts st).

Definition setBulkCaption (text : string) (st : App) : App :=
  mkApp (videos st) (settings st) (selectedVideo st) (isProcessing st)
        text (alerts st).

(** [loadSettings] of the effect that runs when the component mounts. *)
Definition loadSettings (s : Store) (st : App) : App :=
  let outputDir := get_setting "outputDir" s in
  let selectedFont := get_setting "selectedFont" s in
  let defaultDir := get_setting "defaultOutputDir" s in
  setSettings
    (mkSettings (or_default outputDir (or_default defaultDir "TikTok_Output"))
                (or_default selectedFont "Impact")
                dark)
    st.

(** [handleChooseOutputDir], on the component and the store. *)
Definition handleChooseOutputDir (dialog : option string -> OpenDialogResult)
  (world : App * Store) : App * Store :=
  let (st, s) := world in
  let (dir, s1) := select_folder dialog s in
  match truthy dir with
  | Some d =>
      (setSettings (mkSettings d (selectedFont (settings st))
                               (theme (settings st))) st,
       snd (set_setting "outputDir" d s1))
  | None => (st, s1)
  end.

(** [onSave] of the settings panel, as [App] passes it. *)
Definition onSave (newSettings : Settings) (world : App * Store)
  : App * Store :=
  let (st, s) := world in
  (setSettings newSettings st,
   snd (set_setting "selectedFont" (selectedFont newSettings) s)).

Record FontOption : Type := mkFontOption {
  font_name : string;
  font_value : string;
  font_preview : string
}.

Definition AVAILABLE_FONTS : list FontOption :=
  [mkFontOption "Impact" "Impact" "font-impact";
   mkFontOption "Arial Black" "Arial-Black" "font-arial-black";
   mkFontOption "Montserrat" "Montserrat-Bold" "font-montserrat";
   mkFontOption "Bebas Neue" "Bebas-Neue" "font-bebas";
   mkFontOption "Oswald" "Oswald-Bold" "font-oswald"].

(** The [onChange] of a radio button of the panel:
    [{ ...localSettings, selectedFont }]. *)
Definition pickFont (value : string) (localSettings : Settings) : Settings :=
  mkSettings (outputDir localSettings) value (theme localSettings).

(** The panel from its opening with [settings] to Save Settings: the
    radio buttons chosen in between, and what [onSave] is called with. *)
Definition SettingsPanel_save (picks : list string) (settings0 : Settings)
  : Settings :=
  fold_left (fun localSettings value => pickFont value localSettings)
            picks settings0.

(** [handleAddVideos] together with the ['select-videos'] handler it
    awaits: the component and the store after a click on Add Videos. *)
Definition addVideos_clicked (dirname : string -> string)
  (dialog : option string -> OpenDialogResult) (draw : nat -> Draw)
  (world : App * Store) : App * Store :=
  let (st, s) := world in
  let (files, s1) := select_videos dirname dialog s in
  (handleAddVideos files draw st, s1).

(** ** The derived values of [App] *)

Definition pendingCount (vs : list VideoItem) : nat :=
  List.length (filter (fun v => Status_eqb (status v) pending) vs).

Definition completedCount (vs : list VideoItem) : nat :=
  List.length (filter (fun v => Status_eqb (status v) completed) vs).

Definition selectedVideoData (st : App) : option VideoItem :=
  match selectedVideo st with
  | Some sel => find (fun v => String.eqb (id v) sel) (videos st)
  | None => None
  end.

(** ** The other handlers of the queue *)

(** [handleClearAll]; [confirmed] is the answer to [confirm], which is
    asked only when the queue is not empty. *)
Definition handleClearAll (confirmed : bool) (st : App) : App :=
  if Nat.ltb 0 (List.length (videos st)) && confirmed
  then setSelectedVideo None (setVideos (fun _ => []) st)
  else st.

(** What the user can do while a run waits for an invocation. *)
Inductive UserAction : Type :=
| AddVideos (files : list string) (draw : nat -> Draw)
| RemoveVideo (i : string)
| SelectVideo (i : string)
| UpdateCaption (i c : string)
| TypeBulkCaption (text : string)
| ApplyBulkCaption
| ClearAll (confirmed : bool)
| ChangeSettings (cfg : Settings).

Definition act (u : UserAction) (st : App) : App :=
  match u with
  | AddVideos files draw => handleAddVideos files draw st
  | RemoveVideo i => handleRemoveVideo i st
  | SelectVideo i => setSelectedVideo (Some i) st
  | UpdateCaption i c => handleUpdateCaption i c st
  | TypeBulkCaption text => setBulkCaption text st
  | ApplyBulkCaption => handleApplyBulkCaption st
  | ClearAll confirmed => handleClearAll confirmed st
  | ChangeSettings cfg => setSettings cfg st
  end.

Definition acts (us : list UserAction) (st : App) : App :=
  fold_left (fun acc u => act u acc) us st.

(** ** A run with the user at work *)

(** The renderer while [processVideo] is awaited: the progress messages
    of the invocation arrive in order, and the user acts before the
    first, between two of them and after the last; [gaps] lists those
    actions, gap by gap. *)
Fixpoint interleave (msgs : list ProgressData) (gaps : list (list UserAction))
  (st : App) : App :=
  match gaps with
  | [] =>
      fold_left (fun acc data => setVideos (onProcessingProgress data) acc)
                msgs st
  | gap :: later =>
      let st1 := acts gap st in
      match msgs with
      | [] => interleave [] later st1
      | data :: rest =>
          interleave rest later (setVideos (onProcessingProgress data) st1)
      end
  end.

(** One turn of the loop with the user at work during the invocation. *)
Definition process_one_live (api : nat -> Args -> Invocation) (cfg : Settings)
  (gaps : list (list UserAction)) (video : VideoItem) (r : Run) : Run * bool :=
  let st1 := setVideos (mark_processing (id video)) (component r) in
  let args := args_of cfg video in
  let inv := api (List.length (calls r)) args in
  let st2 := interleave (messages inv) gaps st1 in
  let log := (calls r ++ [(args, inv)])%list in
  match outcome inv with
  | Resolved _ =>
      (mkRun (setVideos (mark_completed (id video)) st2) log, false)
  | Rejected e =>
      let errorMsg := error_message e in
      let st3 := setVideos (mark_error (id video) errorMsg) st2 in
      if includes "Python not found" errorMsg
      then (mkRun (alert (PythonNotFound errorMsg) st3) log, true)
      else (mkRun st3 log, false)
  end.

(** [schedule k] is what the user does during the [k]-th invocation. *)
Fixpoint process_loop_live (api : nat -> Args -> Invocation) (cfg : Settings)
  (schedule : nat -> list (list UserAction)) (todo : list VideoItem) (r : Run)
  : Run :=
  match todo with
  | [] => r
  | video :: rest =>
      let (r', stop) :=
        process_one_live api cfg (schedule (List.length (calls r))) video r in
      if stop then r' else process_loop_live api cfg schedule rest r'
  end.

Definition handleProcessAll_live (api : nat -> Args -> Invocation)
  (schedule : nat -> list (list UserAction)) (st : App) : Run :=
  let todo := eligible (videos st) in
  match todo with
  | [] => mkRun (alert NoVideosToProcess st) []
  | _ :: _ =>
      let r := process_loop_live api (settings st) schedule todo
                                 (mkRun (setIsProcessing true st) []) in
      mkRun (alert ProcessingComplete (setIsProcessing false (component r)))
            (calls r)
  end.

(** ** Vocabulary of the further statements *)

(** The chunks a child wrote to its standard output, in order. *)
Definition stdout_chunks (child : ChildRun) : list string :=
  flat_map (fun e => match e with
                     | StdoutData chunk => [chunk]
                     | StderrData _ => []
                     end) (events child).

(** A job with the fields a run writes put back to their first values:
    what is left is what the user owns. *)
Definition owned_by_user (v : VideoItem) : VideoItem :=
  mkVideoItem (id v) (filepath v) (filename v) (caption v) pending
              (duration v) (width v) (height v) (Num 0%Q) None.

(** The component as the user's own actions shape it. *)
Definition user_view (st : App)
  : list VideoItem * Settings * option string * string :=
  (map owned_by_user (videos st), settings st, selectedVideo st,
   bulkCaption st).

(** What the user did during the first [n] invocations of a run. *)
Definition performed (schedule : nat -> list (list UserAction)) (n : nat)
  : list UserAction :=
  flat_map (fun k => List.concat (schedule k)) (seq 0 n).

(** A status a turn ends a job in. *)
Definition settled (s : Status) : Prop := s = completed \/ s = error.

(** What a run does to the status of the jobs when no turn breaks. *)
Definition run_settles (todo : list VideoItem) (v v' : VideoItem) : Prop :=
  id v' = id v /\
  (settled (status v) -> settled (status v')) /\
  (In (id v) (map id todo) -> settled (status v')) /\
  (~ In (id v) (map id todo) -> status v' = status v).

(** The selection names a job of the queue, or nothing. *)
Definition selection_valid (st : App) : Prop :=
  match selectedVideo st with
  | Some sel => In sel (map id (videos st))
  | None => True
  end.

(** The cards offer to select the jobs of the queue only. *)
Definition offered (u : UserAction) (st : App) : Prop :=
  match u with
  | SelectVideo i => In i (map id (videos st))
  | _ => True
  end.

(** A character that can stand in a file extension. *)
Definition extension_char (c : ascii) : bool :=
  negb (Ascii.eqb c "/"%char || Ascii.eqb c "."%char).

(** * Properties *)

(** ** Strings *)

Section StringFacts.

Lemma append_empty_r (s : string) : s ++ "" = s.
Proof. induction s as [|c s IH]; simpl; [reflexivity | now rewrite IH]. Qed.

Lemma append_assoc (a b c : string) : (a ++ b) ++ c = a ++ (b ++ c).
Proof. induction a as [|x a IH]; simpl; [reflexivity | now rewrite IH]. Qed.

Lemma split_nl_nonempty (s : string) : split_nl s <> [].
Proof.
  induction s as [|c s IH]; simpl; [discriminate |].
  destruct (Ascii.eqb c LF); [discriminate |].
  destruct (split_nl s); discriminate.
Qed.

(** Splitting distributes over a line feed. *)
Lemma split_nl_app (a b : string) :
  split_nl (a ++ String LF b) = (split_nl a ++ split_nl b)%list.
Proof.
  induction a as [|c a IH]; simpl.
  - reflexivity.
  - destruct (Ascii.eqb c LF).
    + now rewrite IH.
    + rewrite IH. destruct (split_nl a) as [|piece pieces] eqn:E.
      * now destruct (split_nl_nonempty a).
      * reflexivity.
Qed.

Lemma ends_line_inv (c : string) :
  ends_line c = true -> c = "" \/ exists a, c = a ++ nl.
Proof.
  induction c as [|x c IH]; intros H; [now left | right].
  simpl in H. destruct c as [|y c'].
  - apply Ascii.eqb_eq in H. subst x. now exists "".
  - destruct (IH H) as [E | [a E]]; [discriminate |].
    exists (String x a). simpl. now rewrite <- E.
Qed.

Lemma rev_onto_append (s acc : string) : rev_onto s acc = rev s ++ acc.
Proof.
  unfold rev. revert acc.
  induction s as [|c s IH]; intros acc; simpl; [reflexivity |].
  rewrite IH, (IH (String c "")), append_assoc. reflexivity.
Qed.

Lemma all_chars_append f (a b : string) :
  all_chars f (a ++ b) = all_chars f a && all_chars f b.
Proof.
  induction a as [|c a IH]; simpl; [reflexivity |].
  now rewrite IH, andb_assoc.
Qed.

Lemma all_chars_rev f (s : string) : all_chars f (rev s) = all_chars f s.
Proof.
  induction s as [|c s IH]; [reflexivity |].
  unfold rev. simpl. rewrite rev_onto_append, all_chars_append, IH.
  simpl. rewrite andb_true_r. apply andb_comm.
Qed.

Lemma drop_while_empty f (s : string) :
  drop_while f s = "" <-> all_chars f s = true.
Proof.
  induction s as [|c s IH]; simpl; [tauto |].
  destruct (f c); simpl; [exact IH |].
  split; discriminate.
Qed.

(** What [drop_while] leaves keeps a character [f] rejects. *)
Lemma drop_while_all_chars f (s : string) :
  all_chars f (drop_while f s) = all_chars f s.
Proof.
  induction s as [|c s IH]; simpl; [reflexivity |].
  destruct (f c) eqn:E; simpl; [exact IH | now rewrite E].
Qed.

Lemma rev_empty (s : string) : rev s = "" -> s = "".
Proof.
  destruct s as [|c s]; [reflexivity |].
  unfold rev. simpl. rewrite rev_onto_append.
  destruct (rev s); discriminate.
Qed.

(** The test [s.trim() === ''] says that [s] is made of white space. *)
Lemma trim_empty (s : string) :
  trim s = "" <-> all_chars isWhiteSpace s = true.
Proof.
  unfold trim. split.
  - intros H. apply rev_empty in H. apply drop_while_empty in H.
    now rewrite all_chars_rev, drop_while_all_chars in H.
  - intros H.
    assert (E : drop_while isWhiteSpace s = "") by now apply drop_while_empty.
    rewrite E. reflexivity.
Qed.

Lemma startsWith_refl (p : string) : startsWith p p = true.
Proof.
  unfold startsWith.
  assert (E : strip_prefix p p = Some "").
  { induction p as [|c p IH]; cbn [strip_prefix]; [reflexivity |].
    now rewrite Ascii.eqb_refl. }
  now rewrite E.
Qed.

Lemma includes_suffix (a p : string) : includes p (a ++ p) = true.
Proof.
  induction a as [|c a IH]; cbn [append includes].
  - destruct p; cbn [includes]; rewrite startsWith_refl; reflexivity.
  - rewrite IH. apply orb_true_r.
Qed.

Lemma strip_prefix_append (p t : string) : strip_prefix p (p ++ t) = Some t.
Proof.
  induction p as [|c p IH]; cbn [append strip_prefix]; [now destruct t |].
  now rewrite Ascii.eqb_refl.
Qed.

Lemma strip_prefix_some (p s t : string) :
  strip_prefix p s = Some t -> s = p ++ t.
Proof.
  revert s. induction p as [|c p IH]; intros s H.
  - destruct s; cbn in H; now injection H as <-.
  - destruct s as [|x s]; cbn [strip_prefix] in H; [discriminate |].
    destruct (Ascii.eqb_spec c x) as [<- |]; [| discriminate].
    cbn [append]. f_equal. now apply IH.
Qed.

Lemma includes_unfold (p s : string) :
  includes p s =
  startsWith p s ||
  match s with EmptyString => false | String _ rest => includes p rest end.
Proof. now destruct s. Qed.

Lemma includes_middle (a p b : string) : includes p (a ++ p ++ b) = true.
Proof.
  induction a as [|c a IH]; cbn [append].
  - rewrite includes_unfold. unfold startsWith.
    now rewrite strip_prefix_append.
  - rewrite includes_unfold, IH. apply orb_true_r.
Qed.

End StringFacts.

(** ** The progress parser *)

Section ProgressParser.

Variable window : bool.
Variable input : string.

Lemma line_events_empty : line_events window input "" = [].
Proof. reflexivity. Qed.

Lemma line_events_at_most_one (line : string) :
  List.length (line_events window input line) <= 1.
Proof.
  unfold line_events.
  destruct (includes "PROGRESS:" line); [| simpl; lia].
  destruct (match_progress line); [| simpl; lia].
  destruct window; simpl; lia.
Qed.

Lemma match_progress_some (line capture : string) :
  match_progress line = Some capture ->
  exists pre tail,
    line = pre ++ "PROGRESS: " ++ tail /\
    capture = take_while isDigitOrDot tail /\ capture <> "".
Proof.
  induction line as [|x line IH]; [discriminate |].
  cbn [match_progress].
  destruct (strip_prefix "PROGRESS: " (String x line)) as [tail|] eqn:P.
  - destruct (take_while isDigitOrDot tail) as [|c cap] eqn:T; cbn [isEmpty].
    + intros H. destruct (IH H) as [pre [tl [E R]]].
      exists (String x pre), tl. split; [now rewrite E | exact R].
    + intros [= <-]. exists "", tail. apply strip_prefix_some in P.
      repeat split; [exact P | now symmetry | discriminate].
  - intros H. destruct (IH H) as [pre [tl [E R]]].
    exists (String x pre), tl. split; [now rewrite E | exact R].
Qed.

Lemma match_progress_marker (pre rest : string) (c : ascii) :
  isDigitOrDot c = true ->
  match_progress (pre ++ "PROGRESS: " ++ String c rest) <> None.
Proof.
  intros D.
  assert (P : strip_prefix "PROGRESS: " ("PROGRESS: " ++ String c rest) =
              Some (String c rest)) by apply strip_prefix_append.
  remember ("PROGRESS: " ++ String c rest) as s eqn:Es. clear Es.
  induction pre as [|x pre IH].
  - change ("" ++ s) with s. destruct s as [|y s]; [discriminate P |].
    cbn [match_progress]. rewrite P. cbn [take_while]. rewrite D.
    discriminate.
  - change (String x pre ++ s) with (String x (pre ++ s)).
    cbn [match_progress].
    destruct (strip_prefix "PROGRESS: " (String x (pre ++ s))) as [tail|];
      [| exact IH].
    destruct (isEmpty (take_while isDigitOrDot tail));
      [exact IH | discriminate].
Qed.

(** With the window in place, a line yields a message exactly when it
    carries the marker followed by a digit or a dot. *)
Lemma line_events_marker (line : string) :
  line_events true input line <> [] <-> has_marker line.
Proof.
  unfold line_events, has_marker. split.
  - destruct (includes "PROGRESS:" line); [| now intros []].
    destruct (match_progress line) as [capture|] eqn:M; [| now intros []].
    intros _. destruct (match_progress_some _ _ M) as [pre [tail [E [T N]]]].
    destruct tail as [|c rest]; [now rewrite T in N |].
    exists pre, c, rest. split; [exact E |].
    cbn [take_while] in T. destruct (isDigitOrDot c); [reflexivity |].
    now rewrite T in N.
  - intros [pre [c [rest [-> D]]]].
    change ("PROGRESS: " ++ String c rest)
      with ("PROGRESS:" ++ String " " (String c rest)) at 1.
    rewrite includes_middle.
    pose proof (match_progress_marker pre rest c D) as M.
    destruct (match_progress (pre ++ "PROGRESS: " ++ String c rest));
      [discriminate | contradiction].
Qed.

(** A chunk that ends a line can be delivered apart from what
    follows. *)
Lemma chunk_events_app (c d : string) :
  ends_line c = true ->
  chunk_events window input (c ++ d) =
  (chunk_events window input c ++ chunk_events window input d)%list.
Proof.
  intros H. unfold chunk_events.
  destruct (ends_line_inv c H) as [E | [a E]]; subst c.
  - reflexivity.
  - unfold nl. rewrite append_assoc. cbn [append].
    rewrite !split_nl_app, !flat_map_app. cbn [split_nl flat_map].
    rewrite line_events_empty. cbn [List.app]. now rewrite app_nil_r.
Qed.

Lemma stdout_events_aligned (chunks : list string) (final : string) :
  Forall (fun c => ends_line c = true) chunks ->
  stdout_events window input (chunks ++ [final]) =
  chunk_events window input (stream (chunks ++ [final])).
Proof.
  unfold stdout_events, stream.
  induction 1 as [|c chunks Hc _ IH].
  - simpl. now rewrite append_empty_r, app_nil_r.
  - cbn [List.app flat_map fold_right].
    rewrite IH. now rewrite chunk_events_app.
Qed.

End ProgressParser.

(** C1, as amended. When every chunk but the last is empty or ends with
    a line feed, the parser sends the same progress messages as for the
    text delivered in one chunk: at most one message per line, and one
    exactly for the lines that carry the marker followed by a digit or a
    dot. The handler splits each chunk on its own, so this is the case
    in which chunk boundaries do not matter. *)
Theorem progress_events_line_aligned :
  forall (window : bool) (input : string) (chunks : list string)
         (final : string),
    Forall (fun c => ends_line c = true) chunks ->
    stdout_events window input (chunks ++ [final]) =
      stdout_events window input [stream (chunks ++ [final])] /\
    stdout_events window input [stream (chunks ++ [final])] =
      flat_map (line_events window input)
               (split_nl (stream (chunks ++ [final]))) /\
    (forall line,
        List.length (line_events window input line) <= 1 /\
        (line_events true input line <> [] <-> has_marker line)).
Proof.
  intros window input chunks final H. split; [| split].
  - rewrite stdout_events_aligned by assumption.
    simpl. now rewrite app_nil_r.
  - simpl. now rewrite app_nil_r.
  - intros line. split;
      [apply line_events_at_most_one | apply line_events_marker].
Qed.

Lemma progress_events_line_aligned_witness :
  Forall (fun c => ends_line c = true) ["PROGRESS: 10" ++ nl; "noise" ++ nl] /\
  stdout_events true "in.mp4"
    (["PROGRESS: 10" ++ nl; "noise" ++ nl] ++ ["PROGRESS: 55.5" ++ nl]) =
  stdout_events true "in.mp4"
    [stream (["PROGRESS: 10" ++ nl; "noise" ++ nl] ++ ["PROGRESS: 55.5" ++ nl])].
Proof.
  assert (H : Forall (fun c => ends_line c = true)
                     ["PROGRESS: 10" ++ nl; "noise" ++ nl])
    by (repeat constructor).
  split; [exact H |].
  exact (proj1 (progress_events_line_aligned true "in.mp4" _
                  ("PROGRESS: 55.5" ++ nl) H)).
Defined.

(** C1 as stated fails: cut inside the marker of its first line, the
    example stream yields the single message 55.5, while the stream in
    one chunk yields 10 then 55.5. *)
Lemma progress_events_depend_on_chunking :
  stream example_split = example_stream /\
  stdout_events true "in.mp4" [example_stream] =
    [mkProgressData "in.mp4" (Num 10%Q);
     mkProgressData "in.mp4" (Num (Qmake 111 2))] /\
  stdout_events true "in.mp4" example_split =
    [mkProgressData "in.mp4" (Num (Qmake 111 2))] /\
  stdout_events true "in.mp4" example_split <>
    stdout_events true "in.mp4" [example_stream].
Proof.
  repeat split; try reflexivity.
  vm_compute. discriminate.
Qed.

(** ** The command resolver *)

Section Resolver.

Variable h : Host.

Lemma skipn_nth (l : list string) (i : nat) (d : string) :
  i < List.length l -> skipn i l = nth i l d :: skipn (S i) l.
Proof.
  revert i. induction l as [|x l IH]; intros [|i] H; simpl in *;
    try lia; [reflexivity |].
  apply IH. lia.
Qed.

Lemma code_is_zero_true (code : option Z) :
  code_is_zero code = true <-> code = Some 0%Z.
Proof.
  destruct code as [z|]; simpl; [| split; discriminate].
  rewrite Z.eqb_eq. split; [now intros -> | now intros [= ->]].
Qed.

(** *** The events to come *)

Lemma events_left_cons (p : Probe) (l : list Probe) :
  events_left (p :: l) = S (List.length (later_events p)) + events_left l.
Proof. reflexivity. Qed.

Lemma events_left_advance (p : Probe) :
  events_left (advance p) = List.length (later_events p).
Proof.
  unfold advance. destruct (later_events p) as [|e later]; [reflexivity |].
  rewrite events_left_cons. cbn. lia.
Qed.

Lemma events_left_app (a b : list Probe) :
  events_left (a ++ b) = events_left a + events_left b.
Proof.
  induction a as [|p a IH]; [reflexivity |].
  cbn [List.app]. rewrite !events_left_cons, IH. lia.
Qed.

(** Each choice delivers one event. *)
Lemma choose_events (k : nat) (first : Probe) (others : list Probe) :
  S (events_left (snd (choose k first others))) = events_left (first :: others).
Proof.
  revert k first. induction others as [|p rest IH]; intros k first.
  - cbn [choose snd]. rewrite events_left_advance, events_left_cons.
    change (events_left []) with 0. lia.
  - destruct k as [|k]; cbn [choose snd].
    + rewrite events_left_app, events_left_advance, !events_left_cons. lia.
    + rewrite !(events_left_cons first), <- (IH k p). lia.
Qed.

Lemma launch_events (cmd : string) : events_left [launch h cmd] <= 2.
Proof.
  unfold launch, events_left.
  destruct (spawn h cmd version_args); cbn; lia.
Qed.

(** What holds of the checks that run holds of the one chosen and of
    the ones left, when it is kept by the delivery of an event. *)
Lemma choose_keeps (P : Probe -> Prop) (k : nat) (first : Probe)
      (others : list Probe) :
  (forall p, P p -> Forall P (advance p)) ->
  P first -> Forall P others ->
  P (fst (choose k first others)) /\ Forall P (snd (choose k first others)).
Proof.
  intros Adv. revert k first.
  induction others as [|p rest IH]; intros k first Hf Ho.
  - cbn. split; [exact Hf | now apply Adv].
  - inversion Ho as [|x l Hp Hr]; subst.
    destruct k as [|k]; cbn [choose fst snd].
    + split; [exact Hf |]. apply Forall_app. split; [now apply Adv | exact Ho].
    + destruct (IH k p Hp Hr) as [A B]. split; [exact A | now constructor].
Qed.

(** The choice among the checks that run and the one just started. *)
Lemma next_keeps (P : Probe -> Prop) (k : nat) (running : list Probe)
      (newest : Probe) :
  (forall p, P p -> Forall P (advance p)) ->
  Forall P running -> P newest ->
  let now := match running with
             | [] => choose k newest []
             | first :: others => choose k first (others ++ [newest])
             end in
  P (fst now) /\ Forall P (snd now).
Proof.
  intros Adv F N. destruct running as [|first others]; cbv zeta.
  - apply choose_keeps; [exact Adv | exact N | constructor].
  - inversion F as [|x l Hf Ho]; subst.
    apply choose_keeps; [exact Adv | exact Hf |].
    apply Forall_app. split; [exact Ho | now constructor].
Qed.

(** *** After the promise is settled *)

(** With the fuel of [tryNext] every event is delivered. *)
Lemma settled_tryNext_quiet (cs : list string) (fuel : nat) :
  forall index running step,
    enough cs index running <= fuel ->
    snd (settled_tryNext fuel h cs index running step) = [].
Proof.
  induction fuel as [|fuel IH]; intros index running step E.
  - destruct running as [|p running]; [reflexivity |].
    unfold enough in E. rewrite events_left_cons in E. lia.
  - destruct running as [|first others]; [reflexivity |].
    cbn [settled_tryNext].
    pose proof (choose_events (schedule h step) first others) as C.
    unfold enough in *.
    destruct (handler (fst (choose (schedule h step) first others))).
    + apply IH. lia.
    + destruct (Nat.leb (List.length cs) (S index)) eqn:L.
      * apply IH. lia.
      * cbn [snd]. apply IH. apply Nat.leb_gt in L.
        rewrite events_left_app.
        pose proof (launch_events (nth (S index) cs "")). lia.
Qed.

(** The checks started after the settlement are those of the
    candidates that follow, in order. *)
Lemma settled_tryNext_checks (cs : list string) (fuel : nat) :
  forall index running step,
    exists m,
      m <= List.length cs - S index /\
      fst (settled_tryNext fuel h cs index running step) =
      map probe (firstn m (skipn (S index) cs)).
Proof.
  induction fuel as [|fuel IH]; intros index running step.
  - exists 0. split; [lia | now destruct running].
  - destruct running as [|first others]; [exists 0; split; [lia | reflexivity] |].
    cbn [settled_tryNext].
    destruct (handler (fst (choose (schedule h step) first others))).
    + apply IH.
    + destruct (Nat.leb (List.length cs) (S index)) eqn:L.
      * apply Nat.leb_le in L.
        match goal with
        | |- exists m, _ /\ fst (settled_tryNext _ _ _ _ ?r ?s) = _ =>
            destruct (IH (S index) r s) as [m [B E]]
        end.
        exists 0. split; [lia |]. rewrite E.
        replace m with 0 by lia. reflexivity.
      * apply Nat.leb_gt in L.
        match goal with
        | |- exists m, _ /\ fst (_ :: fst (settled_tryNext _ _ _ _ ?r ?s), _) = _ =>
            destruct (IH (S index) r s) as [m [B E]]
        end.
        exists (S m). split; [lia |]. cbn [fst]. rewrite E.
        rewrite (skipn_nth cs (S index) "" L). reflexivity.
Qed.

(** *** While the promise is pending *)

(** The body of [tryNext]. *)
Lemma tryNext_body (cs : list string) (index : nat) (running : list Probe)
      (step : nat) :
  tryNext h cs index running step =
  if Nat.leb (List.length cs) index then
    (Rejected python_not_found,
     ([], fst (settled_tryNext (enough cs index running) h cs index running
                               step)))
  else
    let cmd := nth index cs "" in
    let now :=
      match running with
      | [] => choose (schedule h step) (launch h cmd) []
      | first :: others =>
          choose (schedule h step) first (others ++ [launch h cmd])
      end in
    match handler (fst now) with
    | Some found =>
        (Resolved found,
         ([(cmd, version_args)],
          fst (settled_tryNext (enough cs index (snd now)) h cs index
                               (snd now) (S step))))
    | None =>
        let next := tryNext h cs (S index) (snd now) (S step) in
        (fst next, ((cmd, version_args) :: fst (snd next), snd (snd next)))
    end.
Proof.
  funelim (tryNext h cs index running step).
  - assert (E : Nat.leb (List.length commands0) index = true)
      by (apply Nat.leb_le; lia).
    now rewrite E.
  - assert (E : Nat.leb (List.length commands0) index = false)
      by (apply Nat.leb_gt; lia).
    now rewrite E.
Qed.

Lemma from_host_advance (cs : list string) (p : Probe) :
  from_host h cs p -> Forall (from_host h cs) (advance p).
Proof.
  intros [I [seen E]]. unfold advance.
  destruct (later_events p) as [|e later] eqn:L; constructor; [| constructor].
  split; [exact I |]. cbn [probe_cmd next_event later_events].
  exists (seen ++ [next_event p])%list. now rewrite <- app_assoc.
Qed.

Lemma from_host_launch (cs : list string) (cmd : string) :
  In cmd cs -> from_host h cs (launch h cmd).
Proof. intros I. split; [exact I |]. now exists []. Qed.

(** [resolve] is called with a candidate whose check exited with 0. *)
Lemma handler_found (cs : list string) (p : Probe) (c : string) :
  from_host h cs p -> handler p = Some c -> In c cs /\ probe_succeeds h c.
Proof.
  intros [I [seen E]] H. unfold handler in H.
  destruct (next_event p) as [m | code] eqn:N; [discriminate |].
  destruct (code_is_zero code) eqn:Z; [| discriminate]. injection H as <-.
  split; [exact I |]. unfold probe_succeeds.
  apply code_is_zero_true in Z. subst code.
  destruct (spawn h (probe_cmd p) version_args) as [out code | m errno];
    cbn in E.
  - destruct seen as [|x seen]; cbn in E.
    + injection E as E _. exists out. now rewrite E.
    + injection E as _ E. now destruct seen.
  - destruct seen as [|x seen]; cbn in E; [discriminate |].
    injection E as _ E. destruct seen as [|y seen]; cbn in E; [discriminate |].
    injection E as _ E. now destruct seen.
Qed.

(** Whatever the order of the events: a command the promise resolves
    with is a candidate whose check exited with 0, and the promise is
    rejected with the one message. *)
Lemma tryNext_sound (cs : list string) (index : nat) (running : list Probe)
      (step : nat) :
  Forall (from_host h cs) running ->
  match fst (tryNext h cs index running step) with
  | Resolved c => In c cs /\ probe_succeeds h c
  | Rejected m => m = python_not_found
  end.
Proof.
  funelim (tryNext h cs index running step); intros F.
  - reflexivity.
  - cbv zeta.
    destruct (next_keeps (from_host h commands0) (schedule h step) running
                (launch h (nth index commands0 ""))
                (from_host_advance commands0) F
                (from_host_launch commands0 _ (nth_In _ _ l0))) as [Kf Ks].
    cbv zeta in Kf, Ks.
    destruct (handler _) as [found|] eqn:Hd.
    + cbn [fst]. exact (handler_found _ _ _ Kf Hd).
    + cbn [fst]. apply H. exact Ks.
Qed.

Lemma hopeless_advance (p : Probe) : hopeless p -> Forall hopeless (advance p).
Proof.
  unfold hopeless, advance. intros H.
  destruct (later_events p) as [|e later]; constructor; [| constructor].
  now inversion H.
Qed.

Lemma hopeless_handler (p : Probe) : hopeless p -> handler p = None.
Proof.
  unfold hopeless, handler. intros H. inversion H as [|e l He _]; subst.
  destruct (next_event p) as [m | code]; [reflexivity |].
  destruct (code_is_zero code) eqn:Z; [| reflexivity].
  now apply code_is_zero_true in Z.
Qed.

Lemma launch_hopeless (cmd : string) :
  probe_fails h cmd -> hopeless (launch h cmd).
Proof.
  unfold probe_fails, hopeless, launch.
  destruct (spawn h cmd version_args) as [out code | m errno]; cbn.
  - intros H. now repeat constructor.
  - intros _. repeat constructor. discriminate.
Qed.

(** When every candidate fails, every order of the events leads to the
    rejection, after the checks of all the candidates were started. *)
Lemma tryNext_all_fail (cs : list string) (index : nat)
      (running : list Probe) (step : nat) :
  Forall (probe_fails h) cs -> Forall hopeless running ->
  tryNext h cs index running step =
  (Rejected python_not_found, (map probe (skipn index cs), [])).
Proof.
  funelim (tryNext h cs index running step); intros Fc Fr.
  - rewrite skipn_all2 by lia.
    destruct (settled_tryNext_checks commands0
                (enough commands0 index running) index running step)
      as [m [B E]].
    rewrite E. replace m with 0 by lia. reflexivity.
  - cbv zeta.
    assert (N : hopeless (launch h (nth index commands0 ""))).
    { apply launch_hopeless. rewrite Forall_forall in Fc. apply Fc.
      now apply nth_In. }
    destruct (next_keeps hopeless (schedule h step) running
                (launch h (nth index commands0 "")) hopeless_advance Fr N)
      as [Kf Ks].
    cbv zeta in Kf, Ks.
    rewrite (hopeless_handler _ Kf).
    rewrite (H Fc Ks). cbn [fst snd].
    now rewrite (skipn_nth commands0 index "" l0).
Qed.

(** When the candidates before the first usable one are launched and
    exit with another code, the resolver does what the specification
    says: it returns that candidate, having started the checks up to it
    and none after it. *)
Lemma tryNext_in_order (pre post : list string) (c : string) :
  forall (cs : list string) (index step : nat),
    skipn index cs = (pre ++ c :: post)%list ->
    Forall (probe_exits_badly h) pre -> probe_succeeds h c ->
    tryNext h cs index [] step =
    (Resolved c, (map probe (pre ++ [c]), [])).
Proof.
  induction pre as [|x pre IH]; intros cs index step E Fp [out Sc].
  - cbn [List.app] in E.
    assert (L : index < List.length cs).
    { destruct (le_lt_dec (List.length cs) index) as [G | G]; [| exact G].
      rewrite skipn_all2 in E by exact G. discriminate. }
    rewrite (skipn_nth cs index "" L) in E. injection E as Ec _.
    rewrite tryNext_body.
    replace (Nat.leb (List.length cs) index) with false
      by (symmetry; apply Nat.leb_gt; exact L).
    cbv zeta. rewrite Ec. unfold launch. rewrite Sc.
    cbn [endings fst snd choose advance later_events handler next_event
         probe_cmd code_is_zero Z.eqb].
    cbn [settled_tryNext]. destruct (enough cs index []); reflexivity.
  - cbn [List.app] in E.
    assert (L : index < List.length cs).
    { destruct (le_lt_dec (List.length cs) index) as [G | G]; [| exact G].
      rewrite skipn_all2 in E by exact G. discriminate. }
    rewrite (skipn_nth cs index "" L) in E. injection E as Ex E.
    inversion Fp as [|y l Hx Hpre]; subst y l.
    rewrite tryNext_body.
    replace (Nat.leb (List.length cs) index) with false
      by (symmetry; apply Nat.leb_gt; exact L).
    cbv zeta. rewrite Ex. unfold launch. unfold probe_exits_badly in Hx.
    destruct (spawn h x version_args) as [o code | m errno]; [| contradiction].
    cbn [endings fst snd choose advance later_events handler next_event
         probe_cmd].
    assert (Z : code_is_zero code = false).
    { destruct (code_is_zero code) eqn:Z; [| reflexivity].
      now apply code_is_zero_true in Z. }
    rewrite Z. rewrite (IH cs (S index) (S step) E Hpre (ex_intro _ out Sc)).
    reflexivity.
Qed.

Lemma first_usable_found (pre post : list string) (c : string) :
  Forall (probe_fails h) pre -> probe_succeeds h c ->
  first_usable h (pre ++ c :: post) = (Resolved c, map probe (pre ++ [c])).
Proof.
  intros Hpre [out Hc].
  induction Hpre as [|x pre Hx _ IH]; cbn [List.app first_usable map].
  - now rewrite Hc.
  - unfold probe_fails in Hx.
    destruct (spawn h x version_args) as [o code | m errno].
    + destruct code as [[| |]|]; try contradiction; now rewrite IH.
    + now rewrite IH.
Qed.

(** The checks [tryNext] starts are those of the candidates from
    [index] on, in order and without a gap, and a command it resolves
    with is among the candidates checked by then. *)
Lemma tryNext_checks (cs : list string) (index : nat) (running : list Probe)
      (step : nat) :
  Forall (fun p => In (probe_cmd p) (firstn index cs)) running ->
  exists n m,
    index + n + m <= Nat.max index (List.length cs) /\
    snd (tryNext h cs index running step) =
      (map probe (firstn n (skipn index cs)),
       map probe (firstn m (skipn (index + n) cs))) /\
    match fst (tryNext h cs index running step) with
    | Resolved c => 1 <= n /\ In c (firstn (index + n) cs)
    | Rejected _ => n = List.length cs - index /\ m = 0
    end.
Proof.
  funelim (tryNext h cs index running step); intros F.
  - destruct (settled_tryNext_checks commands0
                (enough commands0 index running) index running step)
      as [m [B E]].
    exists 0, 0. cbn [fst snd]. rewrite E. replace m with 0 by lia.
    repeat split; lia.
  - cbv zeta.
    assert (Grow : forall c, In c (firstn index commands0) ->
                             In c (firstn (S index) commands0)).
    { intros c Hc. rewrite <- (firstn_skipn index (firstn (S index) commands0)).
      apply in_or_app. left. rewrite firstn_firstn.
      now replace (Nat.min index (S index)) with index by lia. }
    assert (New : In (nth index commands0 "") (firstn (S index) commands0)).
    { rewrite <- (firstn_skipn index commands0) at 2.
      rewrite firstn_app, firstn_firstn, length_firstn.
      replace (Nat.min (S index) index) with index by lia.
      replace (S index - Nat.min index (List.length commands0)) with 1 by lia.
      rewrite (skipn_nth commands0 index "" l0). apply in_or_app. right.
      now left. }
    destruct (next_keeps
                (fun p => In (probe_cmd p) (firstn (S index) commands0))
                (schedule h step) running
                (launch h (nth index commands0 ""))) as [Kf Ks].
    { intros p Hp. unfold advance.
      destruct (later_events p); repeat constructor. exact Hp. }
    { revert F. apply Forall_impl. intros p. apply Grow. }
    { exact New. }
    cbv zeta in Kf, Ks.
    destruct (handler _) as [found|] eqn:Hd.
    + match goal with
      | |- context [settled_tryNext ?f h commands0 index ?r ?s] =>
          destruct (settled_tryNext_checks commands0 f index r s) as [m [B E]]
      end.
      exists 1, m. cbn [fst snd]. rewrite E.
      rewrite (skipn_nth commands0 index "" l0).
      replace (index + 1) with (S index) by lia.
      repeat split; [lia | lia |].
      unfold handler in Hd. destruct (next_event _); [discriminate |].
      destruct (code_is_zero code); [| discriminate].
      injection Hd as <-. exact Kf.
    + destruct (H Ks) as [n [m [B [E R]]]].
      exists (S n), m. cbn [fst snd]. rewrite E.
      rewrite (skipn_nth commands0 index "" l0).
      replace (index + S n) with (S index + n) by lia.
      repeat split; [lia |].
      destruct (fst (tryNext h commands0 (S index) _ (S step))).
      * split; [lia | apply R].
      * split; [lia | apply R].
Qed.

End Resolver.

(** The resolver of the program, from its first call. *)
Lemma findPythonCommand_checks (h : Host) :
  exists n m,
    n + m <= 3 /\
    snd (findPythonCommand h) =
      (map probe (firstn n commands),
       map probe (firstn m (skipn n commands))) /\
    match fst (findPythonCommand h) with
    | Resolved c => 1 <= n /\ In c (firstn n commands)
    | Rejected msg => n = 3 /\ m = 0 /\ msg = python_not_found
    end.
Proof.
  unfold findPythonCommand.
  destruct (tryNext_checks h commands 0 [] 0 (Forall_nil _))
    as [n [m [B [E R]]]].
  pose proof (tryNext_sound h commands 0 [] 0 (Forall_nil _)) as S.
  exists n, m. cbn [Nat.add skipn] in *. split; [exact B | split; [exact E |]].
  destruct (fst (tryNext h commands 0 [] 0)); [exact R |].
  destruct R as [-> ->]. now repeat split.
Qed.

(** C5, the divergence. On a machine where python3 alone is installed
    the specification returns python3 after the checks of python and
    python3. The code advances twice for python, once for its ['error']
    and once for the ['close'] that follows: the check of py is started
    in every order of the events, and when it fails before python3 has
    answered the promise is rejected although python3 works. When
    python3 answers first the promise resolves, and py is still
    checked. *)
Theorem failed_launch_advances_twice :
  probe_succeeds (only_python3 (events_in_order [0; 0; 1])) "python3" /\
  first_usable (only_python3 (events_in_order [0; 0; 1])) commands =
    (Resolved "python3", [probe "python"; probe "python3"]) /\
  findPythonCommand (only_python3 (events_in_order [0; 0; 1])) =
    (Rejected
       "Python not found. Please install Python and make sure it's in your PATH.",
     ([probe "python"; probe "python3"; probe "py"], [])) /\
  findPythonCommand (only_python3 (events_in_order [0; 1])) =
    (Resolved "python3", ([probe "python"; probe "python3"], [probe "py"])) /\
  (forall order : nat -> nat,
      In (probe "py")
         (fst (snd (findPythonCommand (only_python3 order))) ++
          snd (snd (findPythonCommand (only_python3 order))))%list).
Proof.
  split; [now exists [] |].
  split; [reflexivity |]. split; [reflexivity |]. split; [reflexivity |].
  intros order. unfold findPythonCommand, commands.
  rewrite tryNext_body. cbn -[tryNext].
  rewrite tryNext_body. cbn -[tryNext choose].
  destruct (order 1) as [|k1]; cbn -[tryNext].
  - rewrite tryNext_body. cbn -[tryNext choose].
    destruct (order 2) as [|k2]; cbn -[tryNext].
    + auto.
    + rewrite tryNext_body. cbn. auto.
  - destruct (order 2) as [|k2]; cbn; auto.
Qed.

(** ** The encoder invoker *)

Section Invoker.

Variable h : Host.
Variable args : Args.

Lemma stderr_fold (evs : list ProcEvent) (st : Capture) :
  stderr (fold_left (on_data h args) evs st) =
  fold_left (fun acc e => match e with
                          | StderrData chunk => acc ++ chunk
                          | StdoutData _ => acc
                          end) evs (stderr st).
Proof.
  revert st. induction evs as [|e evs IH]; intros st; [reflexivity |].
  cbn [fold_left]. rewrite IH. now destruct e.
Qed.

Lemma stderr_capture (child : ChildRun) :
  stderr (capture h args child) = stderr_text child.
Proof. unfold capture, stderr_text. now rewrite stderr_fold. Qed.

(** The messages sent carry the input path of the invocation. *)
Lemma sent_fold (evs : list ProcEvent) (st : Capture) :
  Forall (fun d => path d = inputPath args) (sent st) ->
  Forall (fun d => path d = inputPath args)
         (sent (fold_left (on_data h args) evs st)).
Proof.
  revert st. induction evs as [|e evs IH]; intros st H; [exact H |].
  cbn [fold_left]. apply IH. destruct e as [chunk | chunk]; [| exact H].
  cbn [on_data sent]. apply Forall_app. split; [exact H |].
  unfold chunk_events. apply Forall_forall. intros d Hd.
  apply in_flat_map in Hd. destruct Hd as [line [_ Hd]].
  unfold line_events in Hd.
  destruct (includes "PROGRESS:" line); [| contradiction].
  destruct (match_progress line); [| contradiction].
  destruct (mainWindow h); [| contradiction].
  destruct Hd as [<- | []]. reflexivity.
Qed.

(** The promise of the handler is settled by the first event that ends
    the encoder: the ['close'] that follows an ['error'] rejects a
    promise that is rejected already. *)
Lemma encoder_settlement (st : Capture) (child : ChildRun) :
  settle_once (on_end st (fst (endings child)),
               map (on_end st) (snd (endings child))) =
  match child with
  | Launched _ code => on_end st (ProcClose code)
  | NotLaunched message _ => Rejected (mkReply false (Some message))
  end.
Proof. now destruct child. Qed.

Lemma process_video_resolved (cmd : string) :
  fst (findPythonCommand h) = Resolved cmd ->
  process_video h args =
  mkInvocation
    (match spawn h cmd (encoder_argv h args) with
     | Launched _ code =>
         on_end (capture h args (spawn h cmd (encoder_argv h args)))
                (ProcClose code)
     | NotLaunched message _ => Rejected (mkReply false (Some message))
     end)
    (sent (capture h args (spawn h cmd (encoder_argv h args))))
    (fst (snd (findPythonCommand h)) ++
     (cmd, encoder_argv h args) :: snd (snd (findPythonCommand h))).
Proof.
  unfold process_video. destruct (findPythonCommand h) as [r checks].
  cbn [fst snd]. intros ->. now rewrite encoder_settlement.
Qed.

Lemma process_video_rejected (msg : string) :
  fst (findPythonCommand h) = Rejected msg ->
  process_video h args =
  mkInvocation (Resolved (mkReply false (Some python_not_found))) []
               (map probe commands).
Proof.
  intros E. unfold process_video.
  destruct (findPythonCommand_checks h) as [n [m [_ [C R]]]].
  destruct (findPythonCommand h) as [r checks]. cbn [fst snd] in *.
  subst r. destruct R as [-> [-> ->]]. subst checks.
  cbn [fst snd]. now rewrite app_nil_r.
Qed.

Lemma process_video_routed :
  Forall (fun d => path d = inputPath args) (messages (process_video h args)).
Proof.
  unfold process_video. destruct (findPythonCommand h) as [[cmd | msg] checks].
  - cbn [messages]. apply sent_fold. constructor.
  - constructor.
Qed.

End Invoker.

(** The decimal numeral of an exit code reads back as that code. *)
Lemma show_code_reads_back (z : Z) :
  option_map Z.of_int (NilZero.int_of_string (show_code (Some z))) = Some z.
Proof.
  unfold show_code. rewrite NilZero.isi.
  - cbn [option_map]. now rewrite DecimalZ.of_to.
  - destruct z; cbn; try discriminate.
    intros [= E]. now apply DecimalPos.Unsigned.to_uint_nonnil in E.
  - destruct z; cbn; try discriminate.
    intros [= E]. now apply DecimalPos.Unsigned.to_uint_nonnil in E.
Qed.

(** The outcome rule of the handler. *)
Lemma process_video_outcome :
  forall (h : Host) (args : Args) (code : option Z) (text : string),
    encoder_exits h args code text ->
    (code = Some 0%Z ->
     outcome (process_video h args) = Resolved (mkReply true None)) /\
    (code <> Some 0%Z -> text <> "" ->
     outcome (process_video h args) = Rejected (mkReply false (Some text))) /\
    (code <> Some 0%Z -> text = "" ->
     outcome (process_video h args) =
       Rejected (mkReply false
                   (Some ("Process exited with code " ++ show_code code)))).
Proof.
  intros h args code text [cmd [output [Hres [Hend Herr]]]].
  rewrite (process_video_resolved h args cmd Hres). cbn [outcome].
  rewrite <- stderr_capture with (h := h) (args := args) in Herr.
  set (child := spawn h cmd (encoder_argv h args)) in *.
  clearbody child. subst child. cbn [on_end]. rewrite Herr.
  split; [| split].
  - intros ->. reflexivity.
  - intros Hcode Htext.
    destruct (code_is_zero code) eqn:E.
    + now apply code_is_zero_true in E.
    + unfold or_else. destruct text; [contradiction | reflexivity].
  - intros Hcode ->.
    destruct (code_is_zero code) eqn:E; [| reflexivity].
    now apply code_is_zero_true in E.
Qed.

(** C3. When the command resolves and the encoder child exits with
    [code]: code 0 gives success whatever was written to standard
    error; any other code gives a failure whose message is the text of
    standard error when that text is not empty, and otherwise
    'Process exited with code ' followed by the exit code: its decimal
    numeral, which reads back as the code, or 'null' for a child ended
    by a signal. *)
Theorem encoder_outcome_rule :
  forall (h : Host) (args : Args) (code : option Z) (text : string),
    encoder_exits h args code text ->
    (code = Some 0%Z ->
     outcome (process_video h args) = Resolved (mkReply true None)) /\
    (code <> Some 0%Z -> text <> "" ->
     outcome (process_video h args) = Rejected (mkReply false (Some text))) /\
    (code <> Some 0%Z -> text = "" ->
     exists numeral,
       outcome (process_video h args) =
         Rejected (mkReply false
                     (Some ("Process exited with code " ++ numeral))) /\
       match code with
       | Some z =>
           option_map Z.of_int (NilZero.int_of_string numeral) = Some z
       | None => numeral = "null"
       end).
Proof.
  intros h args code text X.
  destruct (process_video_outcome h args code text X) as [A [B C]].
  split; [exact A | split; [exact B |]].
  intros N E. exists (show_code code). split; [now apply C |].
  destruct code as [z|]; [apply show_code_reads_back | reflexivity].
Qed.

Lemma encoder_outcome_rule_witness :
  (encoder_exits (python_installed "bad codec" (Some 1%Z))
                 (mkArgs "in.mp4" "out/in_tiktok.mp4" "" "Impact")
                 (Some 1%Z) "bad codec" /\
   outcome (process_video (python_installed "bad codec" (Some 1%Z))
                          (mkArgs "in.mp4" "out/in_tiktok.mp4" "" "Impact")) =
     Rejected (mkReply false (Some "bad codec"))) /\
  (encoder_exits (python_installed "" (Some 3%Z))
                 (mkArgs "in.mp4" "out/in_tiktok.mp4" "" "Impact")
                 (Some 3%Z) "" /\
   outcome (process_video (python_installed "" (Some 3%Z))
                          (mkArgs "in.mp4" "out/in_tiktok.mp4" "" "Impact")) =
     Rejected (mkReply false (Some "Process exited with code 3")) /\
   exists numeral,
     outcome (process_video (python_installed "" (Some 3%Z))
                            (mkArgs "in.mp4" "out/in_tiktok.mp4" "" "Impact")) =
       Rejected (mkReply false
                   (Some ("Process exited with code " ++ numeral))) /\
     option_map Z.of_int (NilZero.int_of_string numeral) = Some 3%Z) /\
  (encoder_exits (python_installed "warning" (Some 0%Z))
                 (mkArgs "in.mp4" "out/in_tiktok.mp4" "" "Impact")
                 (Some 0%Z) "warning" /\
   outcome (process_video (python_installed "warning" (Some 0%Z))
                          (mkArgs "in.mp4" "out/in_tiktok.mp4" "" "Impact")) =
     Resolved (mkReply true None)).
Proof.
  assert (E : forall text code,
             encoder_exits (python_installed text code)
               (mkArgs "in.mp4" "out/in_tiktok.mp4" "" "Impact") code text)
    by (intros text code; exists "python"; eexists; repeat split).
  split; [| split].
  - split; [apply E |].
    apply (encoder_outcome_rule _ _ _ _ (E "bad codec" (Some 1%Z)));
      discriminate.
  - split; [apply E | split; [reflexivity |]].
    apply (encoder_outcome_rule _ _ _ _ (E "" (Some 3%Z)));
      [discriminate | reflexivity].
  - split; [apply E |].
    now apply (encoder_outcome_rule _ _ _ _ (E "warning" (Some 0%Z))).
Defined.

(** ** The batch queue *)

Section QueueFacts.

Lemma Forall2_map_self {A : Type} (R : A -> A -> Prop) (f : A -> A)
      (l : list A) :
  (forall x, In x l -> R x (f x)) -> Forall2 R l (map f l).
Proof.
  induction l as [|x l IH]; intros H; cbn [map]; constructor.
  - apply H. now left.
  - apply IH. intros y Hy. apply H. now right.
Qed.

Lemma map_id_on {A : Type} (f : A -> A) (l : list A) :
  (forall x, In x l -> f x = x) -> map f l = l.
Proof.
  induction l as [|x l IH]; intros H; cbn [map]; [reflexivity |].
  rewrite H by now left. f_equal. apply IH. intros y Hy. apply H. now right.
Qed.

Lemma fill_spec (text : string) (v : VideoItem) :
  fill text v =
  if whitespace_only (caption v) then with_caption v text else v.
Proof.
  unfold fill, whitespace_only.
  destruct (all_chars isWhiteSpace (caption v)) eqn:E.
  - apply trim_empty in E. now rewrite E.
  - destruct (String.eqb_spec (trim (caption v)) "") as [T | T];
      [| reflexivity].
    apply trim_empty in T. congruence.
Qed.

Lemma removed_absent (i : string) (vs : list VideoItem) (v : VideoItem) :
  In v (removeVideo i vs) -> String.eqb (id v) i = false.
Proof.
  unfold removeVideo. intros H. apply filter_In in H.
  destruct H as [_ H]. now apply negb_true_iff in H.
Qed.

Lemma route_other (data : ProgressData) (v : VideoItem) :
  filepath v <> path data -> route data v = v.
Proof.
  unfold route. intros H.
  now destruct (String.eqb_spec (filepath v) (path data)).
Qed.

End QueueFacts.

(** C6. Filling the empty captions with the text [X] of the bulk field:
    when [X] is empty or made of white space the whole component is left
    as it is; otherwise the queue keeps its length and order, a job whose
    caption is empty or made of white space gets the caption [X] and
    keeps its other fields, and every other job is unchanged. *)
Theorem fill_empty_captions :
  forall st : App,
    (whitespace_only (bulkCaption st) = true ->
     handleApplyBulkCaption st = st) /\
    (whitespace_only (bulkCaption st) = false ->
     Forall2 (fun v v' =>
                (whitespace_only (caption v) = true ->
                 caption v' = bulkCaption st /\ same_except_caption v v') /\
                (whitespace_only (caption v) = false -> v' = v))
             (videos st) (videos (handleApplyBulkCaption st))).
Proof.
  intros st. unfold handleApplyBulkCaption, whitespace_only. split; intros H.
  - apply trim_empty in H. now rewrite H.
  - destruct (trim (bulkCaption st)) eqn:T.
    + assert (E : trim (bulkCaption st) = "") by exact T.
      apply trim_empty in E. congruence.
    + cbn [isEmpty alert setVideos videos]. unfold fillEmptyCaptions.
      apply Forall2_map_self. intros v _. rewrite fill_spec.
      unfold whitespace_only.
      destruct (all_chars isWhiteSpace (caption v)); split; intros E;
        try discriminate; try reflexivity.
      split; [reflexivity | repeat split].
Qed.

Lemma fill_empty_captions_witness :
  whitespace_only "Hello" = false /\
  videos (handleApplyBulkCaption
            (app_with [job "1" "/v/a.mp4" "" pending (Num 0%Q);
                       job "2" "/v/b.mp4" "   " error (Num 0%Q);
                       job "3" "/v/c.mp4" "mine" pending (Num 0%Q)]
                      "Hello")) =
    [job "1" "/v/a.mp4" "Hello" pending (Num 0%Q);
     job "2" "/v/b.mp4" "Hello" error (Num 0%Q);
     job "3" "/v/c.mp4" "mine" pending (Num 0%Q)] /\
  Forall2 (fun v v' =>
             (whitespace_only (caption v) = true ->
              caption v' = "Hello" /\ same_except_caption v v') /\
             (whitespace_only (caption v) = false -> v' = v))
          [job "1" "/v/a.mp4" "" pending (Num 0%Q);
           job "2" "/v/b.mp4" "   " error (Num 0%Q);
           job "3" "/v/c.mp4" "mine" pending (Num 0%Q)]
          (videos (handleApplyBulkCaption
                     (app_with [job "1" "/v/a.mp4" "" pending (Num 0%Q);
                                job "2" "/v/b.mp4" "   " error (Num 0%Q);
                                job "3" "/v/c.mp4" "mine" pending (Num 0%Q)]
                               "Hello"))).
Proof.
  split; [reflexivity | split; [reflexivity |]].
  exact (proj2 (fill_empty_captions
                  (app_with [job "1" "/v/a.mp4" "" pending (Num 0%Q);
                             job "2" "/v/b.mp4" "   " error (Num 0%Q);
                             job "3" "/v/c.mp4" "mine" pending (Num 0%Q)]
                            "Hello")) eq_refl).
Defined.

(** C10. A progress message is routed by file path: every job of the
    queue whose [filepath] is the path of the message gets the value of
    the message as its progress, whatever its status and however many
    jobs share the path, and keeps its other fields; the other jobs are
    unchanged. The ids play no part: renaming them commutes with the
    update. The messages of an invocation carry its input path. *)
Theorem progress_routed_by_path :
  forall (data : ProgressData) (vs : list VideoItem),
    Forall2 (fun v v' =>
               (filepath v = path data ->
                progress v' = progress_value data /\
                same_except_progress v v') /\
               (filepath v <> path data -> v' = v))
            vs (onProcessingProgress data vs) /\
    (forall rename : string -> string,
        onProcessingProgress data (map (with_id rename) vs) =
        map (with_id rename) (onProcessingProgress data vs)) /\
    (forall (h : Host) (args : Args),
        Forall (fun d => path d = inputPath args)
               (messages (process_video h args))).
Proof.
  intros data vs. split; [| split].
  - unfold onProcessingProgress. apply Forall2_map_self. intros v _.
    unfold route. destruct (String.eqb_spec (filepath v) (path data)).
    + split; [intros _ | contradiction].
      split; [reflexivity | repeat split].
    + split; [contradiction | reflexivity].
  - intros rename. unfold onProcessingProgress. rewrite !map_map.
    apply map_ext. intros v. unfold route, with_id. cbn [filepath].
    now destruct (String.eqb (filepath v) (path data)).
  - intros h args. apply process_video_routed.
Qed.

(** C9, as amended. After a job is removed, the status updates that
    name its id leave the queue as it is, and so does a progress message
    whose path no remaining job has; the updates are total functions, so
    nothing fails. *)
Theorem updates_after_removal :
  forall (i : string) (vs : list VideoItem),
    mark_processing i (removeVideo i vs) = removeVideo i vs /\
    mark_completed i (removeVideo i vs) = removeVideo i vs /\
    (forall msg, mark_error i msg (removeVideo i vs) = removeVideo i vs) /\
    (forall data,
        ~ In (path data) (map filepath (removeVideo i vs)) ->
        onProcessingProgress data (removeVideo i vs) = removeVideo i vs).
Proof.
  intros i vs.
  assert (A : forall v, In v (removeVideo i vs) -> String.eqb (id v) i = false)
    by (intros v; apply removed_absent).
  repeat split; try intros msg.
  - apply map_id_on. intros v Hv. unfold to_processing. now rewrite A.
  - apply map_id_on. intros v Hv. unfold to_completed. now rewrite A.
  - apply map_id_on. intros v Hv. unfold to_error. now rewrite A.
  - intros H. apply map_id_on. intros v Hv. apply route_other.
    intros E. apply H. rewrite <- E. now apply in_map.
Qed.

Lemma updates_after_removal_witness :
  ~ In "/v/a.mp4"
       (map filepath
            (removeVideo "1" [job "1" "/v/a.mp4" "" processing (Num 0%Q);
                              job "2" "/v/b.mp4" "" pending (Num 0%Q)])) /\
  onProcessingProgress
    (mkProgressData "/v/a.mp4" (Num 50%Q))
    (removeVideo "1" [job "1" "/v/a.mp4" "" processing (Num 0%Q);
                      job "2" "/v/b.mp4" "" pending (Num 0%Q)]) =
  removeVideo "1" [job "1" "/v/a.mp4" "" processing (Num 0%Q);
                   job "2" "/v/b.mp4" "" pending (Num 0%Q)].
Proof.
  assert (H : ~ In "/v/a.mp4"
                (map filepath
                   (removeVideo "1" [job "1" "/v/a.mp4" "" processing (Num 0%Q);
                                     job "2" "/v/b.mp4" "" pending (Num 0%Q)])))
    by (cbn; intros [E | []]; discriminate).
  split; [exact H |].
  exact (proj2 (proj2 (proj2 (updates_after_removal "1" _)))
               (mkProgressData "/v/a.mp4" (Num 50%Q)) H).
Defined.

(** C9 as stated fails for progress updates: the file was queued twice,
    the first of the two jobs is removed while it is processed, and the
    next progress message for its path sets the progress of the job that
    remains. *)
Lemma progress_after_removal_reaches_duplicate :
  removeVideo "1" [job "1" "/v/a.mp4" "" processing (Num 0%Q);
                   job "2" "/v/a.mp4" "" pending (Num 0%Q)] =
    [job "2" "/v/a.mp4" "" pending (Num 0%Q)] /\
  onProcessingProgress
    (mkProgressData "/v/a.mp4" (Num 50%Q))
    (removeVideo "1" [job "1" "/v/a.mp4" "" processing (Num 0%Q);
                      job "2" "/v/a.mp4" "" pending (Num 0%Q)]) =
    [job "2" "/v/a.mp4" "" pending (Num 50%Q)] /\
  onProcessingProgress
    (mkProgressData "/v/a.mp4" (Num 50%Q))
    (removeVideo "1" [job "1" "/v/a.mp4" "" processing (Num 0%Q);
                      job "2" "/v/a.mp4" "" pending (Num 0%Q)]) <>
  removeVideo "1" [job "1" "/v/a.mp4" "" processing (Num 0%Q);
                   job "2" "/v/a.mp4" "" pending (Num 0%Q)].
Proof.
  repeat split; try reflexivity.
  vm_compute. discriminate.
Qed.

(** ** Enqueue *)

Section Enqueue.

Lemma digits_of_uint (d : Decimal.uint) :
  all_chars isDigit (NilEmpty.string_of_uint d) = true.
Proof. induction d; cbn; auto. Qed.

Lemma show_N_digits (n : N) : all_chars isDigit (show_N n) = true.
Proof.
  unfold show_N, NilZero.string_of_uint.
  destruct (N.to_uint n); try apply digits_of_uint. reflexivity.
Qed.

Lemma to_uint_nonnil (n : N) : N.to_uint n <> Decimal.Nil.
Proof.
  destruct n as [|p]; [discriminate |].
  apply DecimalPos.Unsigned.to_uint_nonnil.
Qed.

Lemma show_N_inj (a b : N) : show_N a = show_N b -> a = b.
Proof.
  unfold show_N. intros H.
  apply DecimalN.Unsigned.to_uint_inj.
  assert (E : Some (N.to_uint a) = Some (N.to_uint b)).
  { rewrite <- (NilZero.usu _ (to_uint_nonnil a)),
            <- (NilZero.usu _ (to_uint_nonnil b)).
    now rewrite H. }
  now injection E.
Qed.

(** A run of digits ends where the dash is. *)
Lemma digits_dash_inj (a b r r' : string) :
  all_chars isDigit a = true -> all_chars isDigit b = true ->
  a ++ "-" ++ r = b ++ "-" ++ r' -> a = b /\ r = r'.
Proof.
  revert b. induction a as [|x a IH]; intros [|y b] Ha Hb E;
    cbn [append] in E; cbn [all_chars] in Ha, Hb.
  - injection E as ->. now split.
  - injection E as <- _. discriminate.
  - injection E as -> _. discriminate.
  - injection E as -> E.
    apply andb_true_iff in Ha, Hb.
    destruct (IH b (proj2 Ha) (proj2 Hb) E) as [-> ->]. now split.
Qed.

Lemma new_id_inj (d d' : Draw) : new_id d = new_id d' -> d = d'.
Proof.
  unfold new_id. intros H.
  apply digits_dash_inj in H; try apply show_N_digits.
  destruct H as [Hn Hr]. apply show_N_inj in Hn.
  destruct d, d'. cbn in *. now subst.
Qed.

Variable draw : nat -> Draw.

Lemma newVideos_from (files : list string) (k : nat) :
  let created :=
    map (fun kf => newVideo (draw (fst kf)) (snd kf))
        (combine (seq k (List.length files)) files) in
  map filepath created = files /\
  map id created = map new_id (map draw (seq k (List.length files))) /\
  Forall (fun v => status v = pending /\ caption v = "" /\
                   progress v = Num 0%Q) created.
Proof.
  revert k. induction files as [|f files IH]; intros k; cbn.
  - repeat split; constructor.
  - destruct (IH (S k)) as [P [I F]]. cbn in P, I, F.
    rewrite P, I. repeat split. constructor; [now repeat split | exact F].
Qed.

Lemma handleAddVideos_videos (files : list string) (st : App) :
  videos (handleAddVideos files draw st) =
  (videos st ++ newVideos draw files)%list.
Proof.
  destruct files; cbn [handleAddVideos]; [| reflexivity].
  cbn. now rewrite app_nil_r.
Qed.

End Enqueue.

(** C8, as amended. Through any sequence of uses of Add Videos the
    created jobs are appended in the order of the picked files,
    concatenated across the uses; each is created pending, with an empty
    caption and progress 0; and their ids are pairwise distinct whenever
    the draws of the clock and of the random generator that went into
    them are pairwise distinct. *)
Theorem enqueue_appends_in_order :
  forall (picks : list (list string * (nat -> Draw))) (st : App),
  exists created : list VideoItem,
    videos (enqueue_all picks st) = (videos st ++ created)%list /\
    map filepath created = List.concat (map fst picks) /\
    Forall (fun v => status v = pending /\ caption v = "" /\
                     progress v = Num 0%Q) created /\
    (NoDup (flat_map draws_of picks) -> NoDup (map id created)).
Proof.
  intros picks.
  assert (G : forall st, exists created,
    videos (enqueue_all picks st) = (videos st ++ created)%list /\
    map filepath created = List.concat (map fst picks) /\
    Forall (fun v => status v = pending /\ caption v = "" /\
                     progress v = Num 0%Q) created /\
    map id created = map new_id (flat_map draws_of picks)).
  { induction picks as [|[files draw] picks IH]; intros st.
    - exists []. cbn. rewrite app_nil_r. repeat split; constructor.
    - cbn [enqueue_all fold_left fst snd].
      destruct (IH (handleAddVideos files draw st)) as [more [V [P [F I]]]].
      destruct (newVideos_from draw files 0) as [P0 [I0 F0]].
      fold (newVideos draw files) in P0, I0, F0.
      exists (newVideos draw files ++ more)%list.
      unfold enqueue_all in V. rewrite V, handleAddVideos_videos.
      rewrite <- app_assoc. split; [reflexivity |].
      rewrite !map_app, P0, P, I0, I.
      cbn [map List.concat flat_map fst]. unfold draws_of at 2. cbn [fst snd].
      split; [reflexivity | split; [now apply Forall_app |]].
      now rewrite map_app. }
  intros st. destruct (G st) as [created [V [P [F I]]]].
  exists created. repeat split; try assumption.
  intros ND. rewrite I.
  apply Injective_map_NoDup; [| exact ND].
  intros d d'. apply new_id_inj.
Qed.

Lemma enqueue_appends_in_order_witness :
  NoDup (flat_map draws_of
           [(["/v/a.mp4"; "/v/b.mp4"],
             fun k => mkDraw 1700000000000 (if Nat.eqb k 0 then "0.25" else "0.75"));
            (["/v/a.mp4"],
             fun _ => mkDraw 1700000000321 "0.25")]) /\
  exists created : list VideoItem,
    videos (enqueue_all
              [(["/v/a.mp4"; "/v/b.mp4"],
                fun k => mkDraw 1700000000000 (if Nat.eqb k 0 then "0.25" else "0.75"));
               (["/v/a.mp4"],
                fun _ => mkDraw 1700000000321 "0.25")] empty_app) = created /\
    map filepath created = ["/v/a.mp4"; "/v/b.mp4"; "/v/a.mp4"] /\
    NoDup (map id created).
Proof.
  assert (ND : NoDup (flat_map draws_of
           [(["/v/a.mp4"; "/v/b.mp4"],
             fun k => mkDraw 1700000000000 (if Nat.eqb k 0 then "0.25" else "0.75"));
            (["/v/a.mp4"],
             fun _ => mkDraw 1700000000321 "0.25")])).
  { cbn. repeat constructor; cbn; intuition discriminate. }
  split; [exact ND |].
  destruct (enqueue_appends_in_order
              [(["/v/a.mp4"; "/v/b.mp4"],
                fun k => mkDraw 1700000000000 (if Nat.eqb k 0 then "0.25" else "0.75"));
               (["/v/a.mp4"],
                fun _ => mkDraw 1700000000321 "0.25")] empty_app)
    as [created [V [P [_ I]]]].
  exists created. split; [exact V | split; [exact P | exact (I ND)]].
Defined.

(** C8 as stated fails for the ids: nothing in Add Videos checks them,
    and two files picked together get the same id when the clock and the
    random generator return the same values for both. *)
Lemma enqueue_ids_can_collide :
  map id (videos (enqueue_all
                    [(["/v/a.mp4"; "/v/b.mp4"],
                      fun _ => mkDraw 1700000000000 "0.5")] empty_app)) =
    ["1700000000000-0.5"; "1700000000000-0.5"] /\
  ~ NoDup (map id (videos (enqueue_all
                             [(["/v/a.mp4"; "/v/b.mp4"],
                               fun _ => mkDraw 1700000000000 "0.5")]
                             empty_app))).
Proof.
  split; [reflexivity |].
  intros H. vm_compute in H. inversion H as [|x l N _]; subst.
  apply N. now left.
Qed.

(** ** The run *)

Section ListFacts.

Context {A : Type}.

Lemma Forall2_same (R : A -> A -> Prop) (l : list A) :
  (forall x, In x l -> R x x) -> Forall2 R l l.
Proof.
  intros H. rewrite <- (map_id l) at 2. now apply Forall2_map_self.
Qed.

Lemma Forall2_weaken_in (R S : A -> A -> Prop) (l l' : list A) :
  Forall2 R l l' ->
  (forall x y, In x l -> R x y -> S x y) ->
  Forall2 S l l'.
Proof.
  induction 1 as [|x y l l' HR _ IH]; intros H; constructor.
  - apply H; [now left | exact HR].
  - apply IH. intros a b Ha. apply H. now right.
Qed.

Lemma Forall2_after_map (R S : A -> A -> Prop) (f : A -> A)
      (l l' : list A) :
  Forall2 R (map f l) l' ->
  (forall x y, In x l -> R (f x) y -> S x y) ->
  Forall2 S l l'.
Proof.
  revert l'. induction l as [|x l IH]; intros l' HR H;
    inversion HR; subst; constructor.
  - apply H; [now left | assumption].
  - apply IH; [assumption |]. intros a b Ha. apply H. now right.
Qed.

Lemma Forall2_then_map (R S : A -> A -> Prop) (f : A -> A)
      (l l' : list A) :
  Forall2 R l l' ->
  (forall x y, In x l -> R x y -> S x (f y)) ->
  Forall2 S l (map f l').
Proof.
  induction 1 as [|x y l l' HR _ IH]; intros H; cbn [map]; constructor.
  - apply H; [now left | exact HR].
  - apply IH. intros a b Ha. apply H. now right.
Qed.

Lemma NoDup_map_eq {B : Type} (f : A -> B) (l : list A) (x y : A) :
  NoDup (map f l) -> In x l -> In y l -> f x = f y -> x = y.
Proof.
  induction l as [|a l IH]; intros ND Hx Hy E; [contradiction |].
  cbn [map] in ND. inversion ND as [|b m N ND']; subst.
  destruct Hx as [-> | Hx], Hy as [-> | Hy]; try reflexivity.
  - exfalso. apply N. rewrite E. now apply in_map.
  - exfalso. apply N. rewrite <- E. now apply in_map.
  - now apply IH.
Qed.

End ListFacts.

(** Selecting the eligible jobs keeps the ids distinct. *)
Lemma eligible_ids_distinct (vs : list VideoItem) :
  NoDup (map id vs) -> NoDup (map id (eligible vs)).
Proof.
  unfold eligible. induction vs as [|v vs IH]; intros ND; [constructor |].
  cbn [map] in ND. apply NoDup_cons_iff in ND. destruct ND as [Fresh ND].
  cbn [filter].
  destruct (Status_eqb (status v) pending || Status_eqb (status v) error);
    [| now apply IH].
  cbn [map]. apply NoDup_cons; [| now apply IH].
  intros H. apply Fresh. apply in_map_iff in H.
  destruct H as [u [E Hu]]. apply filter_In in Hu.
  rewrite <- E. apply in_map. tauto.
Qed.

Section ItemFacts.

Lemma routes_with_progress (msgs : list ProgressData) (v : VideoItem) :
  routes msgs v = v \/ exists p, routes msgs v = with_progress v p.
Proof.
  unfold routes. revert v.
  induction msgs as [|d msgs IH]; intros v; [now left |].
  cbn [fold_left].
  assert (R : route d v = v \/
              route d v = with_progress v (progress_value d))
    by (unfold route; destruct (String.eqb _ _); auto).
  destruct R as [R | R]; rewrite R; [apply IH | right].
  destruct (IH (with_progress v (progress_value d))) as [E | [p E]];
    [exists (progress_value d) | exists p]; rewrite E; reflexivity.
Qed.

Lemma same_except_progress_refl (v : VideoItem) : same_except_progress v v.
Proof. repeat split. Qed.

Lemma same_except_progress_trans (a b c : VideoItem) :
  same_except_progress a b -> same_except_progress b c ->
  same_except_progress a c.
Proof.
  unfold same_except_progress. intros H1 H2.
  repeat match goal with H : _ /\ _ |- _ => destruct H end.
  repeat split; congruence.
Qed.

Lemma routes_same (msgs : list ProgressData) (v : VideoItem) :
  same_except_progress v (routes msgs v).
Proof.
  destruct (routes_with_progress msgs v) as [E | [p E]]; rewrite E;
    repeat split.
Qed.

Lemma routes_none (msgs : list ProgressData) (v : VideoItem) :
  (forall d, In d msgs -> path d <> filepath v) -> routes msgs v = v.
Proof.
  unfold routes. induction msgs as [|d msgs IH]; intros H; [reflexivity |].
  cbn [fold_left]. rewrite route_other.
  - apply IH. intros x Hx. apply H. now right.
  - intros E. apply (H d); [now left | now symmetry].
Qed.

Variable i : string.
Variable inv : Invocation.

Lemma turn_other (v : VideoItem) :
  id v <> i -> turn i inv v = routes (messages inv) v.
Proof.
  intros H. apply String.eqb_neq in H.
  unfold turn, to_processing. rewrite H.
  assert (E : String.eqb (id (routes (messages inv) v)) i = false).
  { destruct (routes_same (messages inv) v) as [-> _]. exact H. }
  unfold settle, to_completed, to_error.
  destruct (outcome inv); now rewrite E.
Qed.

Lemma turn_identity (v : VideoItem) :
  id (turn i inv v) = id v /\ filepath (turn i inv v) = filepath v.
Proof.
  unfold turn, settle, to_completed, to_error, to_processing.
  set (u := if String.eqb (id v) i
            then with_status_progress v processing (Num 0%Q) else v).
  assert (U : id u = id v /\ filepath u = filepath v)
    by (subst u; destruct (String.eqb (id v) i); now split).
  destruct (routes_same (messages inv) u) as [I [P _]].
  destruct (outcome inv);
    destruct (String.eqb (id (routes (messages inv) u)) i); cbn;
    rewrite ?I, ?P; exact U.
Qed.

Lemma turn_target (v : VideoItem) :
  id v = i ->
  match outcome inv with
  | Resolved _ =>
      status (turn i inv v) = completed /\
      progress (turn i inv v) = Num 100%Q /\
      errorMsg (turn i inv v) = errorMsg v
  | Rejected e =>
      status (turn i inv v) = error /\
      errorMsg (turn i inv v) = Some (error_message e)
  end.
Proof.
  intros H. unfold turn, to_processing.
  assert (E : String.eqb (id v) i = true) by now apply String.eqb_eq.
  rewrite E.
  set (u := with_status_progress v processing (Num 0%Q)).
  destruct (routes_same (messages inv) u) as [I [_ [_ [_ [_ [_ [_ [_ M]]]]]]]].
  assert (E' : String.eqb (id (routes (messages inv) u)) i = true)
    by (rewrite I; exact E).
  unfold settle, to_completed, to_error.
  destruct (outcome inv); rewrite E'; cbn; repeat split. exact M.
Qed.

End ItemFacts.

Section LoopFacts.

Variable api : nat -> Args -> Invocation.
Variable cfg : Settings.

Lemma deliver_map (msgs : list ProgressData) (vs : list VideoItem) :
  deliver msgs vs = map (routes msgs) vs.
Proof.
  unfold deliver, routes. revert vs.
  induction msgs as [|d msgs IH]; intros vs; cbn [fold_left].
  - now rewrite map_id.
  - rewrite IH. unfold onProcessingProgress. now rewrite map_map.
Qed.

(** One turn, spelled out. *)
Lemma process_one_spec (video : VideoItem) (r : Run) :
  let inv := api (List.length (calls r)) (args_of cfg video) in
  process_one api cfg video r =
  (mkRun
     (mkApp (map (turn (id video) inv) (videos (component r)))
            (settings (component r)) (selectedVideo (component r))
            (isProcessing (component r)) (bulkCaption (component r))
            (alerts (component r) ++
             (if breaks inv
              then [PythonNotFound (error_message (reply_of (outcome inv)))]
              else [])))
     (calls r ++ [(args_of cfg video, inv)]),
   breaks inv).
Proof.
  intros inv. unfold process_one. fold inv.
  unfold breaks, turn, settle.
  destruct (outcome inv) as [x | e]; cbn [reply_of].
  - unfold setVideos, mark_completed, mark_processing. cbn.
    now rewrite deliver_map, !map_map, app_nil_r.
  - destruct (includes "Python not found" (error_message e));
      unfold alert, setVideos, mark_error, mark_processing; cbn;
      now rewrite deliver_map, !map_map, ?app_nil_r.
Qed.

Lemma turn_kept (video : VideoItem) (inv : Invocation) (v : VideoItem) :
  (exists k, inv = api k (args_of cfg video)) ->
  kept api cfg [video] v (turn (id video) inv v).
Proof.
  intros [k ->].
  destruct (turn_identity (id video) (api k (args_of cfg video)) v) as [I P].
  split; [exact I | split; [exact P |]].
  intros N. cbn [map In] in N.
  assert (D : id v <> id video) by (intros E; apply N; left; now symmetry).
  rewrite turn_other by exact D. split; [apply routes_same |].
  intros H. apply routes_none. intros d Hd.
  apply (H k video d); [now left | exact Hd].
Qed.

Lemma kept_compose (video : VideoItem) (rest : list VideoItem)
      (a b c : VideoItem) :
  kept api cfg [video] a b -> kept api cfg rest b c ->
  kept api cfg (video :: rest) a c.
Proof.
  intros [I1 [P1 K1]] [I2 [P2 K2]].
  split; [congruence | split; [congruence |]].
  intros N.
  assert (N1 : ~ In (id a) (map id [video]))
    by (intros [E | []]; apply N; now left).
  assert (N2 : ~ In (id b) (map id rest))
    by (rewrite I1; intros E; apply N; now right).
  destruct (K1 N1) as [S1 F1], (K2 N2) as [S2 F2].
  split; [now apply same_except_progress_trans with b |].
  intros H.
  assert (E1 : b = a).
  { apply F1. intros k u d [E | []] Hd.
    apply (H k u d); [now left | exact Hd]. }
  subst b. apply F2. intros k u d Hu Hd.
  apply (H k u d); [now right | exact Hd].
Qed.

Lemma kept_refl (todo : list VideoItem) (v : VideoItem) :
  kept api cfg todo v v.
Proof.
  split; [reflexivity | split; [reflexivity |]].
  intros _. split; [apply same_except_progress_refl | reflexivity].
Qed.

Lemma kept_extend (video : VideoItem) (rest : list VideoItem)
      (a b : VideoItem) :
  kept api cfg [video] a b -> kept api cfg (video :: rest) a b.
Proof.
  intros H. apply kept_compose with b; [exact H | apply kept_refl].
Qed.

(** The frame of the loop: what it leaves of the jobs it is not given. *)
Lemma process_loop_frame (todo : list VideoItem) (r : Run) :
  Forall2 (kept api cfg todo)
          (videos (component r))
          (videos (component (process_loop api cfg todo r))).
Proof.
  revert r. induction todo as [|video rest IH]; intros r.
  - cbn [process_loop]. apply Forall2_same. intros v _. apply kept_refl.
  - cbn [process_loop]. rewrite process_one_spec.
    set (inv := api (List.length (calls r)) (args_of cfg video)).
    destruct (breaks inv).
    + cbn [component videos]. apply Forall2_map_self. intros v _.
      apply kept_extend, turn_kept. now exists (List.length (calls r)).
    + apply Forall2_after_map
        with (R := kept api cfg rest) (f := turn (id video) inv).
      * match goal with
        | |- Forall2 _ _ (videos (component (process_loop _ _ _ ?r1))) =>
            exact (IH r1)
        end.
      * intros v v' _ H.
        apply kept_compose with (turn (id video) inv v); [| exact H].
        apply turn_kept. now exists (List.length (calls r)).
Qed.

(** The invocations of the loop are made for a prefix of the jobs it
    is given, in order, each through [api]. *)
Lemma process_loop_calls (todo : list VideoItem) (r : Run) :
  exists n,
    map fst (calls (process_loop api cfg todo r)) =
    (map fst (calls r) ++ map (args_of cfg) (firstn n todo))%list.
Proof.
  revert r. induction todo as [|video rest IH]; intros r.
  - exists 0. cbn. now rewrite app_nil_r.
  - cbn [process_loop]. rewrite process_one_spec.
    set (inv := api (List.length (calls r)) (args_of cfg video)).
    destruct (breaks inv).
    + exists 1. cbn [calls firstn map]. now rewrite map_app.
    + match goal with
      | |- exists n, map fst (calls (process_loop _ _ _ ?r1)) = _ =>
          destruct (IH r1) as [n E]
      end.
      exists (S n). rewrite E. cbn [calls firstn map].
      now rewrite map_app, <- app_assoc.
Qed.

Lemma process_loop_through_api (todo : list VideoItem) (r : Run) :
  Forall (fun c => exists k, snd c = api k (fst c)) (calls r) ->
  Forall (fun c => exists k, snd c = api k (fst c))
         (calls (process_loop api cfg todo r)).
Proof.
  revert r. induction todo as [|video rest IH]; intros r H; [exact H |].
  cbn [process_loop]. rewrite process_one_spec.
  set (inv := api (List.length (calls r)) (args_of cfg video)).
  assert (H' : Forall (fun c => exists k, snd c = api k (fst c))
                      (calls r ++ [(args_of cfg video, inv)])).
  { apply Forall_app. split; [exact H |]. constructor; [| constructor].
    now exists (List.length (calls r)). }
  destruct (breaks inv); [exact H' | now apply IH].
Qed.

(** While no turn breaks, the loop goes through its list. *)
Lemma process_loop_continue (pre todo : list VideoItem) (r : Run) :
  (forall k v, nth_error pre k = Some v ->
               breaks (api (List.length (calls r) + k) (args_of cfg v)) = false) ->
  process_loop api cfg (pre ++ todo) r =
    process_loop api cfg todo (process_loop api cfg pre r) /\
  List.length (calls (process_loop api cfg pre r)) =
    List.length (calls r) + List.length pre /\
  alerts (component (process_loop api cfg pre r)) = alerts (component r) /\
  map fst (calls (process_loop api cfg pre r)) =
    (map fst (calls r) ++ map (args_of cfg) pre)%list.
Proof.
  revert r. induction pre as [|video pre IH]; intros r H.
  - cbn. rewrite app_nil_r. repeat split. lia.
  - cbn [List.app process_loop]. rewrite process_one_spec.
    set (inv := api (List.length (calls r)) (args_of cfg video)).
    assert (B : breaks inv = false).
    { specialize (H 0 video eq_refl). now rewrite Nat.add_0_r in H. }
    rewrite B.
    match goal with
    | |- process_loop _ _ _ ?r1 = _ /\ _ => destruct (IH r1) as [E [L [A C]]]
    end.
    { intros k v Hk. cbn [calls]. rewrite length_app. cbn [List.length].
      replace (List.length (calls r) + 1 + k)
        with (List.length (calls r) + S k) by lia.
      now apply H. }
    rewrite E, L, A, C. cbn [calls component alerts map].
    rewrite length_app, app_nil_r, map_app, <- app_assoc. cbn [List.length].
    repeat split. lia.
Qed.

End LoopFacts.

Section WholeProgram.

Variable world : nat -> Host.

Lemma turn_status_other (i : string) (inv : Invocation) (v : VideoItem) :
  id v <> i ->
  status (turn i inv v) = status v /\ errorMsg (turn i inv v) = errorMsg v.
Proof.
  intros H. rewrite turn_other by exact H.
  destruct (routes_same (messages inv) v)
    as [_ [_ [_ [_ [S [_ [_ [_ M]]]]]]]].
  now split.
Qed.

Lemma electronAPI_routed (k : nat) (args : Args) (d : ProgressData) :
  In d (messages (electronAPI world k args)) -> path d = inputPath args.
Proof.
  intros H. unfold electronAPI in H. cbn [messages] in H.
  pose proof (process_video_routed (world k) args) as F.
  rewrite Forall_forall in F. now apply F.
Qed.

(** What the renderer reads from a rejected invocation is never the
    message of the handler: [error.error] is [undefined], so the job
    gets 'Processing failed' and the loop goes on. *)
Lemma electronAPI_rejection (k : nat) (args : Args) (e : Reply) :
  outcome (electronAPI world k args) = Rejected e ->
  error_message e = "Processing failed".
Proof.
  unfold electronAPI. cbn [outcome].
  destruct (outcome (process_video (world k) args)); cbn [invoke];
    [discriminate |].
  now intros [= <-].
Qed.

Lemma electronAPI_never_breaks (k : nat) (args : Args) :
  breaks (electronAPI world k args) = false.
Proof.
  unfold breaks.
  destruct (outcome (electronAPI world k args)) as [r | e] eqn:O;
    [reflexivity |].
  now rewrite (electronAPI_rejection k args e O).
Qed.

Lemma handleProcessAll_videos (api : nat -> Args -> Invocation) (st : App)
      (j : VideoItem) (rest : list VideoItem) :
  eligible (videos st) = j :: rest ->
  handleProcessAll api st =
  let r := process_loop api (settings st) (j :: rest)
                        (mkRun (setIsProcessing true st) []) in
  mkRun (alert ProcessingComplete (setIsProcessing false (component r)))
        (calls r).
Proof. intros E. unfold handleProcessAll. now rewrite E. Qed.

(** A run through the API of the program is never cut short: every
    eligible job is invoked, in order, and the not-found dialog is not
    shown. *)
Lemma run_goes_through (st : App) :
  map fst (calls (run world st)) =
    map (args_of (settings st)) (eligible (videos st)) /\
  alerts (component (run world st)) =
    (alerts st ++
     [match eligible (videos st) with
      | [] => NoVideosToProcess
      | _ :: _ => ProcessingComplete
      end])%list.
Proof.
  unfold run, handleProcessAll.
  destruct (eligible (videos st)) as [|j rest] eqn:El; [now split |].
  set (r0 := mkRun (setIsProcessing true st) []).
  destruct (process_loop_continue (electronAPI world) (settings st)
              (j :: rest) [] r0) as [_ [_ [A C]]].
  { intros k v _. apply electronAPI_never_breaks. }
  cbn [calls component alert setIsProcessing alerts]. now rewrite A, C.
Qed.

End WholeProgram.

(** C4, the divergence. Three jobs on a machine where python answers;
    the encoder of the second exits with code 1 having written
    "bad codec" to its standard error. The handler rejects with that
    text, but what [ipcRenderer.invoke] throws in the renderer is an
    [Error] without the [error] property: the second job ends in error
    with 'Processing failed'. The run does go on: all three jobs are
    invoked and the first and the third end completed. *)
Theorem encode_failure_message_is_lost :
  encoder_exits (second_fails 1)
                (args_of (settings three_jobs)
                         (job "2" "/v/b.mp4" "" pending (Num 0%Q)))
                (Some 1%Z) "bad codec" /\
  outcome (process_video (second_fails 1)
             (args_of (settings three_jobs)
                      (job "2" "/v/b.mp4" "" pending (Num 0%Q)))) =
    Rejected (mkReply false (Some "bad codec")) /\
  outcome (electronAPI second_fails 1
             (args_of (settings three_jobs)
                      (job "2" "/v/b.mp4" "" pending (Num 0%Q)))) =
    Rejected (mkReply false None) /\
  map (fun v => (status v, errorMsg v))
      (videos (component (run second_fails three_jobs))) =
    [(completed, None); (error, Some "Processing failed");
     (completed, None)] /\
  map fst (calls (run second_fails three_jobs)) =
    [mkArgs "/v/a.mp4" "out/a_tiktok.mp4" "one" "Impact";
     mkArgs "/v/b.mp4" "out/b_tiktok.mp4" "" "Impact";
     mkArgs "/v/c.mp4" "out/c_tiktok.mp4" "" "Impact"] /\
  alerts (component (run second_fails three_jobs)) = [ProcessingComplete].
Proof.
  split; [exists "python"; eexists; repeat split |].
  repeat split.
Qed.

Section RunFacts.

Variable world : nat -> Host.

Lemma NoDup_app_disjoint {A : Type} (l l' : list A) (x : A) :
  NoDup (l ++ l') -> In x l -> In x l' -> False.
Proof.
  induction l as [|a l IH]; intros ND Hx Hx'; [contradiction |].
  cbn [List.app] in ND. inversion ND as [|b m N ND']; subst.
  destruct Hx as [-> | Hx]; [| now apply IH].
  apply N. apply in_or_app. now right.
Qed.

(** When the command does not resolve, the handler returns: its promise
    resolves with the failure reply, which the renderer receives as it
    is. *)
Lemma no_resolution (h : Host) (args : Args) (msg : string) :
  fst (findPythonCommand h) = Rejected msg ->
  electronAPI (fun _ => h) 0 args =
  mkInvocation (Resolved (mkReply false (Some python_not_found))) []
               (map probe commands).
Proof.
  intros E. unfold electronAPI.
  now rewrite (process_video_rejected h args msg E).
Qed.

Lemma handleProcessAll_through_api (api : nat -> Args -> Invocation)
      (st : App) :
  Forall (fun c => exists k, snd c = api k (fst c))
         (calls (handleProcessAll api st)).
Proof.
  unfold handleProcessAll. destruct (eligible (videos st)) as [|j rest];
    [constructor |].
  cbn [calls]. apply process_loop_through_api. constructor.
Qed.

Lemma eligible_In (vs : list VideoItem) (v : VideoItem) :
  In v (eligible vs) <->
  In v vs /\ (status v = pending \/ status v = error).
Proof.
  unfold eligible. rewrite filter_In.
  destruct (status v); cbn; intuition discriminate.
Qed.

Lemma eligible_idempotent (vs : list VideoItem) :
  eligible (eligible vs) = eligible vs.
Proof.
  unfold eligible. induction vs as [|v vs IH]; [reflexivity |].
  cbn [filter].
  destruct (Status_eqb (status v) pending || Status_eqb (status v) error)
    eqn:E; [| exact IH].
  cbn [filter]. rewrite E. now f_equal.
Qed.

(** A job that is not eligible is not named by the ids of the eligible
    jobs, as long as the ids of the queue are distinct. *)
Lemma completed_not_eligible (vs : list VideoItem) (v : VideoItem) :
  NoDup (map id vs) -> In v vs -> status v = completed ->
  ~ In (id v) (map id (eligible vs)).
Proof.
  intros ND Hv S H. apply in_map_iff in H. destruct H as [u [E Hu]].
  apply eligible_In in Hu. destruct Hu as [Hu Su].
  assert (u = v) by (apply (NoDup_map_eq id vs); assumption).
  subst u. rewrite S in Su. destruct Su; discriminate.
Qed.

(** A turn whose invocation resolves without a progress message. *)
Lemma turn_finished (i : string) (inv : Invocation) (reply : Reply)
      (v : VideoItem) :
  outcome inv = Resolved reply -> messages inv = [] ->
  turn i inv v = finished [i] v.
Proof.
  intros O M. unfold turn, finished. rewrite O, M.
  cbn [routes fold_left settle existsb]. unfold to_completed, to_processing.
  rewrite orb_false_r.
  destruct (String.eqb (id v) i) eqn:E; [| now rewrite E].
  cbn [id with_status_progress]. now rewrite E.
Qed.

Lemma finished_again (i : string) (ids : list string) (v : VideoItem) :
  finished ids (finished [i] v) = finished (i :: ids) v.
Proof.
  unfold finished. cbn [existsb]. rewrite orb_false_r.
  destruct (String.eqb (id v) i) eqn:E; cbn [orb]; [| reflexivity].
  cbn [id with_status_progress]. now destruct (existsb _ ids).
Qed.

Lemma process_loop_finished (api : nat -> Args -> Invocation) (cfg : Settings)
      (todo : list VideoItem) (r : Run) :
  (forall k args, exists reply,
      outcome (api k args) = Resolved reply /\ messages (api k args) = []) ->
  videos (component (process_loop api cfg todo r)) =
  map (finished (map id todo)) (videos (component r)).
Proof.
  intros H. revert r. induction todo as [|video rest IH]; intros r.
  - cbn [process_loop map]. unfold finished. cbn [existsb].
    now rewrite map_id.
  - cbn [process_loop]. rewrite process_one_spec.
    destruct (H (List.length (calls r)) (args_of cfg video))
      as [reply [O M]].
    unfold breaks. rewrite O. rewrite IH. cbn [component videos map].
    rewrite map_map. apply map_ext. intros v.
    rewrite (turn_finished _ _ reply v O M). apply finished_again.
Qed.

Lemma finished_spec (ids : list string) (v : VideoItem) :
  (In (id v) ids ->
   status (finished ids v) = completed /\
   progress (finished ids v) = Num 100%Q /\
   errorMsg (finished ids v) = errorMsg v) /\
  (~ In (id v) ids -> finished ids v = v).
Proof.
  unfold finished.
  destruct (existsb (String.eqb (id v)) ids) eqn:E.
  - split; [now repeat split |]. intros N. exfalso. apply N.
    apply existsb_exists in E. destruct E as [x [Hx E]].
    apply String.eqb_eq in E. now rewrite E.
  - split; [| reflexivity]. intros I.
    assert (X : existsb (String.eqb (id v)) ids = true).
    { apply existsb_exists. exists (id v). split; [exact I |].
      apply String.eqb_refl. }
    now rewrite X in E.
Qed.

End RunFacts.

(** C2, the divergence. In a run in which the command never resolves,
    no encoder child is started: every child of the run is a version
    check. But the handler returns the failure reply
    [{success: false, error}] instead of rejecting, so every invocation
    resolves and the run goes through the whole queue: every job that
    an eligible job names by its id ends completed with progress 100,
    its error message left as it was, the other jobs are unchanged, and
    the run ends with its usual alert and without the not-found
    dialog. *)
Theorem resolver_failure_marks_jobs_completed :
  forall (world : nat -> Host) (st : App),
    (forall k, exists msg, fst (findPythonCommand (world k)) = Rejected msg) ->
    Forall (fun c => is_probe c = true) (children (run world st)) /\
    Forall (fun c =>
              outcome (snd c) =
              Resolved
                (mkReply false
                   (Some "Python not found. Please install Python and make sure it's in your PATH.")))
           (calls (run world st)) /\
    map fst (calls (run world st)) =
      map (args_of (settings st)) (eligible (videos st)) /\
    Forall2 (fun v v' =>
               (In (id v) (map id (eligible (videos st))) ->
                status v' = completed /\ progress v' = Num 100%Q /\
                errorMsg v' = errorMsg v) /\
               (~ In (id v) (map id (eligible (videos st))) -> v' = v))
            (videos st) (videos (component (run world st))) /\
    alerts (component (run world st)) =
      (alerts st ++
       [match eligible (videos st) with
        | [] => NoVideosToProcess
        | _ :: _ => ProcessingComplete
        end])%list.
Proof.
  intros world st H.
  assert (A : forall k args,
             electronAPI world k args =
             mkInvocation (Resolved (mkReply false (Some python_not_found)))
                          [] (map probe commands)).
  { intros k args. destruct (H k) as [msg E].
    exact (no_resolution (world k) args msg E). }
  assert (C : Forall (fun c => snd c =
                        mkInvocation
                          (Resolved (mkReply false (Some python_not_found)))
                          [] (map probe commands))
                     (calls (run world st))).
  { pose proof (handleProcessAll_through_api (electronAPI world) st) as T.
    revert T. apply Forall_impl. intros c [k ->]. apply A. }
  destruct (run_goes_through world st) as [Calls Alerts].
  split; [| split; [| split; [exact Calls | split; [| exact Alerts]]]].
  - apply Forall_forall. intros sp Hsp. unfold children in Hsp.
    apply in_flat_map in Hsp. destruct Hsp as [c [Hc Hsp]].
    rewrite Forall_forall in C. rewrite (C c Hc) in Hsp.
    cbn in Hsp. intuition (subst; reflexivity).
  - revert C. apply Forall_impl. now intros c ->.
  - assert (V : videos (component (run world st)) =
                map (finished (map id (eligible (videos st)))) (videos st)).
    { unfold run, handleProcessAll.
      destruct (eligible (videos st)) as [|j rest] eqn:El.
      - cbn [component alert videos map]. unfold finished. cbn [existsb].
        now rewrite map_id.
      - cbn [component alert setIsProcessing videos].
        rewrite process_loop_finished; [reflexivity |].
        intros k args. rewrite A. now eexists. }
    rewrite V. apply Forall2_map_self. intros v _. apply finished_spec.
Qed.

Lemma resolver_failure_marks_jobs_completed_witness :
  (forall k : nat,
      exists msg,
        fst (findPythonCommand (no_python (fun _ => 0))) = Rejected msg) /\
  children (run (fun _ => no_python (fun _ => 0)) three_jobs) =
    [probe "python"; probe "python3"; probe "py";
     probe "python"; probe "python3"; probe "py";
     probe "python"; probe "python3"; probe "py"] /\
  map (fun v => (status v, progress v, errorMsg v))
      (videos (component (run (fun _ => no_python (fun _ => 0)) three_jobs))) =
    [(completed, Num 100%Q, None); (completed, Num 100%Q, None);
     (completed, Num 100%Q, None)] /\
  alerts (component (run (fun _ => no_python (fun _ => 0)) three_jobs)) =
    [ProcessingComplete] /\
  Forall (fun c => is_probe c = true)
         (children (run (fun _ => no_python (fun _ => 0)) three_jobs)).
Proof.
  assert (P : forall k : nat,
             exists msg,
               fst (findPythonCommand (no_python (fun _ => 0))) = Rejected msg)
    by (intros k; eexists; reflexivity).
  split; [exact P |].
  split; [reflexivity | split; [reflexivity | split; [reflexivity |]]].
  exact (proj1 (resolver_failure_marks_jobs_completed
                  (fun _ => no_python (fun _ => 0)) three_jobs P)).
Defined.

(** C7, as amended. The eligible jobs are exactly the pending and the
    failed jobs of the queue, in queue order ([eligible] goes through
    concatenation), and selecting twice selects the same. A run invokes
    the eligible jobs and no other, in their order. When the ids of the
    queue are distinct, a completed job keeps all its fields but its
    progress through a run, and its progress too unless an eligible job
    was made from the same file. *)
Theorem eligible_for_processing :
  forall (world : nat -> Host) (st : App),
    (forall v, In v (eligible (videos st)) <->
               In v (videos st) /\ (status v = pending \/ status v = error)) /\
    (forall l1 l2, eligible (l1 ++ l2) = (eligible l1 ++ eligible l2)%list) /\
    eligible (eligible (videos st)) = eligible (videos st) /\
    map fst (calls (run world st)) =
      map (args_of (settings st)) (eligible (videos st)) /\
    (NoDup (map id (videos st)) ->
     Forall2 (fun v v' =>
                status v = completed ->
                same_except_progress v v' /\
                (~ In (filepath v) (map filepath (eligible (videos st))) ->
                 v' = v))
             (videos st) (videos (component (run world st)))).
Proof.
  intros world st.
  split; [intros v; apply eligible_In |].
  split; [intros l1 l2; apply filter_app |].
  split; [apply eligible_idempotent |].
  split; [apply run_goes_through |].
  intros ND. unfold run, handleProcessAll.
  destruct (eligible (videos st)) as [|j rest] eqn:El.
  - cbn [component alert videos]. apply Forall2_same.
    intros v _ _. split; [apply same_except_progress_refl | reflexivity].
  - set (r0 := mkRun (setIsProcessing true st) []).
    cbn [calls component alert setIsProcessing videos].
    pose proof (process_loop_frame (electronAPI world) (settings st)
                                   (j :: rest) r0) as F.
    cbn [r0 component setIsProcessing videos] in F.
    apply (Forall2_weaken_in _ _ _ _ F). intros v v' Hv [_ [_ K]] S.
    assert (N : ~ In (id v) (map id (j :: rest))).
    { rewrite <- El. now apply completed_not_eligible. }
    destruct (K N) as [Same Keep]. split; [exact Same |].
    intros P. apply Keep. intros k u d Hu Hd E.
    apply electronAPI_routed in Hd. apply P.
    rewrite <- E, Hd. cbn [args_of inputPath]. now apply in_map.
Qed.

Lemma eligible_for_processing_witness :
  NoDup (map id (videos after_first_run_two_files)) /\
  eligible (videos after_first_run_two_files) =
    [with_error (job "1" "/v/a.mp4" "" pending (Num 40%Q)) "bad codec"] /\
  map inputPath
      (map fst (calls (run (fun _ => python_installed "" (Some 0%Z))
                           after_first_run_two_files))) = ["/v/a.mp4"] /\
  Forall2 (fun v v' =>
             status v = completed ->
             same_except_progress v v' /\
             (~ In (filepath v)
                   (map filepath (eligible (videos after_first_run_two_files))) ->
              v' = v))
          (videos after_first_run_two_files)
          (videos (component (run (fun _ => python_installed "" (Some 0%Z))
                                  after_first_run_two_files))).
Proof.
  assert (ND : NoDup (map id (videos after_first_run_two_files)))
    by (cbn; repeat constructor; cbn; intuition discriminate).
  split; [exact ND | split; [reflexivity | split; [reflexivity |]]].
  exact (proj2 (proj2 (proj2 (proj2
           (eligible_for_processing (fun _ => python_installed "" (Some 0%Z))
                                    after_first_run_two_files)))) ND).
Defined.

(** C7 as stated fails in its last part. The failed job and the
    completed job were made from the same file; on a machine where
    python answers, the second run reprocesses the failed job only, and
    the progress message of its encoder sets the progress of the
    completed job from 100 to 40. *)
Lemma rerun_touches_completed_duplicate :
  NoDup (map id (videos after_first_run)) /\
  map status (videos after_first_run) = [error; completed] /\
  fst (findPythonCommand (python_installed "" (Some 0%Z))) =
    Resolved "python" /\
  map (fun c => inputPath (fst c))
      (calls (run (fun _ => python_installed "" (Some 0%Z)) after_first_run)) =
    ["/v/a.mp4"] /\
  nth_error (videos after_first_run) 1 =
    Some (job "2" "/v/a.mp4" "" completed (Num 100%Q)) /\
  nth_error (videos (component (run (fun _ => python_installed "" (Some 0%Z))
                                    after_first_run))) 1 =
    Some (job "2" "/v/a.mp4" "" completed (Num 40%Q)) /\
  nth_error (videos (component (run (fun _ => python_installed "" (Some 0%Z))
                                    after_first_run))) 1 <>
  nth_error (videos after_first_run) 1.
Proof.
  split; [cbn; repeat constructor; cbn; intuition discriminate |].
  repeat split; try reflexivity.
  vm_compute. discriminate.
Qed.

(** * Further properties *)

(** ** The resolver and the invoker *)

Lemma exits_badly_fails (h : Host) (cmd : string) :
  probe_exits_badly h cmd -> probe_fails h cmd.
Proof.
  unfold probe_exits_badly, probe_fails.
  now destruct (spawn h cmd version_args).
Qed.

(** X1. What the resolver returns, whatever the order in which the
    events of the version checks arrive: a command it resolves with is
    one of the candidates and its check exited with 0, and a rejection
    carries the install message. When every candidate fails, it is
    rejected after the checks of all of them. When the candidates
    before the first usable one are launched and exit with another
    code, it does what the specification says: it returns that
    candidate after the checks up to it and starts no later one. *)
Theorem command_resolver_sound :
  forall (h : Host) (cs : list string),
    match fst (tryNext h cs 0 [] 0) with
    | Resolved c => In c cs /\ probe_succeeds h c
    | Rejected msg =>
        msg =
        "Python not found. Please install Python and make sure it's in your PATH."
    end /\
    (Forall (probe_fails h) cs ->
     tryNext h cs 0 [] 0 = (Rejected python_not_found, (map probe cs, []))) /\
    (forall pre c post,
        cs = (pre ++ c :: post)%list ->
        Forall (probe_exits_badly h) pre -> probe_succeeds h c ->
        tryNext h cs 0 [] 0 = (Resolved c, (map probe (pre ++ [c]), [])) /\
        first_usable h cs = (Resolved c, map probe (pre ++ [c]))) /\
    findPythonCommand h = tryNext h ["python"; "python3"; "py"] 0 [] 0.
Proof.
  intros h cs. split; [| split; [| split]].
  - pose proof (tryNext_sound h cs 0 [] 0 (Forall_nil _)) as S.
    destruct (fst (tryNext h cs 0 [] 0)); exact S.
  - intros F. now rewrite (tryNext_all_fail h cs 0 [] 0 F (Forall_nil _)).
  - intros pre c post E Fp Sc. split.
    + apply (tryNext_in_order h pre post c cs 0 0); [exact E | exact Fp | exact Sc].
    + rewrite E. apply first_usable_found; [| exact Sc].
      revert Fp. apply Forall_impl. apply exits_badly_fails.
  - reflexivity.
Qed.

Lemma command_resolver_sound_witness :
  (Forall (probe_fails (no_python (events_in_order [0; 1; 1])))
          ["python"; "python3"; "py"] /\
   findPythonCommand (no_python (events_in_order [0; 1; 1])) =
     (Rejected python_not_found,
      ([probe "python"; probe "python3"; probe "py"], []))) /\
  (Forall (probe_exits_badly
             (mkHost (fun cmd _ =>
                        if String.eqb cmd "python"
                        then Launched [] (Some 9009%Z)
                        else Launched [] (Some 0%Z))
                     (fun _ => 0) true "processor.py"))
          ["python"] /\
   findPythonCommand
     (mkHost (fun cmd _ =>
                if String.eqb cmd "python"
                then Launched [] (Some 9009%Z)
                else Launched [] (Some 0%Z))
             (fun _ => 0) true "processor.py") =
     (Resolved "python3", ([probe "python"; probe "python3"], []))).
Proof.
  assert (F : Forall (probe_fails (no_python (events_in_order [0; 1; 1])))
                     ["python"; "python3"; "py"])
    by (repeat constructor).
  assert (B : Forall (probe_exits_badly
                        (mkHost (fun cmd _ =>
                                   if String.eqb cmd "python"
                                   then Launched [] (Some 9009%Z)
                                   else Launched [] (Some 0%Z))
                                (fun _ => 0) true "processor.py"))
                     ["python"])
    by (repeat constructor; cbn; discriminate).
  split.
  - split; [exact F |].
    destruct (command_resolver_sound (no_python (events_in_order [0; 1; 1]))
                                     ["python"; "python3"; "py"])
      as [_ [none [_ same]]].
    rewrite same. exact (none F).
  - split; [exact B |].
    destruct (command_resolver_sound
                (mkHost (fun cmd _ =>
                           if String.eqb cmd "python"
                           then Launched [] (Some 9009%Z)
                           else Launched [] (Some 0%Z))
                        (fun _ => 0) true "processor.py")
                ["python"; "python3"; "py"])
      as [_ [_ [found same]]].
    rewrite same.
    exact (proj1 (found ["python"] "python3" ["py"] eq_refl B
                        (ex_intro _ [] eq_refl))).
Defined.

Lemma process_video_children (h : Host) (args : Args) :
  exists n m,
    1 <= n /\ n + m <= 3 /\
    match fst (findPythonCommand h) with
    | Resolved cmd =>
        In cmd (firstn n commands) /\
        spawned (process_video h args) =
          (map probe (firstn n commands) ++
           (cmd, encoder_argv h args) ::
           map probe (firstn m (skipn n commands)))%list
    | Rejected _ => spawned (process_video h args) = map probe commands
    end.
Proof.
  destruct (findPythonCommand_checks h) as [n [m [B [C R]]]].
  destruct (fst (findPythonCommand h)) as [cmd | msg] eqn:E.
  - exists n, m. destruct R as [N I].
    split; [exact N | split; [exact B | split; [exact I |]]].
    rewrite (process_video_resolved h args cmd E). cbn [spawned].
    now rewrite C.
  - exists 3, 0. split; [lia | split; [lia |]].
    now rewrite (process_video_rejected h args msg E).
Qed.

(** X2. Every invocation of a run starts from the version check of
    python again. The checks it starts are those of the first
    candidates, in list order and without a gap; when the command
    resolves, one encoder is started with it, after the check of that
    command, and the checks of later candidates may still follow the
    encoder. So every child of a run is started with one of the three
    candidate commands. *)
Theorem run_children :
  forall (world : nat -> Host) (st : App),
    Forall (fun call =>
              exists k n m,
                1 <= n /\ n + m <= 3 /\
                match fst (findPythonCommand (world k)) with
                | Resolved cmd =>
                    In cmd (firstn n commands) /\
                    spawned (snd call) =
                      (map probe (firstn n commands) ++
                       (cmd, encoder_argv (world k) (fst call)) ::
                       map probe (firstn m (skipn n commands)))%list
                | Rejected _ => spawned (snd call) = map probe commands
                end)
           (calls (run world st)) /\
    Forall (fun c => In (fst c) commands) (children (run world st)).
Proof.
  intros world st.
  assert (C : Forall (fun call =>
              exists k n m,
                1 <= n /\ n + m <= 3 /\
                match fst (findPythonCommand (world k)) with
                | Resolved cmd =>
                    In cmd (firstn n commands) /\
                    spawned (snd call) =
                      (map probe (firstn n commands) ++
                       (cmd, encoder_argv (world k) (fst call)) ::
                       map probe (firstn m (skipn n commands)))%list
                | Rejected _ => spawned (snd call) = map probe commands
                end)
           (calls (run world st))).
  { pose proof (handleProcessAll_through_api (electronAPI world) st) as T.
    revert T. apply Forall_impl. intros call [k ->]. exists k.
    unfold electronAPI. cbn [spawned]. apply process_video_children. }
  split; [exact C |].
  assert (Sub : forall n (l : list string) x, In x (firstn n l) -> In x l).
  { intros n l x Hx. rewrite <- (firstn_skipn n l).
    apply in_or_app. now left. }
  assert (Sk : forall n (l : list string) x, In x (skipn n l) -> In x l).
  { intros n l x Hx. rewrite <- (firstn_skipn n l).
    apply in_or_app. now right. }
  apply Forall_forall. intros c Hc. unfold children in Hc.
  apply in_flat_map in Hc. destruct Hc as [call [Hcall Hc]].
  rewrite Forall_forall in C. destruct (C call Hcall) as [k [n [m [_ [_ S]]]]].
  destruct (fst (findPythonCommand (world k))) as [cmd | msg].
  - destruct S as [I E]. rewrite E in Hc.
    apply in_app_or in Hc. destruct Hc as [Hc | [<- | Hc]].
    + apply in_map_iff in Hc. destruct Hc as [x [<- Hx]].
      cbn [probe fst]. now apply Sub in Hx.
    + cbn [fst]. now apply Sub in I.
    + apply in_map_iff in Hc. destruct Hc as [x [<- Hx]].
      cbn [probe fst]. apply Sub in Hx. now apply Sk in Hx.
  - rewrite S in Hc. apply in_map_iff in Hc.
    now destruct Hc as [x [<- Hx]].
Qed.

Lemma stdout_events_app (w : bool) (p : string) (a b : list string) :
  stdout_events w p (a ++ b) = (stdout_events w p a ++ stdout_events w p b)%list.
Proof. apply flat_map_app. Qed.

Lemma sent_stdout (h : Host) (args : Args) (evs : list ProcEvent)
      (st : Capture) :
  sent (fold_left (on_data h args) evs st) =
  (sent st ++
   stdout_events (mainWindow h) (inputPath args)
     (flat_map (fun e => match e with
                         | StdoutData chunk => [chunk]
                         | StderrData _ => []
                         end) evs))%list.
Proof.
  revert st. induction evs as [|e evs IH]; intros st.
  - cbn. now rewrite app_nil_r.
  - cbn [fold_left flat_map]. rewrite IH, stdout_events_app.
    destruct e as [chunk | chunk]; cbn [on_data sent].
    + rewrite <- app_assoc. do 2 f_equal. cbn. now rewrite app_nil_r.
    + reflexivity.
Qed.

Lemma stdout_events_no_window (p : string) (chunks : list string) :
  stdout_events false p chunks = [].
Proof.
  unfold stdout_events. induction chunks as [|c chunks IH]; [reflexivity |].
  cbn [flat_map]. rewrite IH, app_nil_r. unfold chunk_events.
  induction (split_nl c) as [|line lines IHl]; [reflexivity |].
  cbn [flat_map]. rewrite IHl, app_nil_r. unfold line_events.
  destruct (includes "PROGRESS:" line); [| reflexivity].
  now destruct (match_progress line).
Qed.

(** X3. The progress messages of an invocation are those of the chunks
    of the encoder's standard output, in the order of the chunks: what
    the child writes to its standard error, and where it falls between
    the chunks, changes nothing. No message is sent when the command
    does not resolve, nor when the window is gone. *)
Theorem messages_come_from_stdout :
  forall (h : Host) (args : Args),
    match fst (findPythonCommand h) with
    | Resolved cmd =>
        messages (process_video h args) =
        stdout_events (mainWindow h) (inputPath args)
                      (stdout_chunks (spawn h cmd (encoder_argv h args)))
    | Rejected _ => messages (process_video h args) = []
    end /\
    (mainWindow h = false -> messages (process_video h args) = []).
Proof.
  intros h args.
  assert (M : match fst (findPythonCommand h) with
              | Resolved cmd =>
                  messages (process_video h args) =
                  stdout_events (mainWindow h) (inputPath args)
                    (stdout_chunks (spawn h cmd (encoder_argv h args)))
              | Rejected _ => messages (process_video h args) = []
              end).
  { unfold process_video. destruct (findPythonCommand h) as [[cmd | msg] log];
      cbn [fst messages]; [| reflexivity].
    unfold capture, stdout_chunks. now rewrite sent_stdout. }
  split; [exact M |].
  intros W. destruct (fst (findPythonCommand h)); [| exact M].
  rewrite M, W. apply stdout_events_no_window.
Qed.

Lemma messages_come_from_stdout_witness :
  mainWindow (mkHost (spawn (python_installed "" (Some 0%Z))) (fun _ => 0)
                     false "processor.py") =
    false /\
  messages (process_video
              (mkHost (spawn (python_installed "" (Some 0%Z))) (fun _ => 0)
                      false "processor.py")
              (mkArgs "in.mp4" "out/in_tiktok.mp4" "" "Impact")) = [].
Proof.
  split; [reflexivity |].
  exact (proj2 (messages_come_from_stdout
                  (mkHost (spawn (python_installed "" (Some 0%Z))) (fun _ => 0)
                          false "processor.py")
                  (mkArgs "in.mp4" "out/in_tiktok.mp4" "" "Impact")) eq_refl).
Defined.

(** ** One turn of the loop *)

Lemma process_one_videos (api : nat -> Args -> Invocation) (cfg : Settings)
      (video : VideoItem) (r : Run) :
  videos (component (fst (process_one api cfg video r))) =
  map (turn (id video) (api (List.length (calls r)) (args_of cfg video)))
      (videos (component r)) /\
  snd (process_one api cfg video r) =
  breaks (api (List.length (calls r)) (args_of cfg video)).
Proof. rewrite process_one_spec. now split. Qed.

(** X4. When the resolved command cannot be started, the encoder child
    delivers ['error'] and then ['close']: the handler rejects with the
    text of the launch error, and the ['close'] that follows changes
    nothing. Whatever the handler rejects with, the renderer does not
    receive it: the job of the turn ends in error with
    'Processing failed', the other jobs keep their status and message,
    and the loop goes on. *)
Theorem encoder_launch_failure :
  forall (world : nat -> Host) (cfg : Settings) (video : VideoItem) (r : Run),
    (forall cmd message errno,
        fst (findPythonCommand (world (List.length (calls r)))) =
          Resolved cmd ->
        spawn (world (List.length (calls r))) cmd
              (encoder_argv (world (List.length (calls r)))
                            (args_of cfg video)) =
          NotLaunched message errno ->
        outcome (process_video (world (List.length (calls r)))
                               (args_of cfg video)) =
          Rejected (mkReply false (Some message))) /\
    (forall e,
        outcome (process_video (world (List.length (calls r)))
                               (args_of cfg video)) = Rejected e ->
        Forall2 (fun v v' =>
                   (id v = id video ->
                    status v' = error /\
                    errorMsg v' = Some "Processing failed") /\
                   (id v <> id video ->
                    status v' = status v /\ errorMsg v' = errorMsg v))
                (videos (component r))
                (videos (component (fst (process_one (electronAPI world) cfg
                                                     video r)))) /\
        snd (process_one (electronAPI world) cfg video r) = false).
Proof.
  intros world cfg video r. split.
  - intros cmd message errno Hres Hend.
    rewrite (process_video_resolved _ _ cmd Hres). cbn [outcome].
    now rewrite Hend.
  - intros e He.
    assert (O : outcome (electronAPI world (List.length (calls r))
                                     (args_of cfg video)) =
                Rejected (mkReply false None)).
    { unfold electronAPI. cbn [outcome]. now rewrite He. }
    destruct (process_one_videos (electronAPI world) cfg video r) as [V B].
    split.
    + rewrite V. apply Forall2_map_self. intros v _. split.
      * intros E.
        pose proof (turn_target (id video)
                      (electronAPI world (List.length (calls r))
                                   (args_of cfg video)) v E) as T.
        now rewrite O in T.
      * intros N. now apply turn_status_other.
    + rewrite B. apply electronAPI_never_breaks.
Qed.

(** A machine on which python resolves and the encoder cannot start. *)
Lemma encoder_launch_failure_witness :
  fst (findPythonCommand
         (mkHost (fun cmd argv =>
                    match argv with
                    | [_] => Launched [] (Some 0%Z)
                    | _ => NotLaunched "spawn python EACCES" 13
                    end) (fun _ => 0) true "processor.py")) =
    Resolved "python" /\
  outcome (process_video
             (mkHost (fun cmd argv =>
                        match argv with
                        | [_] => Launched [] (Some 0%Z)
                        | _ => NotLaunched "spawn python EACCES" 13
                        end) (fun _ => 0) true "processor.py")
             (args_of (settings three_jobs)
                      (job "1" "/v/a.mp4" "one" pending (Num 0%Q)))) =
    Rejected (mkReply false (Some "spawn python EACCES")) /\
  map (fun v => (status v, errorMsg v))
      (videos (component (fst (process_one
         (electronAPI
            (fun _ => mkHost (fun cmd argv =>
                    match argv with
                    | [_] => Launched [] (Some 0%Z)
                    | _ => NotLaunched "spawn python EACCES" 13
                    end) (fun _ => 0) true "processor.py"))
         (settings three_jobs)
         (job "1" "/v/a.mp4" "one" pending (Num 0%Q))
         (mkRun three_jobs []))))) =
    [(error, Some "Processing failed"); (pending, None); (pending, None)] /\
  snd (process_one
         (electronAPI
            (fun _ => mkHost (fun cmd argv =>
                    match argv with
                    | [_] => Launched [] (Some 0%Z)
                    | _ => NotLaunched "spawn python EACCES" 13
                    end) (fun _ => 0) true "processor.py"))
         (settings three_jobs)
         (job "1" "/v/a.mp4" "one" pending (Num 0%Q))
         (mkRun three_jobs [])) = false.
Proof.
  split; [reflexivity | split; [| split; [reflexivity |]]].
  - exact (proj1
      (encoder_launch_failure
         (fun _ => mkHost (fun cmd argv =>
                      match argv with
                      | [_] => Launched [] (Some 0%Z)
                      | _ => NotLaunched "spawn python EACCES" 13
                      end) (fun _ => 0) true "processor.py")
         (settings three_jobs)
         (job "1" "/v/a.mp4" "one" pending (Num 0%Q))
         (mkRun three_jobs []))
      "python" "spawn python EACCES" 13%positive eq_refl eq_refl).
  - exact (proj2 (proj2
      (encoder_launch_failure
         (fun _ => mkHost (fun cmd argv =>
                      match argv with
                      | [_] => Launched [] (Some 0%Z)
                      | _ => NotLaunched "spawn python EACCES" 13
                      end) (fun _ => 0) true "processor.py")
         (settings three_jobs)
         (job "1" "/v/a.mp4" "one" pending (Num 0%Q))
         (mkRun three_jobs []))
      (mkReply false (Some "spawn python EACCES")) eq_refl)).
Defined.

(** X5. A turn whose invocation succeeds marks the jobs that carry the
    turn's id completed with progress 100 and leaves their error
    message as it was: a job that failed before and succeeds on retry
    keeps the message of the earlier failure. The other jobs keep
    their status and message, and the loop goes on. *)
Theorem retry_success_keeps_error_message :
  forall (api : nat -> Args -> Invocation) (cfg : Settings)
         (video : VideoItem) (r : Run) (reply : Reply),
    outcome (api (List.length (calls r)) (args_of cfg video)) =
      Resolved reply ->
    Forall2 (fun v v' =>
               (id v = id video ->
                status v' = completed /\ progress v' = Num 100%Q /\
                errorMsg v' = errorMsg v) /\
               (id v <> id video ->
                status v' = status v /\ errorMsg v' = errorMsg v))
            (videos (component r))
            (videos (component (fst (process_one api cfg video r)))) /\
    snd (process_one api cfg video r) = false.
Proof.
  intros api cfg video r reply O.
  destruct (process_one_videos api cfg video r) as [V B]. split.
  - rewrite V. apply Forall2_map_self. intros v _. split.
    + intros E.
      pose proof (turn_target (id video)
                    (api (List.length (calls r)) (args_of cfg video)) v E) as T.
      now rewrite O in T.
    + intros N. now apply turn_status_other.
  - rewrite B. unfold breaks. now rewrite O.
Qed.

Lemma retry_success_keeps_error_message_witness :
  outcome (electronAPI (fun _ => python_installed "" (Some 0%Z)) 0
             (args_of (settings after_first_run_two_files)
                (with_error (job "1" "/v/a.mp4" "" pending (Num 40%Q))
                            "bad codec"))) =
    Resolved (mkReply true None) /\
  map (fun v => (status v, progress v, errorMsg v))
      (videos (component (fst (process_one
         (electronAPI (fun _ => python_installed "" (Some 0%Z)))
         (settings after_first_run_two_files)
         (with_error (job "1" "/v/a.mp4" "" pending (Num 40%Q)) "bad codec")
         (mkRun after_first_run_two_files []))))) =
    [(completed, Num 100%Q, Some "bad codec");
     (completed, Num 100%Q, None)] /\
  snd (process_one
         (electronAPI (fun _ => python_installed "" (Some 0%Z)))
         (settings after_first_run_two_files)
         (with_error (job "1" "/v/a.mp4" "" pending (Num 40%Q)) "bad codec")
         (mkRun after_first_run_two_files [])) = false.
Proof.
  split; [reflexivity | split; [reflexivity |]].
  exact (proj2 (retry_success_keeps_error_message
                  (electronAPI (fun _ => python_installed "" (Some 0%Z)))
                  (settings after_first_run_two_files)
                  (with_error (job "1" "/v/a.mp4" "" pending (Num 40%Q))
                              "bad codec")
                  (mkRun after_first_run_two_files [])
                  (mkReply true None) eq_refl)).
Defined.

(** ** Printed numbers through the parser *)

Lemma digitsValue_acc (d : Decimal.uint) (acc : positive) :
  digitsValue (N.pos acc) (NilEmpty.string_of_uint d) =
  N.pos (Pos.of_uint_acc d acc).
Proof.
  revert acc. induction d; intros acc; cbn [NilEmpty.string_of_uint
    digitsValue Pos.of_uint_acc]; try reflexivity;
    rewrite <- IHd; f_equal;
    match goal with
    | |- context [digitValue ?c] =>
        let v := eval vm_compute in (digitValue c) in
        change (digitValue c) with v
    end; lia.
Qed.

Lemma digitsValue_of_uint (d : Decimal.uint) :
  digitsValue 0 (NilEmpty.string_of_uint d) = Pos.of_uint d.
Proof.
  induction d; cbn [NilEmpty.string_of_uint digitsValue Pos.of_uint];
    try reflexivity; try exact IHd; apply digitsValue_acc.
Qed.

Lemma show_N_value (n : N) : digitsValue 0 (show_N n) = n.
Proof.
  unfold show_N, NilZero.string_of_uint.
  pose proof (to_uint_nonnil n) as NN.
  destruct (N.to_uint n) eqn:E; try contradiction;
    rewrite <- E, digitsValue_of_uint;
    apply DecimalN.Unsigned.of_to.
Qed.

Lemma show_N_nonempty (n : N) : isEmpty (show_N n) = false.
Proof.
  unfold show_N, NilZero.string_of_uint.
  destruct (N.to_uint n); reflexivity.
Qed.

Lemma take_while_prefix (f : ascii -> bool) (a rest : string) :
  all_chars f a = true ->
  match rest with String c _ => f c = false | EmptyString => True end ->
  take_while f (a ++ rest) = a /\ drop_while f (a ++ rest) = rest.
Proof.
  intros A R. induction a as [|x a IH]; cbn [append].
  - destruct rest as [|c rest]; [now split |].
    cbn [take_while drop_while]. now rewrite R.
  - cbn [all_chars] in A. apply andb_true_iff in A. destruct A as [X A].
    cbn [take_while drop_while]. rewrite X.
    destruct (IH A) as [T D]. now rewrite T.
Qed.

Lemma digits_are_digit_or_dot (s : string) :
  all_chars isDigit s = true -> all_chars isDigitOrDot s = true.
Proof.
  induction s as [|c s IH]; [reflexivity |]. cbn [all_chars].
  intros H. apply andb_true_iff in H. destruct H as [C H].
  unfold isDigitOrDot at 1. now rewrite C, IH.
Qed.

Lemma Qred_integer (z : Z) : Qred (Qmake z 1) = Qmake z 1.
Proof.
  unfold Qred.
  pose proof (Z.ggcd_gcd z 1) as G.
  pose proof (Z.ggcd_correct_divisors z 1) as D.
  destruct (Z.ggcd z 1) as [g [a b]]. cbn [fst snd] in *.
  rewrite Z.gcd_1_r in G. subst g. destruct D as [Da Db].
  rewrite Z.mul_1_l in Da, Db. now subst.
Qed.

Lemma Qred_cancel (z : Z) (c : positive) :
  Qred (Qmake (z * Zpos c) c) = Qmake z 1.
Proof.
  rewrite <- (Qred_integer z). apply Qred_complete.
  unfold Qeq. cbn [Qnum Qden]. lia.
Qed.

Lemma nearest_even_whole (p : Z) : nearest_even p 1 = p.
Proof.
  unfold nearest_even. rewrite Z.mod_1_r, Z.div_1_r. reflexivity.
Qed.

(** The exponent of a whole number below [2^53]. *)
Lemma binade_integer (p : Z) :
  (0 < p < 2 ^ 53)%Z ->
  binade p 1 = (Z.log2 p - 52)%Z /\ (-52 <= Z.log2 p - 52 <= 0)%Z.
Proof.
  intros [P B].
  destruct (Z.log2_spec p P) as [Lo Hi].
  assert (L0 : (0 <= Z.log2 p)%Z) by apply Z.log2_nonneg.
  assert (L : (Z.log2 p < 53)%Z) by (apply Z.log2_lt_pow2; lia).
  split; [| lia].
  unfold binade. change (Z.log2 1) with 0%Z. rewrite Z.sub_0_r.
  set (e := (Z.log2 p - 52)%Z).
  assert (F : (fst (scaled p 1 e) <? snd (scaled p 1 e) * 2 ^ 52)%Z = false).
  { apply Z.ltb_ge. unfold scaled.
    destruct (0 <=? e)%Z eqn:Z0; cbn [fst snd].
    - apply Z.leb_le in Z0. assert (e = 0%Z) by lia.
      replace (Z.log2 p) with 52%Z in Lo by lia.
      rewrite H. cbn. lia.
    - apply Z.leb_gt in Z0.
      assert (X : (2 ^ 52 = 2 ^ Z.log2 p * 2 ^ (- e))%Z).
      { rewrite <- Z.pow_add_r by lia. f_equal. lia. }
      rewrite Z.mul_1_l, X. apply Z.mul_le_mono_nonneg_r; [| exact Lo].
      apply Z.pow_nonneg. lia. }
  rewrite F. lia.
Qed.

(** A whole number below [2^53] is a double. *)
Lemma toDouble_integer (p : Z) :
  (0 < p < 2 ^ 53)%Z -> toDouble p 1 = Num (Qmake p 1).
Proof.
  intros H. destruct (binade_integer p H) as [E R]. destruct H as [P B].
  unfold toDouble.
  replace (p =? 0)%Z with false by (symmetry; apply Z.eqb_neq; lia).
  cbv zeta. rewrite E. set (e := (Z.log2 p - 52)%Z) in *.
  unfold scaled. destruct (0 <=? e)%Z eqn:Z0; cbn [fst snd].
  - apply Z.leb_le in Z0. assert (e = 0%Z) by lia. rewrite H.
    rewrite Z.pow_0_r, !Z.mul_1_r, nearest_even_whole.
    replace (2 ^ 1024 <=? p)%Z with false; [reflexivity |].
    symmetry. apply Z.leb_gt.
    apply Z.lt_trans with (2 ^ 53)%Z; [exact B |].
    apply Z.pow_lt_mono_r; lia.
  - apply Z.leb_gt in Z0. rewrite nearest_even_whole.
    rewrite (Z.pow_neg_r 2 e) by lia. rewrite Z.mul_0_r.
    replace (2 ^ 1024 <=? 0)%Z with false
      by (symmetry; apply Z.leb_gt; apply Z.pow_pos_nonneg; lia).
    assert (Pos : (0 < 2 ^ (- e))%Z) by (apply Z.pow_pos_nonneg; lia).
    destruct (2 ^ (- e))%Z as [|c|c] eqn:C; try lia.
    cbn [Z.to_pos]. now rewrite Qred_cancel.
Qed.

(** The rounding of [toDouble] against the binary64 division of the
    Standard Library, on fractions of the kinds that occur: short
    decimals, whole numbers around [2^53], ties, numbers beyond the
    largest double and below the smallest. *)
Lemma toDouble_like_binary64 :
  Forall (fun f => toDouble (Zpos (fst f)) (Zpos (snd f)) =
                   binary64_quotient (fst f) (snd f))
         [(1, 10); (555, 10); (1, 3); (2, 3); (999, 1000);
          (9007199254740991, 1); (9007199254740993, 1);
          (9007199254740995, 1); (18014398509481986, 1);
          (12345678901234567890123, 1000000000000);
          (10 ^ 308, 1); (17976931348623158 * 10 ^ 292, 1);
          (17976931348623159 * 10 ^ 292, 1); (10 ^ 309, 1);
          (1, 10 ^ 320); (5, 10 ^ 324); (24, 10 ^ 325);
          (25, 10 ^ 325); (2, 10 ^ 324)]%positive.
Proof.
  repeat (apply Forall_cons; [vm_compute; reflexivity |]). apply Forall_nil.
Qed.

Lemma parseFloat_show_N (n : N) :
  (n < 2 ^ 53)%N -> parseFloat (show_N n) = Num (Qmake (Z.of_N n) 1).
Proof.
  intros B. unfold parseFloat.
  destruct (take_while_prefix isDigit (show_N n) "" (show_N_digits n) I)
    as [T D].
  rewrite append_empty_r in T, D. rewrite T, D, show_N_nonempty.
  cbn [andb isEmpty String.length N.of_nat N.pow digitsValue].
  rewrite show_N_value, N.mul_1_r, N.add_0_r.
  change (Z.of_N 1) with 1%Z.
  destruct n as [|p]; [reflexivity |].
  apply toDouble_integer. split; [reflexivity |].
  change (2 ^ 53)%Z with (Z.of_N (2 ^ 53)). now apply N2Z.inj_lt.
Qed.

Lemma line_of_number (input capture rest : string) :
  all_chars isDigitOrDot capture = true -> isEmpty capture = false ->
  match rest with
  | String c _ => isDigitOrDot c = false
  | EmptyString => True
  end ->
  line_events true input ("PROGRESS: " ++ capture ++ rest) =
    [mkProgressData input (parseFloat capture)].
Proof.
  intros A N R.
  destruct (take_while_prefix isDigitOrDot capture rest A R) as [T _].
  unfold line_events.
  change ("PROGRESS: " ++ capture ++ rest)
    with ("" ++ "PROGRESS:" ++ String " " (capture ++ rest)) at 1.
  rewrite includes_middle.
  assert (P : strip_prefix "PROGRESS: " ("PROGRESS: " ++ capture ++ rest) =
              Some (capture ++ rest)) by apply strip_prefix_append.
  assert (M : match_progress ("PROGRESS: " ++ capture ++ rest) =
              Some capture).
  { revert P. generalize ("PROGRESS: " ++ capture ++ rest). intros s P.
    destruct s as [|y s]; [discriminate P |].
    cbn [match_progress]. now rewrite P, T, N. }
  now rewrite M.
Qed.

(** X6. A line made of the marker, a natural number below [2^53] as a
    program prints it in decimal, and anything that does not go on with
    a digit or a dot yields one progress message whose value is that
    number: nothing clamps it to 100. A number that is not a double is
    read as the nearest double: [2^53 + 1] yields [2^53], and a run of
    400 digits yields [Infinity]. *)
Theorem printed_number_is_read_back :
  forall (input : string) (n : N) (rest : string),
    (n < 2 ^ 53)%N ->
    match rest with
    | String c _ => isDigitOrDot c = false
    | EmptyString => True
    end ->
    line_events true input ("PROGRESS: " ++ show_N n ++ rest) =
      [mkProgressData input (Num (Qmake (Z.of_N n) 1))] /\
    line_events true input ("PROGRESS: " ++ show_N (2 ^ 53 + 1) ++ rest) =
      [mkProgressData input (Num (Qmake (2 ^ 53) 1))] /\
    line_events true input ("PROGRESS: " ++ show_N (10 ^ 399) ++ rest) =
      [mkProgressData input Infinity].
Proof.
  intros input n rest B R.
  assert (L : forall m,
             line_events true input ("PROGRESS: " ++ show_N m ++ rest) =
             [mkProgressData input (parseFloat (show_N m))]).
  { intros m. apply line_of_number;
      [apply digits_are_digit_or_dot, show_N_digits
      | apply show_N_nonempty | exact R]. }
  rewrite !L. split; [| split].
  - now rewrite parseFloat_show_N.
  - assert (V : parseFloat (show_N (2 ^ 53 + 1)) = Num (Qmake (2 ^ 53) 1))
      by (vm_compute; reflexivity).
    now rewrite V.
  - assert (V : parseFloat (show_N (10 ^ 399)) = Infinity)
      by (vm_compute; reflexivity).
    now rewrite V.
Qed.

Lemma printed_number_is_read_back_witness :
  (250 < 2 ^ 53)%N /\
  isDigitOrDot "%"%char = false /\
  line_events true "in.mp4" ("PROGRESS: " ++ show_N 250 ++ "% done") =
    [mkProgressData "in.mp4" (Num (Qmake 250 1))].
Proof.
  split; [reflexivity | split; [reflexivity |]].
  exact (proj1 (printed_number_is_read_back "in.mp4" 250 "% done"
                  eq_refl eq_refl)).
Defined.

(** ** The handlers of the queue *)

Lemma setVideos_same (f : list VideoItem -> list VideoItem) (st : App) :
  f (videos st) = videos st -> setVideos f st = st.
Proof. intros E. unfold setVideos. rewrite E. now destruct st. Qed.

Lemma removeVideo_twice (i : string) (vs : list VideoItem) :
  removeVideo i (removeVideo i vs) = removeVideo i vs.
Proof.
  unfold removeVideo. induction vs as [|v vs IH]; [reflexivity |].
  cbn [filter]. destruct (negb (String.eqb (id v) i)) eqn:E; [| exact IH].
  cbn [filter]. rewrite E. now f_equal.
Qed.

Lemma removeVideo_absent (i : string) (vs : list VideoItem) :
  ~ In i (map id vs) -> removeVideo i vs = vs.
Proof.
  unfold removeVideo. induction vs as [|v vs IH]; intros N; [reflexivity |].
  cbn [filter]. cbn [map In] in N.
  destruct (String.eqb_spec (id v) i) as [E | E]; [tauto |].
  cbn [negb]. f_equal. apply IH. tauto.
Qed.

(** X7. Removing the id [i] deletes exactly the jobs that carry it and
    keeps the others in their order; it changes nothing in the queue
    when no job carries [i]; it clears the selection when [i] was
    selected and leaves it otherwise; and removing twice is removing
    once. *)
Theorem remove_video :
  forall (i : string) (st : App),
    (forall v, In v (videos (handleRemoveVideo i st)) <->
               In v (videos st) /\ id v <> i) /\
    (forall a b, removeVideo i (a ++ b) =
                 (removeVideo i a ++ removeVideo i b)%list) /\
    (~ In i (map id (videos st)) ->
     videos (handleRemoveVideo i st) = videos st) /\
    (selectedVideo st = Some i ->
     selectedVideo (handleRemoveVideo i st) = None) /\
    (selectedVideo st <> Some i ->
     selectedVideo (handleRemoveVideo i st) = selectedVideo st) /\
    handleRemoveVideo i (handleRemoveVideo i st) = handleRemoveVideo i st.
Proof.
  intros i st.
  assert (V : videos (handleRemoveVideo i st) = removeVideo i (videos st)).
  { unfold handleRemoveVideo. destruct (selectedVideo st) as [sel|];
      [destruct (String.eqb sel i) |]; reflexivity. }
  split; [| split; [| split; [| split; [| split]]]].
  - intros v. rewrite V. unfold removeVideo. rewrite filter_In.
    destruct (String.eqb_spec (id v) i); cbn; intuition congruence.
  - intros a b. apply filter_app.
  - intros N. rewrite V. now apply removeVideo_absent.
  - intros S. unfold handleRemoveVideo. rewrite S.
    now rewrite String.eqb_refl.
  - intros S. unfold handleRemoveVideo.
    destruct (selectedVideo st) as [sel|] eqn:E; [| cbn; exact E].
    destruct (String.eqb_spec sel i) as [-> |]; [congruence |].
    cbn. exact E.
  - unfold handleRemoveVideo at 1.
    assert (S : match selectedVideo (handleRemoveVideo i st) with
                | Some sel => String.eqb sel i = false
                | None => True
                end).
    { unfold handleRemoveVideo.
      destruct (selectedVideo st) as [sel|] eqn:E; [| now cbn; rewrite E].
      destruct (String.eqb sel i) eqn:Q; cbn; [exact I |].
      now rewrite E. }
    destruct (selectedVideo (handleRemoveVideo i st)) as [sel|];
      [rewrite S |]; apply setVideos_same; rewrite V;
      apply removeVideo_twice.
Qed.

Lemma remove_video_witness :
  ~ In "9" (map id (videos three_jobs)) /\
  videos (handleRemoveVideo "9" three_jobs) = videos three_jobs /\
  map id (videos (handleRemoveVideo "2" three_jobs)) = ["1"; "3"].
Proof.
  assert (N : ~ In "9" (map id (videos three_jobs)))
    by (cbn; intuition discriminate).
  split; [exact N | split; [| reflexivity]].
  exact (proj1 (proj2 (proj2 (remove_video "9" three_jobs))) N).
Defined.

(** The arrow function of [handleUpdateCaption]. *)
Lemma update_caption_item (i c : string) (v : VideoItem) :
  (if String.eqb (id v) i then with_caption v c else v) =
  with_caption v (if String.eqb (id v) i then c else caption v).
Proof. destruct (String.eqb (id v) i); now destruct v. Qed.

(** X8. Editing the caption of the id [i] sets the caption of the jobs
    that carry [i], whatever their status, and keeps their other fields;
    the other jobs are unchanged, and so is the whole component when no
    job carries [i]. The last of two edits of one id wins, and edits of
    different ids can be made in either order. *)
Theorem update_caption :
  forall (i c : string) (st : App),
    Forall2 (fun v v' =>
               (id v = i -> caption v' = c /\ same_except_caption v v') /\
               (id v <> i -> v' = v))
            (videos st) (videos (handleUpdateCaption i c st)) /\
    (~ In i (map id (videos st)) -> handleUpdateCaption i c st = st) /\
    (forall c0, handleUpdateCaption i c (handleUpdateCaption i c0 st) =
                handleUpdateCaption i c st) /\
    (forall j d, j <> i ->
                 handleUpdateCaption i c (handleUpdateCaption j d st) =
                 handleUpdateCaption j d (handleUpdateCaption i c st)).
Proof.
  intros i c st. split; [| split; [| split]].
  - cbn [handleUpdateCaption setVideos videos]. apply Forall2_map_self.
    intros v _. destruct (String.eqb_spec (id v) i) as [E | E].
    + split; [intros _ | contradiction]. split; [reflexivity | repeat split].
    + split; [contradiction | reflexivity].
  - intros N. apply setVideos_same. apply map_id_on. intros v Hv.
    destruct (String.eqb_spec (id v) i) as [E | E]; [| reflexivity].
    exfalso. apply N. rewrite <- E. now apply in_map.
  - intros c0. unfold handleUpdateCaption, setVideos. cbn [videos settings
      selectedVideo isProcessing bulkCaption alerts]. f_equal.
    rewrite map_map. apply map_ext. intros v.
    destruct (String.eqb (id v) i) eqn:E; cbn [id with_caption];
      now rewrite E.
  - intros j d N. unfold handleUpdateCaption, setVideos. cbn [videos settings
      selectedVideo isProcessing bulkCaption alerts]. f_equal.
    rewrite !map_map. apply map_ext. intros v.
    destruct (String.eqb (id v) j) eqn:Ej;
      destruct (String.eqb (id v) i) eqn:Ei;
      cbn [id with_caption]; rewrite ?Ej, ?Ei; try reflexivity.
    apply String.eqb_eq in Ej, Ei. congruence.
Qed.

Lemma update_caption_witness :
  ~ In "9" (map id (videos three_jobs)) /\
  handleUpdateCaption "9" "lost" three_jobs = three_jobs /\
  map caption (videos (handleUpdateCaption "2" "two"
                         (handleUpdateCaption "2" "draft" three_jobs))) =
    ["one"; "two"; ""].
Proof.
  assert (N : ~ In "9" (map id (videos three_jobs)))
    by (cbn; intuition discriminate).
  split; [exact N | split; [| reflexivity]].
  exact (proj1 (proj2 (update_caption "9" "lost" three_jobs)) N).
Defined.

(** X9. After the empty captions were filled with a text that is not
    blank, no job has a blank caption, so a second use of the bulk
    caption changes no job, whatever text it is given. *)
Theorem fill_leaves_no_blank_caption :
  forall st : App,
    whitespace_only (bulkCaption st) = false ->
    Forall (fun v => whitespace_only (caption v) = false)
           (videos (handleApplyBulkCaption st)) /\
    (forall text,
        videos (handleApplyBulkCaption
                  (setBulkCaption text (handleApplyBulkCaption st))) =
        videos (handleApplyBulkCaption st)).
Proof.
  intros st H.
  assert (V : videos (handleApplyBulkCaption st) =
              fillEmptyCaptions (bulkCaption st) (videos st)).
  { unfold handleApplyBulkCaption.
    destruct (trim (bulkCaption st)) eqn:T; [| reflexivity].
    assert (E : trim (bulkCaption st) = "") by exact T.
    apply trim_empty in E. unfold whitespace_only in H. congruence. }
  assert (F : Forall (fun v => whitespace_only (caption v) = false)
                     (videos (handleApplyBulkCaption st))).
  { rewrite V. unfold fillEmptyCaptions. apply Forall_map.
    apply Forall_forall. intros v _. rewrite fill_spec.
    destruct (whitespace_only (caption v)) eqn:E; [exact H | exact E]. }
  split; [exact F |].
  intros text. set (st1 := handleApplyBulkCaption st) in *.
  unfold handleApplyBulkCaption at 1. cbn [setBulkCaption bulkCaption].
  destruct (isEmpty (trim text)); [reflexivity |].
  cbn [alert setVideos videos setBulkCaption]. unfold fillEmptyCaptions.
  apply map_id_on. intros v Hv. rewrite fill_spec.
  rewrite Forall_forall in F. now rewrite (F v Hv).
Qed.

Lemma fill_leaves_no_blank_caption_witness :
  whitespace_only "Hello" = false /\
  map caption
      (videos (handleApplyBulkCaption
                 (setBulkCaption "Again"
                    (handleApplyBulkCaption
                       (setBulkCaption "Hello" three_jobs))))) =
    ["one"; "Hello"; "Hello"].
Proof.
  split; [reflexivity |].
  rewrite (proj2 (fill_leaves_no_blank_caption
                    (setBulkCaption "Hello" three_jobs) eq_refl) "Again").
  reflexivity.
Defined.

Lemma count_le_length (p : VideoItem -> bool) (vs : list VideoItem) :
  List.length (filter p vs) <= List.length vs.
Proof.
  induction vs as [|v vs IH]; [constructor |]. cbn [filter].
  destruct (p v); cbn [List.length]; lia.
Qed.

Lemma newVideos_pending (draw : nat -> Draw) (files : list string) :
  List.length (newVideos draw files) = List.length files /\
  pendingCount (newVideos draw files) = List.length files /\
  completedCount (newVideos draw files) = 0.
Proof.
  unfold newVideos, pendingCount, completedCount.
  assert (G : forall k,
    let created := map (fun kf => newVideo (draw (fst kf)) (snd kf))
                       (combine (seq k (List.length files)) files) in
    List.length created = List.length files /\
    List.length (filter (fun v => Status_eqb (status v) pending) created) =
      List.length files /\
    List.length (filter (fun v => Status_eqb (status v) completed) created) =
      0).
  { induction files as [|f files IH]; intros k; [cbn; now repeat split |].
    cbn [List.length seq combine map filter newVideo status Status_eqb
         fst snd].
    destruct (IH (S k)) as [L [P C]]. cbv zeta in L, P, C.
    rewrite L, P. now repeat split. }
  exact (G 0).
Qed.

(** X10. The counts shown above the queue: pending and completed jobs
    together are at most the total, a run is given at least the pending
    jobs (the failed ones come on top), and adding files raises the
    total and the pending count by the number of files and leaves the
    completed count. *)
Theorem queue_counts :
  forall (files : list string) (draw : nat -> Draw) (st : App),
    pendingCount (videos st) + completedCount (videos st) <=
      List.length (videos st) /\
    pendingCount (videos st) <= List.length (eligible (videos st)) /\
    List.length (eligible (videos st)) + completedCount (videos st) <=
      List.length (videos st) /\
    List.length (videos (handleAddVideos files draw st)) =
      List.length (videos st) + List.length files /\
    pendingCount (videos (handleAddVideos files draw st)) =
      pendingCount (videos st) + List.length files /\
    completedCount (videos (handleAddVideos files draw st)) =
      completedCount (videos st).
Proof.
  intros files draw st.
  assert (A : pendingCount (videos st) + completedCount (videos st) <=
                List.length (videos st) /\
              pendingCount (videos st) <= List.length (eligible (videos st)) /\
              List.length (eligible (videos st)) + completedCount (videos st) <=
                List.length (videos st)).
  { unfold pendingCount, completedCount, eligible.
    induction (videos st) as [|v vs IH]; [cbn; lia |].
    cbn [filter]. destruct (status v); cbn [Status_eqb orb List.length]; lia. }
  destruct A as [A1 [A2 A3]].
  rewrite handleAddVideos_videos.
  destruct (newVideos_pending draw files) as [L [P C]].
  unfold pendingCount, completedCount in *.
  rewrite !filter_app, !length_app, L, P, C. repeat split; lia.
Qed.

(** ** The run as a whole *)

Section RunReport.

Variable api : nat -> Args -> Invocation.
Variable cfg : Settings.

Lemma process_loop_report (todo : list VideoItem) (r : Run) :
  isProcessing (component (process_loop api cfg todo r)) =
    isProcessing (component r) /\
  (alerts (component (process_loop api cfg todo r)) = alerts (component r) \/
   exists m, alerts (component (process_loop api cfg todo r)) =
             (alerts (component r) ++ [PythonNotFound m])%list) /\
  List.length (calls r) + (match todo with [] => 0 | _ :: _ => 1 end) <=
    List.length (calls (process_loop api cfg todo r)) /\
  List.length (calls (process_loop api cfg todo r)) <=
    List.length (calls r) + List.length todo.
Proof.
  revert r. induction todo as [|video rest IH]; intros r.
  - cbn. repeat split; auto; lia.
  - cbn [process_loop]. rewrite process_one_spec.
    set (inv := api (List.length (calls r)) (args_of cfg video)).
    destruct (breaks inv).
    + cbn [component calls isProcessing alerts List.length].
      rewrite length_app. cbn [List.length].
      repeat split; eauto; lia.
    + match goal with
      | |- isProcessing (component (process_loop _ _ _ ?r1)) = _ /\ _ =>
          destruct (IH r1) as [P [A [L U]]]
      end.
      cbn [component calls isProcessing alerts] in P, A, L, U.
      rewrite length_app, app_nil_r in *. cbn [List.length] in *.
      repeat split; [exact P | exact A | lia | lia].
Qed.

Lemma turn_settles (i : string) (inv : Invocation) (v : VideoItem) :
  id (turn i inv v) = id v /\
  (id v = i -> settled (status (turn i inv v))) /\
  (id v <> i -> status (turn i inv v) = status v).
Proof.
  split; [apply turn_identity | split].
  - intros E. pose proof (turn_target i inv v E) as T. unfold settled.
    destruct (outcome inv); [left | right]; apply T.
  - intros N. now apply turn_status_other.
Qed.

Lemma process_loop_settles (todo : list VideoItem) (r : Run) :
  (forall k video, nth_error todo k = Some video ->
     breaks (api (List.length (calls r) + k) (args_of cfg video)) = false) ->
  Forall2 (run_settles todo)
          (videos (component r))
          (videos (component (process_loop api cfg todo r))).
Proof.
  revert r. induction todo as [|video rest IH]; intros r H.
  - cbn [process_loop]. apply Forall2_same. intros v _.
    repeat split; auto. intros [].
  - cbn [process_loop]. rewrite process_one_spec.
    set (inv := api (List.length (calls r)) (args_of cfg video)).
    assert (B : breaks inv = false).
    { specialize (H 0 video eq_refl). now rewrite Nat.add_0_r in H. }
    rewrite B.
    apply Forall2_after_map
      with (R := run_settles rest) (f := turn (id video) inv).
    + match goal with
      | |- Forall2 _ _ (videos (component (process_loop _ _ _ ?r1))) =>
          apply (IH r1)
      end.
      intros k v Hk. cbn [calls]. rewrite length_app. cbn [List.length].
      replace (List.length (calls r) + 1 + k)
        with (List.length (calls r) + S k) by lia.
      now apply H.
    + intros v v' _ [I [S [T K]]].
      destruct (turn_settles (id video) inv v) as [I1 [T1 K1]].
      rewrite I1 in *.
      destruct (String.eqb_spec (id v) (id video)) as [E | E].
      * assert (S1 : settled (status (turn (id video) inv v))) by auto.
        repeat split; auto. intros N. exfalso. apply N. left. now symmetry.
      * rewrite (K1 E) in *. repeat split; auto.
        -- intros [X | X]; [now symmetry in X | auto].
        -- intros N. apply K. intros X. apply N. now right.
Qed.

End RunReport.

Lemma eligible_nil (vs : list VideoItem) :
  Forall (fun v => status v = processing \/ status v = completed) vs ->
  eligible vs = [].
Proof.
  unfold eligible. induction 1 as [|v vs Hv _ IH]; [reflexivity |].
  cbn [filter]. now destruct Hv as [-> | ->].
Qed.

Lemma eligible_some (vs : list VideoItem) :
  Exists (fun v => status v = pending \/ status v = error) vs ->
  eligible vs <> [].
Proof.
  intros H. apply Exists_exists in H. destruct H as [v [Hv S]].
  assert (I : In v (eligible vs)) by now apply eligible_In.
  intros E. now rewrite E in I.
Qed.

(** X11. A run with nothing to do and the end of every other run. When
    every job is being processed or completed (an empty queue
    included), Process All invokes nothing and leaves the component as
    it is but for the alert 'No videos to process!'. When some job is
    pending or failed, the run makes at least one invocation and at most
    one per eligible job, and it always ends with the processing flag
    down and the alert 'Processing complete!', after the not-found
    dialog if it was cut short. *)
Theorem run_report :
  forall (api : nat -> Args -> Invocation) (st : App),
    (Forall (fun v => status v = processing \/ status v = completed)
            (videos st) ->
     handleProcessAll api st = mkRun (alert NoVideosToProcess st) []) /\
    (Exists (fun v => status v = pending \/ status v = error) (videos st) ->
     isProcessing (component (handleProcessAll api st)) = false /\
     (alerts (component (handleProcessAll api st)) =
        (alerts st ++ [ProcessingComplete])%list \/
      exists m,
        alerts (component (handleProcessAll api st)) =
          (alerts st ++ [PythonNotFound m; ProcessingComplete])%list) /\
     1 <= List.length (calls (handleProcessAll api st)) /\
     List.length (calls (handleProcessAll api st)) <=
       List.length (eligible (videos st))).
Proof.
  intros api st. split.
  - intros F. unfold handleProcessAll. now rewrite (eligible_nil _ F).
  - intros X. apply eligible_some in X. unfold handleProcessAll.
    destruct (eligible (videos st)) as [|j rest] eqn:El; [contradiction |].
    set (r0 := mkRun (setIsProcessing true st) []).
    destruct (process_loop_report api (settings st) (j :: rest) r0)
      as [_ [A [L U]]].
    cbn [component calls alert setIsProcessing isProcessing alerts r0
         List.length Nat.add] in *.
    repeat split; [| exact L | exact U].
    destruct A as [A | [m A]]; rewrite A; [now left | right].
    exists m. now rewrite <- app_assoc.
Qed.

Lemma run_report_witness :
  Exists (fun v => status v = pending \/ status v = error)
         (videos three_jobs) /\
  Forall (fun v => status v = processing \/ status v = completed)
         (videos (app_with [job "2" "/v/b.mp4" "" completed (Num 100%Q)] "")) /\
  calls (handleProcessAll (electronAPI second_fails)
           (app_with [job "2" "/v/b.mp4" "" completed (Num 100%Q)] "")) = [] /\
  isProcessing (component (handleProcessAll (electronAPI second_fails)
                                            three_jobs)) = false.
Proof.
  assert (X : Exists (fun v => status v = pending \/ status v = error)
                     (videos three_jobs))
    by (constructor; now left).
  assert (F : Forall (fun v => status v = processing \/ status v = completed)
                (videos (app_with [job "2" "/v/b.mp4" "" completed (Num 100%Q)]
                                  "")))
    by (repeat constructor; now right).
  split; [exact X | split; [exact F | split]].
  - now rewrite (proj1 (run_report (electronAPI second_fails) _) F).
  - exact (proj1 (proj2 (run_report (electronAPI second_fails) three_jobs) X)).
Defined.

Lemma Forall2_right {A : Type} (R : A -> A -> Prop) (P : A -> Prop)
      (l l' : list A) :
  Forall2 R l l' -> (forall x y, In x l -> R x y -> P y) -> Forall P l'.
Proof.
  induction 1 as [|x y l l' HR _ IH]; intros H; constructor.
  - apply (H x y); [now left | exact HR].
  - apply IH. intros a b Ha. apply H. now right.
Qed.

Lemma pendingCount_zero (vs : list VideoItem) :
  Forall (fun v => status v <> pending) vs -> pendingCount vs = 0.
Proof.
  unfold pendingCount. induction 1 as [|v vs Hv _ IH]; [reflexivity |].
  cbn [filter]. destruct (status v); try exact IH. contradiction.
Qed.

(** X12. When no turn of a run breaks, every eligible job is invoked,
    in queue order, every job that was pending or failed ends completed
    or failed, and no job of the queue is left pending: the pending
    count is 0. *)
Theorem complete_run_leaves_no_pending :
  forall (api : nat -> Args -> Invocation) (st : App),
    (forall k args, breaks (api k args) = false) ->
    map fst (calls (handleProcessAll api st)) =
      map (args_of (settings st)) (eligible (videos st)) /\
    Forall2 (fun v v' =>
               id v' = id v /\
               (status v = pending \/ status v = error ->
                status v' = completed \/ status v' = error))
            (videos st) (videos (component (handleProcessAll api st))) /\
    pendingCount (videos (component (handleProcessAll api st))) = 0.
Proof.
  intros api st H. unfold handleProcessAll.
  destruct (eligible (videos st)) as [|j rest] eqn:El.
  - assert (P : Forall (fun v => status v <> pending) (videos st)).
    { apply Forall_forall. intros v Hv S.
      assert (I : In v (eligible (videos st))) by (apply eligible_In; auto).
      now rewrite El in I. }
    cbn [calls component alert videos map]. split; [reflexivity | split].
    + apply Forall2_same. intros v Hv. split; [reflexivity |].
      intros S. assert (I : In v (eligible (videos st)))
        by (apply eligible_In; auto).
      now rewrite El in I.
    + now apply pendingCount_zero.
  - set (r0 := mkRun (setIsProcessing true st) []).
    destruct (process_loop_continue api (settings st) (j :: rest) [] r0)
      as [_ [_ [_ C]]]; [intros k v _; apply H |].
    pose proof (process_loop_settles api (settings st) (j :: rest) r0
                  (fun k v _ => H _ _)) as S.
    cbn [calls component alert setIsProcessing videos r0 map] in *.
    rewrite <- El in *.
    assert (R : Forall2 (fun v v' =>
               id v' = id v /\ status v' <> pending /\
               (status v = pending \/ status v = error ->
                status v' = completed \/ status v' = error))
            (videos st)
            (videos (component (process_loop api (settings st)
                                             (eligible (videos st)) r0)))).
    { apply (Forall2_weaken_in _ _ _ _ S). intros v v' Hv [I [K [T U]]].
      assert (E : status v = pending \/ status v = error ->
                  settled (status v')).
      { intros X. apply T. apply in_map. now apply eligible_In. }
      split; [exact I | split; [| exact E]].
      destruct (in_dec string_dec (id v) (map id (eligible (videos st))))
        as [Y | N].
      - destruct (T Y) as [-> | ->]; discriminate.
      - rewrite (U N). intros X.
        destruct (E (or_introl X)) as [Z | Z]; rewrite (U N) in Z; congruence. }
    split; [exact C | split].
    + apply (Forall2_weaken_in _ _ _ _ R). tauto.
    + assert (P : Forall (fun v' => status v' <> pending)
                    (videos (component (process_loop api (settings st)
                                          (eligible (videos st)) r0))))
        by (apply (Forall2_right _ _ _ _ R); tauto).
      now apply pendingCount_zero.
Qed.

Lemma complete_run_leaves_no_pending_witness :
  (forall k args, breaks (electronAPI second_fails k args) = false) /\
  pendingCount (videos three_jobs) = 3 /\
  pendingCount (videos (component (handleProcessAll (electronAPI second_fails)
                                                    three_jobs))) = 0.
Proof.
  assert (B : forall k args, breaks (electronAPI second_fails k args) = false).
  { intros k args. unfold second_fails.
    destruct (Nat.eqb k 1) eqn:E; unfold breaks, electronAPI;
      cbn; rewrite E; reflexivity. }
  split; [exact B | split; [reflexivity |]].
  exact (proj2 (proj2 (complete_run_leaves_no_pending
                         (electronAPI second_fails) three_jobs B))).
Defined.

(** What the loop does to the status and the message of the jobs when
    no turn breaks and every rejection reads as 'Processing failed'. *)
Lemma process_loop_marks (api : nat -> Args -> Invocation) (cfg : Settings)
      (todo : list VideoItem) (r : Run) :
  (forall k args, breaks (api k args) = false) ->
  (forall k args e, outcome (api k args) = Rejected e ->
                    error_message e = "Processing failed") ->
  Forall2 (fun v v' =>
             id v' = id v /\
             (In (id v) (map id todo) ->
              status v' = completed \/
              (status v' = error /\ errorMsg v' = Some "Processing failed")) /\
             (~ In (id v) (map id todo) ->
              status v' = status v /\ errorMsg v' = errorMsg v))
          (videos (component r))
          (videos (component (process_loop api cfg todo r))).
Proof.
  intros B M. revert r. induction todo as [|video rest IH]; intros r.
  - cbn [process_loop]. apply Forall2_same. intros v _.
    repeat split; auto. intros [].
  - cbn [process_loop]. rewrite process_one_spec.
    set (inv := api (List.length (calls r)) (args_of cfg video)).
    assert (Bi : breaks inv = false) by apply B.
    rewrite Bi.
    apply Forall2_after_map with (f := turn (id video) inv)
      (R := fun v v' =>
              id v' = id v /\
              (In (id v) (map id rest) ->
               status v' = completed \/
               (status v' = error /\
                errorMsg v' = Some "Processing failed")) /\
              (~ In (id v) (map id rest) ->
               status v' = status v /\ errorMsg v' = errorMsg v)).
    + match goal with
      | |- Forall2 _ _ (videos (component (process_loop _ _ _ ?r1))) =>
          apply (IH r1)
      end.
    + intros v v' _ [I [T K]].
      destruct (turn_identity (id video) inv v) as [I1 _].
      rewrite I1 in *.
      assert (Hit : id v = id video ->
                    status (turn (id video) inv v) = completed \/
                    (status (turn (id video) inv v) = error /\
                     errorMsg (turn (id video) inv v) =
                       Some "Processing failed")).
      { intros E. pose proof (turn_target (id video) inv v E) as X.
        destruct (outcome inv) as [x | e] eqn:O.
        - left. apply X.
        - right. rewrite <- (M _ _ e O). exact X. }
      split; [exact I | split].
      * intros In1.
        destruct (in_dec string_dec (id v) (map id rest)) as [Y | N];
          [now apply T |].
        destruct (K N) as [S1 M1]. rewrite S1, M1.
        destruct In1 as [E | Y]; [| contradiction]. now apply Hit.
      * intros N.
        assert (N1 : id v <> id video) by (intros E; apply N; left; now symmetry).
        assert (N2 : ~ In (id v) (map id rest)) by (intros Y; apply N; now right).
        destruct (K N2) as [S1 M1].
        destruct (turn_status_other (id video) inv v N1) as [S2 M2].
        split; congruence.
Qed.

(** X25. A run through the API of the program is never cut short. The
    renderer never reads the text a handler rejected with, so the test
    for 'Python not found' never holds: every eligible job is invoked,
    in order, whatever the resolver and the encoders do; the not-found
    dialog is not shown; and a job the run leaves in error carries
    'Processing failed' and nothing else. *)
Theorem run_is_never_cut_short :
  forall (world : nat -> Host) (st : App),
    map fst (calls (run world st)) =
      map (args_of (settings st)) (eligible (videos st)) /\
    (forall msg,
        In (PythonNotFound msg) (alerts (component (run world st))) ->
        In (PythonNotFound msg) (alerts st)) /\
    Forall2 (fun v v' =>
               id v' = id v /\
               (In (id v) (map id (eligible (videos st))) ->
                status v' = completed \/
                (status v' = error /\
                 errorMsg v' = Some "Processing failed")) /\
               (~ In (id v) (map id (eligible (videos st))) ->
                status v' = status v /\ errorMsg v' = errorMsg v))
            (videos st) (videos (component (run world st))).
Proof.
  intros world st.
  destruct (run_goes_through world st) as [Calls Alerts].
  split; [exact Calls | split].
  - intros msg. rewrite Alerts. intros H. apply in_app_or in H.
    destruct H as [H | [H | []]]; [exact H |].
    destruct (eligible (videos st)); discriminate H.
  - unfold run, handleProcessAll.
    destruct (eligible (videos st)) as [|j rest] eqn:El.
    + cbn [component alert videos]. apply Forall2_same. intros v _.
      repeat split; auto. intros [].
    + cbn [component alert setIsProcessing videos].
      exact (process_loop_marks (electronAPI world) (settings st) (j :: rest)
               (mkRun (setIsProcessing true st) [])
               (electronAPI_never_breaks world)
               (electronAPI_rejection world)).
Qed.

(** ** The run with the user at work *)

Section UserView.

Lemma owned_map (g : VideoItem -> VideoItem) (vs : list VideoItem) :
  (forall v, owned_by_user (g v) = owned_by_user v) ->
  map owned_by_user (map g vs) = map owned_by_user vs.
Proof. intros H. rewrite map_map. apply map_ext. exact H. Qed.

Lemma view_setVideos_map (g : VideoItem -> VideoItem) (st : App) :
  (forall v, owned_by_user (g v) = owned_by_user v) ->
  user_view (setVideos (map g) st) = user_view st.
Proof.
  intros H. unfold user_view. cbn [setVideos videos settings selectedVideo
    bulkCaption]. now rewrite owned_map.
Qed.

Lemma owned_to_processing (i : string) (v : VideoItem) :
  owned_by_user (to_processing i v) = owned_by_user v.
Proof. unfold to_processing. now destruct (String.eqb (id v) i). Qed.

Lemma owned_to_completed (i : string) (v : VideoItem) :
  owned_by_user (to_completed i v) = owned_by_user v.
Proof. unfold to_completed. now destruct (String.eqb (id v) i). Qed.

Lemma owned_to_error (i msg : string) (v : VideoItem) :
  owned_by_user (to_error i msg v) = owned_by_user v.
Proof. unfold to_error. now destruct (String.eqb (id v) i). Qed.

Lemma owned_route (data : ProgressData) (v : VideoItem) :
  owned_by_user (route data v) = owned_by_user v.
Proof. unfold route. now destruct (String.eqb (filepath v) (path data)). Qed.

Lemma owned_filter (i : string) (vs : list VideoItem) :
  map owned_by_user (removeVideo i vs) = removeVideo i (map owned_by_user vs).
Proof.
  unfold removeVideo. induction vs as [|v vs IH]; [reflexivity |].
  cbn [filter map id owned_by_user].
  destruct (negb (String.eqb (id v) i)); cbn [map]; now rewrite IH.
Qed.

Lemma owned_update (i c : string) (vs : list VideoItem) :
  map owned_by_user
      (map (fun v => if String.eqb (id v) i then with_caption v c else v) vs) =
  map (fun v => if String.eqb (id v) i then with_caption v c else v)
      (map owned_by_user vs).
Proof.
  rewrite !map_map. apply map_ext. intros v. cbn [id owned_by_user].
  now destruct (String.eqb (id v) i).
Qed.

Lemma owned_fill (text : string) (vs : list VideoItem) :
  map owned_by_user (fillEmptyCaptions text vs) =
  fillEmptyCaptions text (map owned_by_user vs).
Proof.
  unfold fillEmptyCaptions. rewrite !map_map. apply map_ext. intros v.
  unfold fill. cbn [caption owned_by_user].
  now destruct (String.eqb (trim (caption v)) "").
Qed.

(** What an action of the user leaves in the user's view depends on
    that view only. *)
Lemma act_view (u : UserAction) (a b : App) :
  user_view a = user_view b -> user_view (act u a) = user_view (act u b).
Proof.
  unfold user_view. intros E. injection E as V S L B.
  destruct u as [files draw | i | i | i c | text | | confirmed | cfg];
    cbn [act].
  - rewrite !handleAddVideos_videos, !map_app, V.
    destruct files; cbn [handleAddVideos setVideos settings selectedVideo
      bulkCaption]; rewrite S, L, B; reflexivity.
  - assert (Va : forall st, videos (handleRemoveVideo i st) =
                            removeVideo i (videos st)).
    { intros st. unfold handleRemoveVideo.
      destruct (selectedVideo st) as [sel|];
        [destruct (String.eqb sel i) |]; reflexivity. }
    rewrite !Va, !owned_filter, V.
    unfold handleRemoveVideo. rewrite L.
    destruct (selectedVideo b) as [sel|] eqn:Lb;
      [destruct (String.eqb sel i) |];
      cbn [setSelectedVideo setVideos settings selectedVideo bulkCaption];
      rewrite ?L, ?Lb, S, B; reflexivity.
  - cbn [setSelectedVideo videos settings selectedVideo bulkCaption].
    rewrite V, S, B; reflexivity.
  - cbn [handleUpdateCaption setVideos videos settings selectedVideo
         bulkCaption]. rewrite !owned_update, V, S, L, B; reflexivity.
  - cbn [setBulkCaption videos settings selectedVideo bulkCaption].
    rewrite V, S, L; reflexivity.
  - unfold handleApplyBulkCaption. rewrite B.
    destruct (isEmpty (trim (bulkCaption b))).
    + rewrite V, S, L, B; reflexivity.
    + cbn [alert setVideos videos settings selectedVideo bulkCaption].
      rewrite !owned_fill, V, S, L, B; reflexivity.
  - unfold handleClearAll.
    assert (Len : List.length (videos a) = List.length (videos b)).
    { pose proof (f_equal (@List.length VideoItem) V) as X.
      now rewrite !length_map in X. }
    rewrite Len.
    destruct (Nat.ltb 0 (List.length (videos b)) && confirmed).
    + cbn [setSelectedVideo setVideos videos settings selectedVideo
           bulkCaption]. rewrite S, B; reflexivity.
    + rewrite V, S, L, B; reflexivity.
  - cbn [setSettings videos settings selectedVideo bulkCaption].
    rewrite V, L, B; reflexivity.
Qed.

Lemma acts_view (us : list UserAction) (a b : App) :
  user_view a = user_view b -> user_view (acts us a) = user_view (acts us b).
Proof.
  unfold acts. revert a b. induction us as [|u us IH]; intros a b E;
    [exact E |].
  cbn [fold_left]. apply IH. now apply act_view.
Qed.

Lemma acts_app (us ws : list UserAction) (st : App) :
  acts (us ++ ws) st = acts ws (acts us st).
Proof. unfold acts. apply fold_left_app. Qed.

Lemma view_messages (msgs : list ProgressData) (st : App) :
  user_view (fold_left (fun acc data =>
                          setVideos (onProcessingProgress data) acc) msgs st) =
  user_view st.
Proof.
  revert st. induction msgs as [|d msgs IH]; intros st; [reflexivity |].
  cbn [fold_left]. rewrite IH. apply view_setVideos_map, owned_route.
Qed.

(** Between the progress messages the user's view moves by the user's
    actions alone. *)
Lemma interleave_view (msgs : list ProgressData)
      (gaps : list (list UserAction)) (st : App) :
  user_view (interleave msgs gaps st) =
  user_view (acts (List.concat gaps) st).
Proof.
  revert msgs st. induction gaps as [|gap later IH]; intros msgs st.
  - cbn [interleave List.concat]. apply view_messages.
  - cbn [interleave List.concat]. rewrite acts_app.
    destruct msgs as [|d rest]; rewrite IH; [reflexivity |].
    apply acts_view. apply view_setVideos_map, owned_route.
Qed.

Variable api : nat -> Args -> Invocation.
Variable cfg : Settings.

Lemma process_one_live_spec (gaps : list (list UserAction))
      (video : VideoItem) (r : Run) :
  calls (fst (process_one_live api cfg gaps video r)) =
    (calls r ++ [(args_of cfg video,
                  api (List.length (calls r)) (args_of cfg video))])%list /\
  snd (process_one_live api cfg gaps video r) =
    breaks (api (List.length (calls r)) (args_of cfg video)) /\
  user_view (component (fst (process_one_live api cfg gaps video r))) =
    user_view (acts (List.concat gaps) (component r)).
Proof.
  unfold process_one_live, breaks.
  set (inv := api (List.length (calls r)) (args_of cfg video)).
  assert (V : user_view (interleave (messages inv) gaps
                 (setVideos (mark_processing (id video)) (component r))) =
              user_view (acts (List.concat gaps) (component r))).
  { rewrite interleave_view. apply acts_view.
    apply view_setVideos_map, owned_to_processing. }
  destruct (outcome inv) as [x | e].
  - cbn [fst snd calls component]. repeat split.
    rewrite <- V. apply view_setVideos_map, owned_to_completed.
  - destruct (includes "Python not found" (error_message e));
      cbn [fst snd calls component]; repeat split; rewrite <- V;
      [change (user_view (alert ?a ?s)) with (user_view s) |];
      apply view_setVideos_map, owned_to_error.
Qed.

Lemma performed_step (schedule : nat -> list (list UserAction)) (n m : nat) :
  flat_map (fun k => List.concat (schedule k)) (seq n (S m)) =
  (List.concat (schedule n) ++
   flat_map (fun k => List.concat (schedule k)) (seq (S n) m))%list.
Proof. reflexivity. Qed.

Lemma process_loop_live_view (schedule : nat -> list (list UserAction))
      (todo : list VideoItem) (r : Run) :
  exists m,
    List.length (calls (process_loop_live api cfg schedule todo r)) =
      List.length (calls r) + m /\
    map fst (calls (process_loop_live api cfg schedule todo r)) =
      (map fst (calls r) ++ map (args_of cfg) (firstn m todo))%list /\
    user_view (component (process_loop_live api cfg schedule todo r)) =
      user_view (acts (flat_map (fun k => List.concat (schedule k))
                                (seq (List.length (calls r)) m))
                      (component r)).
Proof.
  revert r. induction todo as [|video rest IH]; intros r.
  - exists 0. cbn. rewrite app_nil_r. repeat split. lia.
  - cbn [process_loop_live].
    destruct (process_one_live_spec (schedule (List.length (calls r))) video r)
      as [C [B V]].
    destruct (process_one_live api cfg (schedule (List.length (calls r)))
                               video r) as [r1 stop].
    cbn [fst snd] in C, B, V.
    assert (L1 : List.length (calls r1) = S (List.length (calls r)))
      by (rewrite C, length_app; cbn; lia).
    destruct stop.
    + exists 1. rewrite L1, C, map_app.
      cbn [seq flat_map firstn map fst]. rewrite app_nil_r.
      repeat split; [lia | exact V].
    + destruct (IH r1) as [m [L [Cm Vm]]].
      exists (S m). rewrite L, Cm, Vm, L1, C, map_app, performed_step, acts_app.
      cbn [firstn map fst]. rewrite <- app_assoc.
      repeat split; [lia |]. now apply acts_view.
Qed.

Lemma interleave_no_gaps (msgs : list ProgressData) (st : App) :
  interleave msgs [] st = setVideos (deliver msgs) st.
Proof.
  cbn [interleave]. unfold deliver. revert st.
  induction msgs as [|d msgs IH]; intros st; cbn [fold_left].
  - now destruct st.
  - now rewrite IH.
Qed.

Lemma process_loop_live_quiet (schedule : nat -> list (list UserAction))
      (todo : list VideoItem) (r : Run) :
  (forall k, schedule k = []) ->
  process_loop_live api cfg schedule todo r = process_loop api cfg todo r.
Proof.
  intros Q. revert r. induction todo as [|video rest IH]; intros r;
    [reflexivity |].
  cbn [process_loop_live process_loop].
  assert (E : process_one_live api cfg (schedule (List.length (calls r)))
                               video r = process_one api cfg video r).
  { unfold process_one_live, process_one.
    now rewrite Q, interleave_no_gaps. }
  rewrite E. destruct (process_one api cfg video r) as [r1 stop].
  destruct stop; [reflexivity | apply IH].
Qed.

End UserView.

Lemma live_user_view (api : nat -> Args -> Invocation)
      (schedule : nat -> list (list UserAction)) (st : App) :
  (exists n,
      map fst (calls (handleProcessAll_live api schedule st)) =
      map (args_of (settings st)) (firstn n (eligible (videos st)))) /\
  user_view (component (handleProcessAll_live api schedule st)) =
  user_view (acts (performed schedule
                     (List.length (calls (handleProcessAll_live api schedule
                                                                st))))
                  st).
Proof.
  unfold handleProcessAll_live, performed.
  destruct (eligible (videos st)) as [|j rest] eqn:El.
  - split; [now exists 0 | reflexivity].
  - set (r0 := mkRun (setIsProcessing true st) []).
    destruct (process_loop_live_view api (settings st) schedule (j :: rest) r0)
      as [m [L [C V]]].
    cbn [calls component r0 List.length Nat.add map List.app] in *.
    split; [now exists m |].
    rewrite L.
    change (user_view (alert ?a (setIsProcessing ?b ?s))) with (user_view s).
    rewrite V. now apply acts_view.
Qed.

(** X13. While a run waits for its invocations the user may add and
    remove files, edit captions, use the bulk caption, clear the queue
    or change the settings, in any interleaving with the progress
    messages. The run never writes what the user owns: at its end the
    jobs of the queue with their ids, paths, names and captions, the
    settings, the selection and the bulk caption are what the user's
    actions alone make of the component the run started from. *)
Theorem run_leaves_user_fields :
  forall (api : nat -> Args -> Invocation)
         (schedule : nat -> list (list UserAction)) (st : App),
    user_view (component (handleProcessAll_live api schedule st)) =
    user_view (acts (performed schedule
                       (List.length (calls (handleProcessAll_live
                                              api schedule st))))
                    st).
Proof. intros api schedule st. apply live_user_view. Qed.

(** X14. The jobs of a run are fixed when it starts: whatever the user
    does meanwhile, the invocations are made for a prefix of the jobs
    that were eligible at the start, in their order, with the captions,
    the output directory and the font of that moment; files added during
    the run are not processed by it. With a user who does nothing the
    run is the plain loop of [handleProcessAll]. *)
Theorem run_works_on_its_snapshot :
  forall (api : nat -> Args -> Invocation)
         (schedule : nat -> list (list UserAction)) (st : App),
    (exists n,
        map fst (calls (handleProcessAll_live api schedule st)) =
        map (args_of (settings st)) (firstn n (eligible (videos st)))) /\
    ((forall k, schedule k = []) ->
     handleProcessAll_live api schedule st = handleProcessAll api st).
Proof.
  intros api schedule st. split; [apply live_user_view |].
  intros Q. unfold handleProcessAll_live, handleProcessAll.
  destruct (eligible (videos st)); [reflexivity |].
  now rewrite process_loop_live_quiet.
Qed.

Lemma run_works_on_its_snapshot_witness :
  (forall k : nat, (fun _ : nat => @nil (list UserAction)) k = []) /\
  handleProcessAll_live (electronAPI second_fails) (fun _ => []) three_jobs =
  handleProcessAll (electronAPI second_fails) three_jobs.
Proof.
  split; [reflexivity |].
  exact (proj2 (run_works_on_its_snapshot (electronAPI second_fails)
                  (fun _ => []) three_jobs) (fun _ => eq_refl)).
Defined.

(** ** The selection *)

Lemma map_id_owned (vs : list VideoItem) :
  map id (map owned_by_user vs) = map id vs.
Proof. rewrite map_map. now apply map_ext. Qed.

Lemma selection_valid_view (a b : App) :
  user_view a = user_view b -> selection_valid a -> selection_valid b.
Proof.
  unfold user_view, selection_valid. intros E. injection E as V _ L _.
  rewrite <- L, <- (map_id_owned (videos b)), <- V, map_id_owned. auto.
Qed.

Lemma performed_quiet (n : nat) :
  performed (fun _ => []) n = [].
Proof.
  unfold performed. induction (seq 0 n) as [|k ks IH]; [reflexivity |].
  cbn [flat_map List.concat]. exact IH.
Qed.

Lemma run_user_view (api : nat -> Args -> Invocation) (st : App) :
  user_view (component (handleProcessAll api st)) = user_view st.
Proof.
  assert (Q : handleProcessAll_live api (fun _ => []) st =
              handleProcessAll api st).
  { unfold handleProcessAll_live, handleProcessAll.
    destruct (eligible (videos st)); [reflexivity |].
    now rewrite process_loop_live_quiet. }
  rewrite <- Q.
  destruct (live_user_view api (fun _ => []) st) as [_ V].
  rewrite V, performed_quiet. reflexivity.
Qed.

Lemma find_by_id (i : string) (vs : list VideoItem) :
  In i (map id vs) ->
  exists v, find (fun v => String.eqb (id v) i) vs = Some v /\ id v = i.
Proof.
  induction vs as [|x vs IH]; intros H; [contradiction |].
  cbn [find]. destruct (String.eqb_spec (id x) i) as [E | E].
  - now exists x.
  - apply IH. destruct H as [H | H]; [contradiction | exact H].
Qed.

(** X15. The selection always names a job of the queue. If it does (or
    is empty), it still does after any action of the user, the cards
    offering only the jobs of the queue for selection, and after any
    run; so the details panel always finds the selected job. *)
Theorem selection_stays_valid :
  forall st : App,
    selection_valid st ->
    (forall u, offered u st -> selection_valid (act u st)) /\
    (forall api, selection_valid (component (handleProcessAll api st))) /\
    (forall i, selectedVideo st = Some i ->
               exists v, selectedVideoData st = Some v /\ id v = i).
Proof.
  intros st V. split; [| split].
  - intros u O. unfold selection_valid in *.
    destruct u as [files draw | i | i | i c | text | | confirmed | cfg];
      cbn [act offered] in *.
    + rewrite handleAddVideos_videos, map_app.
      replace (selectedVideo (handleAddVideos files draw st))
        with (selectedVideo st) by now destruct files.
      destruct (selectedVideo st); [| exact I].
      apply in_or_app. now left.
    + unfold handleRemoveVideo.
      destruct (selectedVideo st) as [sel|] eqn:S; [| now cbn; rewrite S].
      destruct (String.eqb_spec sel i) as [E | E]; cbn; [exact I |].
      rewrite S. apply in_map_iff in V. destruct V as [v [Iv Hv]].
      apply in_map_iff. exists v. split; [exact Iv |].
      unfold removeVideo. apply filter_In. split; [exact Hv |].
      apply negb_true_iff, String.eqb_neq. congruence.
    + exact O.
    + cbn [handleUpdateCaption setVideos videos selectedVideo].
      rewrite map_map.
      replace (map (fun x => id (if String.eqb (id x) i
                                 then with_caption x c else x)) (videos st))
        with (map id (videos st)); [exact V |].
      apply map_ext. intros v. now destruct (String.eqb (id v) i).
    + exact V.
    + unfold handleApplyBulkCaption.
      destruct (isEmpty (trim (bulkCaption st))); [exact V |].
      cbn [alert setVideos videos selectedVideo]. unfold fillEmptyCaptions.
      rewrite map_map.
      replace (map (fun x => id (fill (bulkCaption st) x)) (videos st))
        with (map id (videos st)); [exact V |].
      apply map_ext. intros v. unfold fill.
      now destruct (String.eqb (trim (caption v)) "").
    + unfold handleClearAll.
      destruct (Nat.ltb 0 (List.length (videos st)) && confirmed);
        [exact I | exact V].
    + exact V.
  - intros api. apply selection_valid_view with st; [| exact V].
    symmetry. apply run_user_view.
  - intros i S. unfold selectedVideoData. rewrite S.
    apply find_by_id. unfold selection_valid in V. now rewrite S in V.
Qed.

Lemma selection_stays_valid_witness :
  selection_valid (setSelectedVideo (Some "2") three_jobs) /\
  offered (RemoveVideo "2") (setSelectedVideo (Some "2") three_jobs) /\
  selection_valid (act (RemoveVideo "2")
                       (setSelectedVideo (Some "2") three_jobs)) /\
  selectedVideo (act (RemoveVideo "2")
                     (setSelectedVideo (Some "2") three_jobs)) = None.
Proof.
  assert (V : selection_valid (setSelectedVideo (Some "2") three_jobs))
    by (cbn; auto).
  split; [exact V | split; [exact I | split; [| reflexivity]]].
  exact (proj1 (selection_stays_valid _ V) (RemoveVideo "2") I).
Defined.

(** ** Settings and the store *)

Lemma truthy_some (text : string) :
  text <> "" -> truthy (Some text) = Some text.
Proof. intros N. cbn. destruct text; [contradiction | reflexivity]. Qed.

Lemma or_default_nonempty (v : option string) (d : string) :
  d <> "" -> or_default v d <> "".
Proof.
  intros N. unfold or_default, truthy.
  destruct v as [text|]; [| exact N].
  destruct text; [exact N | discriminate].
Qed.

Lemma or_default_some (text d : string) :
  text <> "" -> or_default (Some text) d = text.
Proof. intros N. unfold or_default. now rewrite truthy_some. Qed.

Lemma or_default_none (v : option string) (d : string) :
  truthy v = None -> or_default v d = d.
Proof. intros E. unfold or_default. now rewrite E. Qed.

Lemma load_settings_defaults_lemma :
  forall (s : Store) (st : App),
    outputDir (settings (loadSettings s st)) <> "" /\
    selectedFont (settings (loadSettings s st)) <> "" /\
    theme (settings (loadSettings s st)) = dark /\
    videos (loadSettings s st) = videos st /\
    (forall d, s "outputDir" = Some d -> d <> "" ->
               outputDir (settings (loadSettings s st)) = d) /\
    (forall d, truthy (s "outputDir") = None ->
               s "defaultOutputDir" = Some d -> d <> "" ->
               outputDir (settings (loadSettings s st)) = d) /\
    (truthy (s "outputDir") = None ->
     truthy (s "defaultOutputDir") = None ->
     outputDir (settings (loadSettings s st)) = "TikTok_Output") /\
    (forall f, s "selectedFont" = Some f -> f <> "" ->
               selectedFont (settings (loadSettings s st)) = f) /\
    (truthy (s "selectedFont") = None ->
     selectedFont (settings (loadSettings s st)) = "Impact").
Proof.
  intros s st.
  cbn [loadSettings setSettings settings videos outputDir selectedFont theme].
  unfold get_setting, store_get.
  split; [apply or_default_nonempty, or_default_nonempty; discriminate |].
  split; [apply or_default_nonempty; discriminate |].
  split; [reflexivity | split; [reflexivity |]].
  split; [intros d E N; rewrite E; now apply or_default_some |].
  split; [intros d O E N; rewrite (or_default_none _ _ O), E;
          now apply or_default_some |].
  split; [intros O D; now rewrite (or_default_none _ _ O),
                                  (or_default_none _ _ D) |].
  split; [intros f E N; rewrite E; now apply or_default_some |].
  intros F. now apply or_default_none.
Qed.

(** X16. The settings a start of the application loads: the output
    directory is the stored one when there is one, else the stored
    default directory, else 'TikTok_Output', an empty text counting as
    none, so it is never empty; the font is the stored one or Impact and
    never empty; the theme is dark; the queue is not touched. *)
Theorem load_settings_defaults :
  forall (s : Store) (st : App),
    outputDir (settings (loadSettings s st)) <> "" /\
    selectedFont (settings (loadSettings s st)) <> "" /\
    theme (settings (loadSettings s st)) = dark /\
    videos (loadSettings s st) = videos st /\
    (forall d, s "outputDir" = Some d -> d <> "" ->
               outputDir (settings (loadSettings s st)) = d) /\
    (forall d, truthy (s "outputDir") = None ->
               s "defaultOutputDir" = Some d -> d <> "" ->
               outputDir (settings (loadSettings s st)) = d) /\
    (truthy (s "outputDir") = None ->
     truthy (s "defaultOutputDir") = None ->
     outputDir (settings (loadSettings s st)) = "TikTok_Output") /\
    (forall f, s "selectedFont" = Some f -> f <> "" ->
               selectedFont (settings (loadSettings s st)) = f) /\
    (truthy (s "selectedFont") = None ->
     selectedFont (settings (loadSettings s st)) = "Impact").
Proof. exact load_settings_defaults_lemma. Qed.

Lemma load_settings_defaults_witness :
  truthy (store_set "outputDir" "" (fun _ => None) "outputDir") = None /\
  truthy (store_set "outputDir" "" (fun _ => None) "defaultOutputDir") = None /\
  outputDir (settings (loadSettings (store_set "outputDir" "" (fun _ => None))
                                    empty_app)) = "TikTok_Output".
Proof.
  split; [reflexivity | split; [reflexivity |]].
  exact (proj1 (proj2 (proj2 (proj2 (proj2 (proj2 (proj2
           (load_settings_defaults
              (store_set "outputDir" "" (fun _ => None)) empty_app)))))))
         eq_refl eq_refl).
Defined.

(** X17. The first start writes the default output directory into the
    store and later starts keep what is there; on a store without an
    output directory the settings then loaded name that default
    directory. *)
Theorem first_start_default_directory :
  forall (default_dir : string) (s : Store) (st : App),
    (forall d, s "defaultOutputDir" = Some d -> whenReady default_dir s = s) /\
    (forall again, whenReady again (whenReady default_dir s) =
                   whenReady default_dir s) /\
    (forall k, k <> "defaultOutputDir" -> whenReady default_dir s k = s k) /\
    (s "defaultOutputDir" = None -> truthy (s "outputDir") = None ->
     default_dir <> "" ->
     outputDir (settings (loadSettings (whenReady default_dir s) st)) =
       default_dir).
Proof.
  intros default_dir s st.
  assert (K : forall d, s "defaultOutputDir" = Some d ->
                        whenReady default_dir s = s).
  { intros d E. unfold whenReady, store_has. now rewrite E. }
  assert (W : exists d, whenReady default_dir s "defaultOutputDir" = Some d).
  { unfold whenReady, store_has.
    destruct (s "defaultOutputDir") as [d|] eqn:E; cbn [negb].
    - now exists d.
    - exists default_dir. unfold store_set. now rewrite String.eqb_refl. }
  split; [exact K | split; [| split]].
  - intros again. destruct W as [d W]. unfold whenReady at 1, store_has.
    now rewrite W.
  - intros k N. unfold whenReady, store_has.
    destruct (s "defaultOutputDir"); cbn [negb]; [reflexivity |].
    unfold store_set. now rewrite (proj2 (String.eqb_neq _ _) N).
  - intros D O N.
    assert (E : whenReady default_dir s "defaultOutputDir" = Some default_dir).
    { unfold whenReady, store_has. rewrite D. cbn [negb]. unfold store_set.
      now rewrite String.eqb_refl. }
    assert (O' : truthy (whenReady default_dir s "outputDir") = None).
    { unfold whenReady, store_has. rewrite D. cbn [negb]. unfold store_set.
      cbn. exact O. }
    exact (proj1 (proj2 (proj2 (proj2 (proj2 (proj2
             (load_settings_defaults_lemma (whenReady default_dir s) st))))))
           default_dir O' E N).
Qed.

Lemma first_start_default_directory_witness :
  (fun _ : string => @None string) "defaultOutputDir" = None /\
  truthy ((fun _ : string => @None string) "outputDir") = None /\
  "/home/u/TikTok_Output" <> "" /\
  outputDir (settings (loadSettings
                         (whenReady "/home/u/TikTok_Output" (fun _ => None))
                         empty_app)) = "/home/u/TikTok_Output".
Proof.
  assert (N : "/home/u/TikTok_Output" <> "") by discriminate.
  split; [reflexivity | split; [reflexivity | split; [exact N |]]].
  exact (proj2 (proj2 (proj2
           (first_start_default_directory "/home/u/TikTok_Output"
              (fun _ => None) empty_app))) eq_refl eq_refl N).
Defined.

Lemma select_folder_picked (dialog : option string -> OpenDialogResult)
      (s : Store) (d : string) (rest : list string) :
  canceled (dialog (truthy (s "lastExportDir"))) = false ->
  filePaths (dialog (truthy (s "lastExportDir"))) = d :: rest ->
  select_folder dialog s = (Some d, store_set "lastExportDir" d s).
Proof.
  intros C F. unfold select_folder, store_get. now rewrite C, F.
Qed.

Lemma select_folder_dismissed (dialog : option string -> OpenDialogResult)
      (s : Store) :
  canceled (dialog (truthy (s "lastExportDir"))) = true \/
  filePaths (dialog (truthy (s "lastExportDir"))) = [] ->
  select_folder dialog s = (None, s).
Proof.
  intros H. unfold select_folder, store_get.
  destruct H as [C | F]; [now rewrite C |].
  rewrite F. cbn. now rewrite andb_false_r.
Qed.

(** X18. Choosing the output directory: when the user picks a folder
    [d], the settings name [d], the font and the queue are as before,
    the store keeps [d] both as the output directory and as the folder
    the next dialog opens at, nothing else in the store changes, and the
    settings loaded at the next start name [d] again. When the user
    dismisses the dialog, the component and the store are unchanged. *)
Theorem choose_output_directory :
  forall (dialog : option string -> OpenDialogResult) (st : App) (s : Store),
    (forall d rest,
        canceled (dialog (truthy (s "lastExportDir"))) = false ->
        filePaths (dialog (truthy (s "lastExportDir"))) = d :: rest ->
        d <> "" ->
        outputDir (settings (fst (handleChooseOutputDir dialog (st, s)))) = d /\
        selectedFont (settings (fst (handleChooseOutputDir dialog (st, s)))) =
          selectedFont (settings st) /\
        videos (fst (handleChooseOutputDir dialog (st, s))) = videos st /\
        snd (handleChooseOutputDir dialog (st, s)) "outputDir" = Some d /\
        snd (handleChooseOutputDir dialog (st, s)) "lastExportDir" = Some d /\
        (forall k, k <> "outputDir" -> k <> "lastExportDir" ->
                   snd (handleChooseOutputDir dialog (st, s)) k = s k) /\
        (forall st2,
            outputDir (settings (loadSettings
                                   (snd (handleChooseOutputDir dialog (st, s)))
                                   st2)) = d)) /\
    (canceled (dialog (truthy (s "lastExportDir"))) = true \/
     filePaths (dialog (truthy (s "lastExportDir"))) = [] ->
     handleChooseOutputDir dialog (st, s) = (st, s)).
Proof.
  intros dialog st s. split.
  - intros d rest C F N. unfold handleChooseOutputDir.
    rewrite (select_folder_picked dialog s d rest C F), (truthy_some d N).
    cbn [fst snd set_setting setSettings settings outputDir selectedFont
         videos].
    assert (O : store_set "outputDir" d (store_set "lastExportDir" d s)
                          "outputDir" = Some d) by reflexivity.
    repeat split; try reflexivity.
    + intros k K1 K2. unfold store_set.
      now rewrite (proj2 (String.eqb_neq _ _) K1),
                  (proj2 (String.eqb_neq _ _) K2).
    + intros st2.
      exact (proj1 (proj2 (proj2 (proj2 (proj2
               (load_settings_defaults_lemma _ st2))))) d O N).
  - intros H. unfold handleChooseOutputDir.
    now rewrite (select_folder_dismissed dialog s H).
Qed.

Lemma choose_output_directory_witness :
  canceled (mkOpenDialogResult false ["/videos/out"]) = false /\
  "/videos/out" <> "" /\
  outputDir (settings (fst (handleChooseOutputDir
                              (fun _ => mkOpenDialogResult false ["/videos/out"])
                              (three_jobs, fun _ => None)))) = "/videos/out" /\
  handleChooseOutputDir (fun _ => mkOpenDialogResult true [])
                        (three_jobs, fun _ => None) =
    (three_jobs, fun _ => None).
Proof.
  assert (N : "/videos/out" <> "") by discriminate.
  split; [reflexivity | split; [exact N | split]].
  - exact (proj1 (proj1 (choose_output_directory
                           (fun _ => mkOpenDialogResult false ["/videos/out"])
                           three_jobs (fun _ => None))
                        "/videos/out" [] eq_refl eq_refl N)).
  - exact (proj2 (choose_output_directory
                    (fun _ => mkOpenDialogResult true [])
                    three_jobs (fun _ => None)) (or_introl eq_refl)).
Defined.

(** X19. The two pickers of the main process. Picking videos returns
    all the picked files in their order and remembers the folder of the
    first; picking a folder returns the first folder and remembers it.
    Each picker opens at what it remembered last and leaves the memory
    of the other alone; a dismissed dialog returns nothing and leaves the
    store as it is. *)
Theorem pickers_remember_their_folders :
  forall (dirname : string -> string)
         (dialog : option string -> OpenDialogResult) (s : Store),
    (forall f rest,
        canceled (dialog (truthy (s "lastImportDir"))) = false ->
        filePaths (dialog (truthy (s "lastImportDir"))) = f :: rest ->
        fst (select_videos dirname dialog s) = f :: rest /\
        snd (select_videos dirname dialog s) "lastImportDir" =
          Some (dirname f) /\
        (forall k, k <> "lastImportDir" ->
                   snd (select_videos dirname dialog s) k = s k) /\
        (dirname f <> "" ->
         forall next,
           fst (select_videos dirname next
                              (snd (select_videos dirname dialog s))) =
           fst (select_videos dirname (fun _ => next (Some (dirname f)))
                              (snd (select_videos dirname dialog s))))) /\
    (canceled (dialog (truthy (s "lastImportDir"))) = true \/
     filePaths (dialog (truthy (s "lastImportDir"))) = [] ->
     select_videos dirname dialog s = ([], s)) /\
    (forall d rest,
        canceled (dialog (truthy (s "lastExportDir"))) = false ->
        filePaths (dialog (truthy (s "lastExportDir"))) = d :: rest ->
        fst (select_folder dialog s) = Some d /\
        snd (select_folder dialog s) "lastExportDir" = Some d /\
        (forall k, k <> "lastExportDir" ->
                   snd (select_folder dialog s) k = s k) /\
        (d <> "" ->
         forall next,
           fst (select_folder next (snd (select_folder dialog s))) =
           fst (select_folder (fun _ => next (Some d))
                              (snd (select_folder dialog s))))) /\
    (canceled (dialog (truthy (s "lastExportDir"))) = true \/
     filePaths (dialog (truthy (s "lastExportDir"))) = [] ->
     select_folder dialog s = (None, s)).
Proof.
  intros dirname dialog s. split; [| split; [| split]].
  - intros f rest C F.
    assert (E : select_videos dirname dialog s =
                (f :: rest, store_set "lastImportDir" (dirname f) s)).
    { unfold select_videos, store_get. now rewrite C, F. }
    rewrite E. cbn [fst snd].
    assert (M : store_set "lastImportDir" (dirname f) s "lastImportDir" =
                Some (dirname f)) by reflexivity.
    split; [reflexivity | split; [exact M | split]].
    + intros k K. unfold store_set.
      now rewrite (proj2 (String.eqb_neq _ _) K).
    + intros N next. unfold select_videos, store_get.
      now rewrite M, (truthy_some _ N).
  - intros H. unfold select_videos, store_get.
    destruct H as [C | F]; [now rewrite C |].
    rewrite F. cbn. now rewrite andb_false_r.
  - intros d rest C F. rewrite (select_folder_picked dialog s d rest C F).
    cbn [fst snd].
    assert (M : store_set "lastExportDir" d s "lastExportDir" = Some d)
      by reflexivity.
    split; [reflexivity | split; [exact M | split]].
    + intros k K. unfold store_set.
      now rewrite (proj2 (String.eqb_neq _ _) K).
    + intros N next. unfold select_folder, store_get.
      now rewrite M, (truthy_some _ N).
  - apply select_folder_dismissed.
Qed.

Lemma pickers_remember_their_folders_witness :
  canceled (mkOpenDialogResult false ["/in/a.mp4"; "/in/b.mp4"]) = false /\
  select_videos (fun _ => "/in")
                (fun _ => mkOpenDialogResult false ["/in/a.mp4"; "/in/b.mp4"])
                (fun _ => None) =
    (["/in/a.mp4"; "/in/b.mp4"],
     snd (select_videos (fun _ => "/in")
            (fun _ => mkOpenDialogResult false ["/in/a.mp4"; "/in/b.mp4"])
            (fun _ => None))) /\
  snd (select_videos (fun _ => "/in")
         (fun _ => mkOpenDialogResult false ["/in/a.mp4"; "/in/b.mp4"])
         (fun _ => None)) "lastImportDir" = Some "/in" /\
  select_folder (fun _ => mkOpenDialogResult true []) (fun _ => None) =
    (None, fun _ => None).
Proof.
  split; [reflexivity | split; [reflexivity | split]].
  - exact (proj1 (proj2 (proj1 (pickers_remember_their_folders
             (fun _ => "/in")
             (fun _ => mkOpenDialogResult false ["/in/a.mp4"; "/in/b.mp4"])
             (fun _ => None)) "/in/a.mp4" ["/in/b.mp4"] eq_refl eq_refl))).
  - exact (proj2 (proj2 (proj2 (pickers_remember_their_folders
             (fun _ => "/in") (fun _ => mkOpenDialogResult true [])
             (fun _ => None)))) (or_introl eq_refl)).
Defined.

Lemma last_of_some (x : string) (l : list string) (d d' : string) :
  last (x :: l) d = last (x :: l) d'.
Proof.
  revert x. induction l as [|y l IH]; intros x; [reflexivity |].
  change (last (x :: y :: l) ?e) with (last (y :: l) e). apply IH.
Qed.

Lemma SettingsPanel_save_keeps (picks : list string) (cfg : Settings) :
  outputDir (SettingsPanel_save picks cfg) = outputDir cfg /\
  theme (SettingsPanel_save picks cfg) = theme cfg /\
  selectedFont (SettingsPanel_save picks cfg) = last picks (selectedFont cfg).
Proof.
  unfold SettingsPanel_save. revert cfg.
  induction picks as [|f picks IH]; intros cfg; [now repeat split |].
  cbn [fold_left]. destruct (IH (pickFont f cfg)) as [O [T F]].
  rewrite O, T, F. cbn [pickFont outputDir theme selectedFont].
  repeat split. destruct picks as [|g picks]; [reflexivity |].
  change (last (f :: g :: picks) ?e) with (last (g :: picks) e).
  apply last_of_some.
Qed.

Lemma available_font_nonempty (f : string) :
  In f (map font_value AVAILABLE_FONTS) -> f <> "".
Proof. cbn. intuition (subst; discriminate). Qed.

(** X20. Saving the settings panel: what is saved is the settings the
    panel was opened with, with the font of the last radio button chosen
    (the font at opening when none was chosen). The component takes
    these settings, the store gets the font and nothing else, and when a
    font was chosen it is what the next start loads and what the encoder
    is given as its font. *)
Theorem saved_font :
  forall (picks : list string) (st : App) (s : Store),
    Forall (fun f => In f (map font_value AVAILABLE_FONTS)) picks ->
    settings (fst (onSave (SettingsPanel_save picks (settings st)) (st, s))) =
      mkSettings (outputDir (settings st))
                 (last picks (selectedFont (settings st)))
                 (theme (settings st)) /\
    videos (fst (onSave (SettingsPanel_save picks (settings st)) (st, s))) =
      videos st /\
    (forall k, k <> "selectedFont" ->
               snd (onSave (SettingsPanel_save picks (settings st)) (st, s)) k =
               s k) /\
    (picks <> [] ->
     (forall st2,
         selectedFont
           (settings
              (loadSettings
                 (snd (onSave (SettingsPanel_save picks (settings st)) (st, s)))
                 st2)) = last picks "") /\
     (forall h v,
         nth_error
           (encoder_argv h
              (args_of (settings (fst (onSave (SettingsPanel_save
                                                 picks (settings st)) (st, s))))
                       v)) 4 = Some (last picks ""))).
Proof.
  intros picks st s F.
  destruct (SettingsPanel_save_keeps picks (settings st)) as [O [T L]].
  cbn [onSave fst snd set_setting setSettings settings videos].
  split; [| split; [reflexivity | split]].
  - destruct (SettingsPanel_save picks (settings st)) as [o f t].
    cbn [outputDir theme selectedFont] in *. now subst.
  - intros k K. unfold store_set. now rewrite (proj2 (String.eqb_neq _ _) K).
  - intros NE.
    assert (Lp : last picks (selectedFont (settings st)) = last picks "").
    { destruct picks as [|f picks]; [contradiction | apply last_of_some]. }
    assert (In1 : In (last picks "") (map font_value AVAILABLE_FONTS)).
    { rewrite Forall_forall in F. apply F.
      clear -NE. induction picks as [|f picks IH]; [contradiction |].
      destruct picks as [|g picks]; [now left |].
      right. apply IH. discriminate. }
    pose proof (available_font_nonempty _ In1) as N.
    rewrite L, Lp. split.
    + intros st2.
      assert (E : store_set "selectedFont" (last picks "") s "selectedFont" =
                  Some (last picks "")) by reflexivity.
      exact (proj1 (proj2 (proj2 (proj2 (proj2 (proj2 (proj2 (proj2
               (load_settings_defaults_lemma _ st2))))))))
             (last picks "") E N).
    + intros h v. cbn [encoder_argv args_of font nth_error]. rewrite L, Lp.
      unfold or_else. destruct (last picks ""); [contradiction | reflexivity].
Qed.

Lemma saved_font_witness :
  Forall (fun f => In f (map font_value AVAILABLE_FONTS))
         ["Oswald-Bold"; "Bebas-Neue"] /\
  settings (fst (onSave (SettingsPanel_save ["Oswald-Bold"; "Bebas-Neue"]
                                            (settings three_jobs))
                        (three_jobs, fun _ => None))) =
    mkSettings "out" "Bebas-Neue" dark.
Proof.
  assert (F : Forall (fun f => In f (map font_value AVAILABLE_FONTS))
                     ["Oswald-Bold"; "Bebas-Neue"])
    by (repeat constructor; cbn; auto 10).
  split; [exact F |].
  exact (proj1 (saved_font ["Oswald-Bold"; "Bebas-Neue"] three_jobs
                           (fun _ => None) F)).
Defined.

(** ** File names and output paths *)

Lemma rev_unit (c : ascii) (s : string) : rev (String c s) = rev s ++ String c "".
Proof. unfold rev. cbn [rev_onto]. apply rev_onto_append. Qed.

Lemma rev_append (a b : string) : rev (a ++ b) = rev b ++ rev a.
Proof.
  induction a as [|c a IH]; cbn [append].
  - now rewrite append_empty_r.
  - now rewrite !rev_unit, IH, append_assoc.
Qed.

Lemma rev_rev (s : string) : rev (rev s) = s.
Proof.
  induction s as [|c s IH]; [reflexivity |].
  now rewrite rev_unit, rev_append, IH.
Qed.

Lemma take_while_all (f : ascii -> bool) (s : string) :
  all_chars f (take_while f s) = true.
Proof.
  induction s as [|c s IH]; [reflexivity |]. cbn [take_while].
  destruct (f c) eqn:E; [| reflexivity]. cbn [all_chars]. now rewrite E.
Qed.

Lemma basename_after_separator (dir name : string) (sep : ascii) :
  isSeparator sep = true ->
  all_chars (fun c => negb (isSeparator c)) name = true ->
  basename (dir ++ String sep name) = name.
Proof.
  intros S N. unfold basename.
  rewrite rev_append, rev_unit, append_assoc. cbn [append].
  destruct (take_while_prefix (fun c => negb (isSeparator c)) (rev name)
              (String sep (rev dir))) as [T _].
  - now rewrite all_chars_rev.
  - now rewrite S.
  - rewrite T. apply rev_rev.
Qed.

(** X21. The name shown for a file is what follows the last slash or
    backslash of its path: for a path made of a folder, a separator and
    a name without separators it is that name (empty when the path ends
    with the separator), a path without separators is its own name, and
    the name never contains a separator. *)
Theorem file_name_of_path :
  forall (d : Draw) (dir name : string) (sep : ascii),
    isSeparator sep = true ->
    all_chars (fun c => negb (isSeparator c)) name = true ->
    filename (newVideo d (dir ++ String sep name)) = name /\
    filename (newVideo d name) = name /\
    (forall p, all_chars (fun c => negb (isSeparator c))
                         (filename (newVideo d p)) = true).
Proof.
  intros d dir name sep S N. cbn [newVideo filename].
  split; [now apply basename_after_separator | split].
  - unfold basename.
    destruct (take_while_prefix (fun c => negb (isSeparator c)) (rev name) "")
      as [T _]; [now rewrite all_chars_rev | exact I |].
    rewrite append_empty_r in T. rewrite T. apply rev_rev.
  - intros p. unfold basename. rewrite all_chars_rev. apply take_while_all.
Qed.

Lemma file_name_of_path_witness :
  isSeparator "\"%char = true /\
  all_chars (fun c => negb (isSeparator c)) "clip.final.mp4" = true /\
  filename (newVideo (mkDraw 1 "0.5") ("C:\videos" ++ String "\" "clip.final.mp4")) =
    "clip.final.mp4".
Proof.
  split; [reflexivity | split; [reflexivity |]].
  exact (proj1 (file_name_of_path (mkDraw 1 "0.5") "C:\videos" "clip.final.mp4"
                                  "\"%char eq_refl eq_refl)).
Defined.

Lemma strip_extension_last (stem ext : string) :
  ext <> "" -> all_chars extension_char ext = true ->
  strip_extension (stem ++ String "." ext) = stem.
Proof.
  intros NE E. unfold strip_extension.
  rewrite rev_append, rev_unit, append_assoc. cbn [append].
  destruct (take_while_prefix extension_char (rev ext)
              (String "." (rev stem))) as [T D].
  - now rewrite all_chars_rev.
  - reflexivity.
  - unfold extension_char in T, D. rewrite T, D.
    destruct (rev ext) eqn:R.
    + apply rev_empty in R. contradiction.
    + apply rev_rev.
Qed.

Lemma no_dot_after_drop (s : string) :
  all_chars (fun c => negb (Ascii.eqb c "."%char)) s = true ->
  match drop_while extension_char s with
  | String c _ => c <> "."%char
  | EmptyString => True
  end.
Proof.
  induction s as [|c s IH]; [easy |]. cbn [all_chars drop_while].
  intros H. apply andb_true_iff in H. destruct H as [C H].
  destruct (extension_char c); [now apply IH |].
  intros ->. discriminate.
Qed.

Lemma strip_extension_no_dot (name : string) :
  all_chars (fun c => negb (Ascii.eqb c "."%char)) name = true ->
  strip_extension name = name.
Proof.
  intros H. unfold strip_extension.
  pose proof (no_dot_after_drop (rev name)) as D.
  rewrite all_chars_rev in D. specialize (D H).
  unfold extension_char in D.
  destruct (take_while _ (rev name)); [reflexivity |].
  destruct (drop_while _ (rev name)) as [|c t]; [reflexivity |].
  destruct c as [[] [] [] [] [] [] [] []]; try reflexivity.
  now contradiction D.
Qed.

(** X22. The output file of a job is named after the input file name
    alone, without its last extension: a file [stem.ext] in any folder
    is written to [outputDir/stem_tiktok.mp4], so two files with the
    same stem, from different folders or with different extensions, are
    written to the same output file. A name without a dot is kept
    whole. *)
Theorem output_path_of_file :
  forall (cfg : Settings) (d : Draw) (dir stem ext : string) (sep : ascii),
    isSeparator sep = true ->
    all_chars (fun c => negb (isSeparator c)) stem = true ->
    all_chars (fun c => negb (isSeparator c)) ext = true ->
    all_chars extension_char ext = true ->
    (ext <> "" ->
     output_path cfg (newVideo d (dir ++ String sep (stem ++ String "." ext))) =
       outputDir cfg ++ "/" ++ stem ++ "_tiktok.mp4") /\
    (all_chars (fun c => negb (Ascii.eqb c "."%char)) stem = true ->
     output_path cfg (newVideo d (dir ++ String sep stem)) =
       outputDir cfg ++ "/" ++ stem ++ "_tiktok.mp4").
Proof.
  intros cfg d dir stem ext sep S Hs He Hx. unfold output_path.
  cbn [newVideo filename]. split.
  - intros NE. rewrite basename_after_separator; [| exact S |].
    + now rewrite strip_extension_last.
    + rewrite all_chars_append. cbn [all_chars]. now rewrite Hs, He.
  - intros ND. rewrite basename_after_separator by assumption.
    now rewrite strip_extension_no_dot.
Qed.

Lemma output_path_of_file_witness :
  isSeparator "/"%char = true /\
  all_chars extension_char "mov" = true /\ "mov" <> "" /\
  output_path (mkSettings "out" "Impact" dark)
              (newVideo (mkDraw 1 "0.5") ("/a" ++ String "/" ("clip" ++ String "." "mov"))) =
    "out/clip_tiktok.mp4" /\
  output_path (mkSettings "out" "Impact" dark)
              (newVideo (mkDraw 2 "0.7") ("/b" ++ String "/" ("clip" ++ String "." "mp4"))) =
    "out/clip_tiktok.mp4".
Proof.
  assert (N : "mov" <> "") by discriminate.
  split; [reflexivity | split; [reflexivity | split; [exact N |]]].
  split; [| reflexivity].
  exact (proj1 (output_path_of_file (mkSettings "out" "Impact" dark)
                  (mkDraw 1 "0.5") "/a" "clip" "mov" "/"%char
                  eq_refl eq_refl eq_refl eq_refl) N).
Defined.

(** ** Clearing and adding *)

(** X23. Clear All: on an empty queue nothing is asked and nothing
    changes; when the user declines nothing changes; when the user
    confirms on a queue that is not empty the queue and the selection
    are emptied, the counts are 0, and Process All then finds nothing to
    process and invokes nothing. *)
Theorem clear_all :
  forall (confirmed : bool) (st : App),
    (videos st = [] -> handleClearAll confirmed st = st) /\
    handleClearAll false st = st /\
    (videos st <> [] ->
     videos (handleClearAll true st) = [] /\
     selectedVideo (handleClearAll true st) = None /\
     settings (handleClearAll true st) = settings st /\
     bulkCaption (handleClearAll true st) = bulkCaption st /\
     pendingCount (videos (handleClearAll true st)) = 0 /\
     completedCount (videos (handleClearAll true st)) = 0 /\
     (forall api,
         calls (handleProcessAll api (handleClearAll true st)) = [] /\
         videos (component (handleProcessAll api (handleClearAll true st))) =
           [])).
Proof.
  intros confirmed st. unfold handleClearAll. split; [| split].
  - intros E. now rewrite E.
  - now rewrite andb_false_r.
  - intros N. destruct (videos st) as [|v vs] eqn:E; [contradiction |].
    cbn [List.length Nat.ltb Nat.leb andb setSelectedVideo setVideos videos
         selectedVideo settings bulkCaption].
    repeat split.
Qed.

Lemma clear_all_witness :
  videos three_jobs <> [] /\
  videos (handleClearAll true three_jobs) = [] /\
  handleClearAll true empty_app = empty_app.
Proof.
  assert (N : videos three_jobs <> []) by discriminate.
  split; [exact N | split].
  - exact (proj1 (proj2 (proj2 (clear_all true three_jobs)) N)).
  - exact (proj1 (clear_all true empty_app) eq_refl).
Defined.

(** X24. A click on Add Videos: when the user dismisses the picker, or
    picks nothing, the component and the store are unchanged; when the
    user picks files, they are appended to the queue in the order of the
    picker, the jobs that were there are untouched, and the folder of
    the first file is remembered for the next time. *)
Theorem add_videos_clicked :
  forall (dirname : string -> string)
         (dialog : option string -> OpenDialogResult) (draw : nat -> Draw)
         (st : App) (s : Store),
    (canceled (dialog (truthy (s "lastImportDir"))) = true \/
     filePaths (dialog (truthy (s "lastImportDir"))) = [] ->
     addVideos_clicked dirname dialog draw (st, s) = (st, s)) /\
    (forall f rest,
        canceled (dialog (truthy (s "lastImportDir"))) = false ->
        filePaths (dialog (truthy (s "lastImportDir"))) = f :: rest ->
        exists created,
          videos (fst (addVideos_clicked dirname dialog draw (st, s))) =
            (videos st ++ created)%list /\
          map filepath created = f :: rest /\
          map filename created = map basename (f :: rest) /\
          Forall (fun v => status v = pending /\ caption v = "" /\
                           progress v = Num 0%Q /\ errorMsg v = None)
                 created /\
          snd (addVideos_clicked dirname dialog draw (st, s)) "lastImportDir" =
            Some (dirname f)).
Proof.
  intros dirname dialog draw st s. unfold addVideos_clicked. split.
  - intros H.
    assert (E : select_videos dirname dialog s = ([], s)).
    { unfold select_videos, store_get.
      destruct H as [C | F]; [now rewrite C |].
      rewrite F. cbn. now rewrite andb_false_r. }
    now rewrite E.
  - intros f rest C F.
    assert (E : select_videos dirname dialog s =
                (f :: rest, store_set "lastImportDir" (dirname f) s)).
    { unfold select_videos, store_get. now rewrite C, F. }
    rewrite E. cbn [fst snd].
    exists (newVideos draw (f :: rest)).
    rewrite handleAddVideos_videos.
    destruct (newVideos_from draw (f :: rest) 0) as [P [_ _]].
    fold (newVideos draw (f :: rest)) in P.
    split; [reflexivity | split; [exact P | split; [| split]]].
    + rewrite <- P at 2. rewrite map_map. unfold newVideos.
      rewrite !map_map. reflexivity.
    + unfold newVideos. apply Forall_map. apply Forall_forall.
      intros kf _. now repeat split.
    + unfold store_set. now rewrite String.eqb_refl.
Qed.

Lemma add_videos_clicked_witness :
  canceled (mkOpenDialogResult true []) = true /\
  addVideos_clicked (fun _ => "/in") (fun _ => mkOpenDialogResult true [])
                    (fun _ => mkDraw 1 "0.5") (three_jobs, fun _ => None) =
    (three_jobs, fun _ => None) /\
  map filepath
      (videos (fst (addVideos_clicked
                      (fun _ => "/in")
                      (fun _ => mkOpenDialogResult false ["/in/a.mp4"])
                      (fun _ => mkDraw 1 "0.5") (empty_app, fun _ => None)))) =
    ["/in/a.mp4"].
Proof.
  split; [reflexivity | split; [| reflexivity]].
  exact (proj1 (add_videos_clicked (fun _ => "/in")
                  (fun _ => mkOpenDialogResult true [])
                  (fun _ => mkDraw 1 "0.5") three_jobs (fun _ => None))
               (or_introl eq_refl)).
Defined.
